(** * go-cache-prog: the GOCACHEPROG protocol engine (cache/server.go)

    A shallow embedding of the server of package [cache]: the wire data
    (Request, Response), the command registry with its middleware chain,
    the read loop of [serve], the goroutines started by
    [asyncHandleRequest], the token channel [sem] and the wait group [wg].

    Concurrency is modelled by interleaving: one scheduler label is one
    atomic action of the dispatcher or of a launched goroutine, and time is
    a logical clock advanced by the label [Tick].  A statement quantified
    over all schedules therefore covers every order in which the Go
    scheduler, the timers and the peer on stdin may act; in particular a
    select with both cases ready may take either.

    What lies outside the package is taken as follows.
    - encoding/json: the inbound stream is the list of top-level values
      still to come, each already classified by what [Decode] makes of it.
    - Handlers and middleware are Go functions supplied by the user; here a
      handler is a function from its arguments to the finite sequence of
      effects it has on the writer and on the log.  A handler that blocks
      for ever or panics is not represented.
    - The output is the sequence of [WriteResponse] calls on the server's
      writer.  [defaultWriter] serialises the calls with its mutex and
      encodes one JSON value per call; its fallback for a failing encoder
      is given separately, as [defaultWriter_WriteResponse]. *)

From Stdlib Require Import ZArith NArith Ascii String List Lia.
From stdpp Require Import base option list strings gmap.

Local Open Scope Z_scope.

(** ** Protocol data (the Cmd, Request and Response declarations) *)

Definition Cmd := string.

Definition CmdPut : Cmd := "put".
Definition CmdGet : Cmd := "get".
Definition CmdClose : Cmd := "close".

Definition bytes := list Byte.byte.

(** The values that end up in [Request.Body], an [io.Reader]. *)
Inductive Reader :=
| NilReader                      (* field left unset *)
| EmptyReader                    (* bytes.NewReader(nil) *)
| Base64Reader (src : string).   (* base64.NewDecoder(base64.StdEncoding, strings.NewReader(src)) *)

Module Request.
Record t := mk {
  ID : Z;
  Command : Cmd;
  ActionID : bytes;
  OutputID : bytes;
  Body : Reader;
  BodySize : Z;
  ObjectID : bytes
}.
Definition withBody (r : t) (b : Reader) : t :=
  mk (ID r) (Command r) (ActionID r) (OutputID r) b (BodySize r) (ObjectID r).
End Request.

Module Response.
Record t := mk {
  ID : Z;
  Err : string;
  KnownCommands : list Cmd;
  Miss : bool;
  OutputID : bytes;
  Size : Z;
  Time : option Z;
  DiskPath : string
}.
(** The zero value of the struct. *)
Definition zero : t := mk 0 "" [] false [] 0 None "".
(** [Response{ID: id, Err: e}] *)
Definition error (id : Z) (e : string) : t := mk id e [] false [] 0 None "".
End Response.

(** ** encoding/base64, standard alphabet with padding

    What reading a [Base64Reader] to its end yields: the decoded bytes and
    whether the input was accepted.  Line breaks are skipped, every group
    is four characters, [=] pads the last group only. *)

Definition sextet (c : ascii) : option N :=
  let n := N_of_ascii c in
  if ((65 <=? n) && (n <=? 90))%N then Some (n - 65)%N
  else if ((97 <=? n) && (n <=? 122))%N then Some (n - 71)%N
  else if ((48 <=? n) && (n <=? 57))%N then Some (n + 4)%N
  else if (n =? 43)%N then Some 62%N
  else if (n =? 47)%N then Some 63%N
  else None.

Definition is_pad (c : ascii) : bool := (N_of_ascii c =? 61)%N.
Definition is_newline (c : ascii) : bool :=
  ((N_of_ascii c =? 10) || (N_of_ascii c =? 13))%N.

Definition byte_of_N (n : N) : Byte.byte :=
  match Byte.of_N (n mod 256) with Some b => b | None => Byte.x00 end.

Definition quantum (x y z w : N) : N :=
  N.lor (N.lor (N.shiftl x 18) (N.shiftl y 12)) (N.lor (N.shiftl z 6) w).

Definition quantum_bytes (dlen : nat) (v : N) : bytes :=
  take (dlen - 1)%nat
    [byte_of_N (N.shiftr v 16); byte_of_N (N.shiftr v 8); byte_of_N v].

Fixpoint decodeQuanta (l : list ascii) : bytes * bool :=
  match l with
  | [] => ([], true)
  | a :: b :: c :: d :: rest =>
      match sextet a, sextet b with
      | Some x, Some y =>
          match sextet c, sextet d with
          | Some z, Some w =>
              let '(bs, ok) := decodeQuanta rest in
              (quantum_bytes 4 (quantum x y z w) ++ bs, ok)
          | Some z, None =>
              if is_pad d && bool_decide (rest = [])
              then (quantum_bytes 3 (quantum x y z 0), true)
              else ([], false)
          | None, _ =>
              if is_pad c && is_pad d && bool_decide (rest = [])
              then (quantum_bytes 2 (quantum x y 0 0), true)
              else ([], false)
          end
      | _, _ => ([], false)
      end
  | _ => ([], false)
  end.

Definition base64_decode (s : string) : bytes * bool :=
  decodeQuanta (filter (λ c, is_newline c = false) (list_ascii_of_string s)).

(** [io.ReadAll] on a body; [None] is the panic on a nil reader. *)
Definition readAll (r : Reader) : option (bytes * bool) :=
  match r with
  | NilReader => None
  | EmptyReader => Some ([], true)
  | Base64Reader src => Some (base64_decode src)
  end.

(** ** encoding/json: the decoder over stdin

    The inbound stream is the sequence of top-level JSON values still to
    come.  [Decode] consumes one value; a value of the wrong shape is
    consumed and reported, malformed input is reported and stays (the
    decoder keeps returning that error), the end of input is [EOF]. *)

Inductive Msg :=
| MRequest (r : Request.t)   (* an object that unmarshals into a Request *)
| MString (s : string)       (* a JSON string *)
| MNull                      (* the JSON null *)
| MOther (err : string)      (* another well-formed value; [err] is the unmarshal error *)
| MMalformed (err : string). (* not JSON; [err] is the syntax error *)

Definition Decoder := list Msg.

Inductive Decoded (A : Type) :=
| DecOk (a : A)
| DecErr (err : string).
Arguments DecOk {A} a.
Arguments DecErr {A} err.

Definition type_error (go_value go_type : string) : string :=
  "json: cannot unmarshal " +:+ go_value +:+ " into Go value of type " +:+ go_type.

(** [var req *Request; s.decoder.Decode(&req)]; null succeeds and leaves
    the pointer nil ([None]). *)
Definition decodeRequest (d : Decoder) : Decoded (option Request.t) * Decoder :=
  match d with
  | [] => (DecErr "EOF", [])
  | MRequest r :: d' => (DecOk (Some r), d')
  | MString _ :: d' => (DecErr (type_error "string" "cache.Request"), d')
  | MNull :: d' => (DecOk None, d')
  | MOther e :: d' => (DecErr e, d')
  | MMalformed e :: _ => (DecErr e, d)
  end.

(** [var base64Body string; s.decoder.Decode(&base64Body)]; null leaves
    the string empty. *)
Definition decodeString (d : Decoder) : Decoded string * Decoder :=
  match d with
  | [] => (DecErr "EOF", [])
  | MString s :: d' => (DecOk s, d')
  | MRequest _ :: d' => (DecErr (type_error "object" "string"), d')
  | MNull :: d' => (DecOk "", d')
  | MOther e :: d' => (DecErr e, d')
  | MMalformed e :: _ => (DecErr e, d)
  end.

(** ** Handlers, middleware and the registry *)

(** [context.WithTimeout(context.Background(), d)] at time [now]. *)
Record Ctx := mkCtx { deadline : Z }.

Definition WithTimeout (now d : Z) : Ctx := mkCtx (now + d).

(** [<-ctx.Done()] can proceed. *)
Definition expired (ctx : Ctx) (now : Z) : bool := bool_decide (deadline ctx ≤ now).

(** What a handler does that the engine can observe: calls of
    [WriteResponse] on the server's writer and lines sent to the log.
    A handler here always returns.  One that panics is not represented:
    nothing in [asyncHandleRequest] recovers a panic, so it would end the
    process, as a JSON null message does; what is stated below about the
    Responses launched operations come to write is about handlers that
    return. *)
Inductive Effect :=
| EWrite (res : Response.t)
| ELog (line : string).

Definition ResponseWriter := Response.t → list Effect.
Definition Handler := Ctx → ResponseWriter → Request.t → list Effect.
Definition Middleware := Handler → Handler.

(** [HandlerFunc(f).Handle(ctx, w, r)] is [f(ctx, w, r)]. *)
Definition HandlerFunc (f : Ctx → ResponseWriter → Request.t → list Effect) : Handler := f.

Record ServeMux := mkMux {
  allowedCommands : gset string;
  m : gmap string Handler;
  middleware : list Middleware
}.

Definition serveMux : ServeMux :=
  mkMux ({[CmdGet]} ∪ {[CmdPut]} ∪ {[CmdClose]}) ∅ [].

(** [HandleFunc]; [None] is the panic on an unsupported command. *)
Definition HandleFunc (mux : ServeMux) (cmd : Cmd) (handler : Handler) : option ServeMux :=
  if decide (cmd ∈ allowedCommands mux)
  then Some (mkMux (allowedCommands mux) (<[cmd := HandlerFunc handler]> (m mux)) (middleware mux))
  else None.

Definition HandleGetFunc (mux : ServeMux) (h : Handler) := HandleFunc mux CmdGet h.
Definition HandlePutFunc (mux : ServeMux) (h : Handler) := HandleFunc mux CmdPut h.
Definition HandleCloseFunc (mux : ServeMux) (h : Handler) := HandleFunc mux CmdClose h.

Definition Use (mux : ServeMux) (mws : list Middleware) : ServeMux :=
  mkMux (allowedCommands mux) (m mux) (middleware mux ++ mws).

(** [for i := range len(middleware) { h = middleware[(len(middleware)-1)-i](h) }] *)
Definition Apply (h : Handler) (mws : list Middleware) : Handler :=
  fold_left
    (λ h i, match mws !! (length mws - 1 - i)%nat with
            | Some mw => mw h
            | None => h
            end)
    (seq 0 (length mws)) h.

(** [slices.Collect(maps.Keys(mux.m))]: the keys, each once, in the order
    the map happens to be walked. *)
Definition knownCommands (mux : ServeMux) : list Cmd := (map_to_list (m mux)).*1.

(** ** The server *)

Definition second : Z := 1000000000.
Definition defaultTimeout : Z := 30 * second.
Definition defaultConcurrency : nat := 8.

(** The configuration part of the [server] struct: [timeout] and the
    capacity of the channel [sem].  The decoder, the writer, the contents
    of [sem] and the counter of [wg] change while serving and live in
    [State] below. *)
Record server := mkServer {
  timeout : Z;
  sem_cap : nat
}.

Definition serverOption := server → server.

Definition WithConcurrency (concurrency : nat) : serverOption :=
  λ s, mkServer (timeout s) concurrency.

Definition WithResponseTimeout (d : Z) : serverOption :=
  λ s, mkServer d (sem_cap s).

(** The server that [Serve(opts...)] builds before it calls [serve]. *)
Definition newServer (opts : list serverOption) : server :=
  fold_left (λ s opt, opt s) opts (mkServer defaultTimeout defaultConcurrency).

(** Who called [WriteResponse]; kept next to every written Response so
    that statements can tell the writers apart.  The bytes on stdout are
    the second components. *)
Inductive Src :=
| FromAck              (* server.ack *)
| FromLoop             (* the read loop itself: put body failure, unknown command *)
| FromClose            (* handleRequest for close, on the dispatcher *)
| FromTask (i : nat).  (* the i-th goroutine started by asyncHandleRequest *)

(** Where a goroutine of [asyncHandleRequest] stands. *)
Inductive Phase :=
| Waiting                        (* blocked in the select *)
| Handling (todo : list Effect)  (* send on sem done; handleRequest still has [todo] to do;
                                    with [todo = []] it has returned and the deferred
                                    receive from sem is next *)
| Exiting                        (* deferred cancel() and wg.Done() are next *)
| Finished.

Record Task := mkTask {
  t_ctx : Ctx;
  t_req : Request.t;
  t_launched : Z;     (* clock value when the goroutine was started; bookkeeping only *)
  t_phase : Phase
}.

Definition set_phase (p : Phase) (t : Task) : Task :=
  mkTask (t_ctx t) (t_req t) (t_launched t) p.

(** Where the dispatcher ([serve]) stands. *)
Inductive PC :=
| PAck                                     (* before s.ack() *)
| PLoop                                    (* top of the for loop *)
| PDecode (ctx : Ctx)                      (* in s.decoder.Decode(&req) *)
| PBody (ctx : Ctx) (req : Request.t)      (* case CmdPut: in s.decodePutBody(req) *)
| PWaitErr (err : string)                  (* decode failed: in s.wg.Wait() *)
| PWaitClose (ctx : Ctx) (req : Request.t) (* case CmdClose: in s.wg.Wait() *)
| PClose (todo : list Effect)              (* in s.handleRequest(ctx, req) for close *)
| PReturn (err : option string)            (* serve has returned *)
| PPanic.                                  (* the process died of a run-time panic *)

Record State := mkState {
  now : Z;
  decoder : Decoder;
  out : list (Src * Response.t);
  logs : list string;
  sem : nat;
  wg : nat;
  tasks : list Task;
  pc : PC
}.

Definition set_now v st := mkState v (decoder st) (out st) (logs st) (sem st) (wg st) (tasks st) (pc st).
Definition set_decoder v st := mkState (now st) v (out st) (logs st) (sem st) (wg st) (tasks st) (pc st).
Definition set_out v st := mkState (now st) (decoder st) v (logs st) (sem st) (wg st) (tasks st) (pc st).
Definition set_logs v st := mkState (now st) (decoder st) (out st) v (sem st) (wg st) (tasks st) (pc st).
Definition set_sem v st := mkState (now st) (decoder st) (out st) (logs st) v (wg st) (tasks st) (pc st).
Definition set_wg v st := mkState (now st) (decoder st) (out st) (logs st) (sem st) v (tasks st) (pc st).
Definition set_tasks v st := mkState (now st) (decoder st) (out st) (logs st) (sem st) (wg st) v (pc st).
Definition set_pc v st := mkState (now st) (decoder st) (out st) (logs st) (sem st) (wg st) (tasks st) v.

Definition init (d : Decoder) : State := mkState 0 d [] [] 0 0 [] PAck.

(** [s.writer.WriteResponse(res)] *)
Definition WriteResponse (src : Src) (res : Response.t) (st : State) : State :=
  set_out (out st ++ [(src, res)]) st.

(** The writer as a handler sees it. *)
Definition writer : ResponseWriter := λ res, [EWrite res].

Definition perform (src : Src) (e : Effect) (st : State) : State :=
  match e with
  | EWrite res => WriteResponse src res st
  | ELog line => set_logs (logs st ++ [line]) st
  end.

(** [decodePutBody]: the error if any, the request with its Body set, and
    the decoder afterwards. *)
Definition decodePutBody (req : Request.t) (d : Decoder)
  : option string * Request.t * Decoder :=
  if decide (Request.BodySize req = 0)
  then (None, Request.withBody req EmptyReader, d)
  else match decodeString d with
       | (DecOk base64Body, d') => (None, Request.withBody req (Base64Reader base64Body), d')
       | (DecErr err, d') => (Some ("error: failed to decode body: " +:+ err), req, d')
       end.

Inductive Label :=
| Tick               (* one unit of time passes *)
| Main               (* the dispatcher does its next action *)
| Acquire (i : nat)  (* goroutine i: the case [s.sem <- struct{}{}] of the select *)
| Expire (i : nat)   (* goroutine i: the case [<-ctx.Done()] of the select *)
| Run (i : nat).     (* goroutine i: its next action after the select *)

Definition deadlineExceeded : string := "context deadline exceeded".

(** The Response of the [<-ctx.Done()] case; [ctx.Err()] is the deadline
    error, the only way these contexts end before their goroutine does. *)
Definition canceled_response (r : Request.t) : Response.t :=
  Response.error (Request.ID r) ("context canceled: " +:+ deadlineExceeded).

(** The Response of the default branch of the switch in [serve]. *)
Definition unknown_command_response (req : Request.t) : Response.t :=
  Response.error (Request.ID req) ("error: " +:+ Request.Command req +:+ " is unknown command").

(** The Response of the read loop to a put whose body cannot be decoded. *)
Definition body_error_response (req : Request.t) (err : string) : Response.t :=
  Response.error (Request.ID req) ("error: failed to decode request body: " +:+ err).

(** The error [serve] returns when [Decode] fails with [err]. *)
Definition invalid_request (err : string) : string := "error: invalid request: " +:+ err.

Definition crashed (p : PC) : bool :=
  match p with PPanic => true | _ => false end.

Definition at_release (t : Task) : bool :=
  match t_phase t with Handling [] => true | _ => false end.

Section Serve.
Variable s : server.
Variable mux : ServeMux.

Definition ack_response : Response.t :=
  Response.mk 0 "" (knownCommands mux) false [] 0 None "".

(** [handleRequest], as the effects it has. *)
Definition handleRequest (ctx : Ctx) (r : Request.t) : list Effect :=
  match m mux !! Request.Command r with
  | None =>
      writer (Response.error (Request.ID r)
                ("error: unknown command: " +:+ Request.Command r))
  | Some h => Apply h (middleware mux) ctx writer r
  end.

(** [asyncHandleRequest]: [s.wg.Add(1)] and the [go] statement. *)
Definition asyncHandleRequest (ctx : Ctx) (req : Request.t) (st : State) : State :=
  set_tasks (tasks st ++ [mkTask ctx req (now st) Waiting]) (set_wg (S (wg st)) st).

(** One action of [serve]; [None] when it is blocked or has returned. *)
Definition serve_step (st : State) : option State :=
  match pc st with
  | PAck => Some (set_pc PLoop (WriteResponse FromAck ack_response st))
  | PLoop => Some (set_pc (PDecode (WithTimeout (now st) (timeout s))) st)
  | PDecode ctx =>
      match decodeRequest (decoder st) with
      | (DecErr err, d) => Some (set_pc (PWaitErr err) (set_decoder d st))
      | (DecOk None, d) => Some (set_pc PPanic (set_decoder d st))
      | (DecOk (Some req), d) =>
          let st := set_decoder d st in
          if decide (Request.Command req = CmdGet)
          then Some (set_pc PLoop (asyncHandleRequest ctx req st))
          else if decide (Request.Command req = CmdPut)
          then Some (set_pc (PBody ctx req) st)
          else if decide (Request.Command req = CmdClose)
          then Some (set_pc (PWaitClose ctx req) st)
          else Some (set_pc PLoop
                 (WriteResponse FromLoop (unknown_command_response req) st))
      end
  | PBody ctx req =>
      match decodePutBody req (decoder st) with
      | (Some err, _, d) =>
          Some (set_pc PLoop
                 (WriteResponse FromLoop (body_error_response req err) (set_decoder d st)))
      | (None, req', d) =>
          Some (set_pc PLoop (asyncHandleRequest ctx req' (set_decoder d st)))
      end
  | PWaitErr err =>
      match wg st with
      | O => Some (set_pc (PReturn (Some (invalid_request err))) st)
      | S _ => None
      end
  | PWaitClose ctx req =>
      match wg st with
      | O => Some (set_pc (PClose (handleRequest ctx req)) st)
      | S _ => None
      end
  | PClose (e :: todo) => Some (set_pc (PClose todo) (perform FromClose e st))
  | PClose [] => Some (set_pc (PReturn None) st)
  | PReturn _ => None
  | PPanic => None
  end.

(** The select of goroutine [i] takes the send on [sem]: there is room
    in the buffer, or (capacity reached and buffer empty, so an
    unbuffered channel) a goroutine blocked in the deferred receive
    takes the value over directly. *)
Definition acquire (i : nat) (st : State) : option State :=
  match tasks st !! i with
  | Some t =>
      match t_phase t with
      | Waiting =>
          let t' := set_phase (Handling (handleRequest (t_ctx t) (t_req t))) t in
          if (sem st <? sem_cap s)%nat
          then Some (set_tasks (<[i := t']> (tasks st)) (set_sem (S (sem st)) st))
          else
            match sem st, list_find (λ t, at_release t = true) (tasks st) with
            | O, Some (j, r) =>
                Some (set_tasks (<[i := t']> (<[j := set_phase Exiting r]> (tasks st))) st)
            | _, _ => None
            end
      | _ => None
      end
  | None => None
  end.

(** The select of goroutine [i] takes [<-ctx.Done()]. *)
Definition expire (i : nat) (st : State) : option State :=
  match tasks st !! i with
  | Some t =>
      match t_phase t with
      | Waiting =>
          if expired (t_ctx t) (now st)
          then Some (set_tasks (<[i := set_phase Exiting t]> (tasks st))
                 (WriteResponse (FromTask i) (canceled_response (t_req t)) st))
          else None
      | _ => None
      end
  | None => None
  end.

(** Goroutine [i] after the select: the handler's next effect, then the
    deferred calls in reverse order of their defer statements. *)
Definition run_task (i : nat) (st : State) : option State :=
  match tasks st !! i with
  | Some t =>
      match t_phase t with
      | Handling (e :: todo) =>
          Some (set_tasks (<[i := set_phase (Handling todo) t]> (tasks st))
                  (perform (FromTask i) e st))
      | Handling [] =>
          match sem st with
          | S n => Some (set_tasks (<[i := set_phase Exiting t]> (tasks st)) (set_sem n st))
          | O => None
          end
      | Exiting =>
          match wg st with
          | S n => Some (set_tasks (<[i := set_phase Finished t]> (tasks st)) (set_wg n st))
          | O => Some (set_pc PPanic st)
          end
      | Waiting | Finished => None
      end
  | None => None
  end.

(** Nothing runs in a process that has died. *)
Definition step (l : Label) (st : State) : option State :=
  if crashed (pc st) then None
  else match l with
       | Tick => Some (set_now (now st + 1) st)
       | Main => serve_step st
       | Acquire i => acquire i st
       | Expire i => expire i st
       | Run i => run_task i st
       end.

Fixpoint run (sched : list Label) (st : State) : option State :=
  match sched with
  | [] => Some st
  | l :: sched' =>
      match step l st with
      | Some st' => run sched' st'
      | None => None
      end
  end.

(** The states a session that reads [d] can be in. *)
Definition reachable (d : Decoder) (st : State) : Prop :=
  ∃ sched, run sched (init d) = Some st.

End Serve.

(** ** Notions used in the statements *)

(** The Responses among a list of effects, in order. *)
Definition writes_of (effs : list Effect) : list Response.t :=
  flat_map (λ e, match e with EWrite res => [res] | ELog _ => [] end) effs.

Definition from_task (i : nat) (e : Src * Response.t) : bool :=
  match e.1 with FromTask j => Nat.eqb i j | _ => false end.
Definition from_any_task (e : Src * Response.t) : bool :=
  match e.1 with FromTask _ => true | _ => false end.
Definition from_close (e : Src * Response.t) : bool :=
  match e.1 with FromClose => true | _ => false end.

(** What goroutine [i] has written so far. *)
Definition written_by (i : nat) (o : list (Src * Response.t)) : list Response.t :=
  map snd (List.filter (from_task i) o).

Definition finished (t : Task) : bool :=
  match t_phase t with Finished => true | _ => false end.
Definition unfinished (t : Task) : bool := negb (finished t).
Definition holding (t : Task) : bool :=
  match t_phase t with Handling _ => true | _ => false end.
Definition count (f : Task → bool) (l : list Task) : nat :=
  length (List.filter f l).

(** [serve] is past [wg.Wait()] on the close path. *)
Definition closing (p : PC) : bool :=
  match p with PClose _ | PReturn None => true | _ => false end.

(** [serve] is past one of its two [wg.Wait()] calls. *)
Definition drained (p : PC) : bool :=
  match p with PClose _ | PReturn _ => true | _ => false end.

Definition all_finished (st : State) : Prop :=
  ∀ i t, tasks st !! i = Some t → t_phase t = Finished.

Definition no_close (o : list (Src * Response.t)) : Prop :=
  Forall (λ e, from_close e = false) o.

(** A goroutine without its phase: what never changes after launch. *)
Definition launch_data (t : Task) : Ctx * Request.t * Z :=
  (t_ctx t, t_req t, t_launched t).

(** Only get and put requests are launched. *)
Definition launched_cmd (t : Task) : Prop :=
  Request.Command (t_req t) = CmdGet ∨ Request.Command (t_req t) = CmdPut.

(** The contract of a handler: called with the server's writer it calls
    [WriteResponse] exactly once, with the request's ID. *)
Definition handler_answers_once (h : Handler) : Prop :=
  ∀ ctx r, ∃ res, writes_of (h ctx writer r) = [res] ∧ Response.ID res = Request.ID r.

(** The same for the chains [serve] runs: the chain composed for a
    registered command calls [WriteResponse] exactly once, with the
    request's ID. *)
Definition answers_once (mux : ServeMux) : Prop :=
  ∀ h ctx r, m mux !! Request.Command r = Some h →
    ∃ res, writes_of (Apply h (middleware mux) ctx writer r) = [res]
           ∧ Response.ID res = Request.ID r.

(** ** Invariants of the reachable states *)

(** The wait group counts the goroutines that have not called [Done],
    the channel holds one value per handler invocation under way, and
    [wg.Wait()] was passed with the counter at zero. *)
Definition counters_ok (st : State) : Prop :=
  wg st = count unfinished (tasks st)
  ∧ sem st = count holding (tasks st)
  ∧ (drained (pc st) = true → wg st = 0%nat).

(** The announcement comes first: nothing is written and nothing read
    before it, and afterwards it heads the output. *)
Definition ack_inv (mux : ServeMux) (d : Decoder) (st : State) : Prop :=
  (pc st = PAck ∧ out st = [] ∧ decoder st = d ∧ tasks st = [])
  ∨ (pc st ≠ PAck ∧ ∃ rest, out st = (FromAck, ack_response mux) :: rest).

(** A goroutine and what it has written [w] agree: nothing while it
    waits in the select; while the handler runs, what is written and what
    is left to do make up the effects of [handleRequest]; afterwards it has
    written either all of those (send case) or the cancellation error alone
    ([<-ctx.Done()] case). *)
Definition task_log_ok (mux : ServeMux) (w : list Response.t) (t : Task) : Prop :=
  match t_phase t with
  | Waiting => w = []
  | Handling todo =>
      w ++ writes_of todo = writes_of (handleRequest mux (t_ctx t) (t_req t))
  | Exiting | Finished =>
      w = writes_of (handleRequest mux (t_ctx t) (t_req t))
      ∨ w = [canceled_response (t_req t)]
  end.


(** Every goroutine satisfies [Q] with what it has written, and nothing
    is written in the name of a goroutine not yet started. *)
Definition log_ok (Q : list Response.t → Task → Prop)
    (ts : list Task) (o : list (Src * Response.t)) : Prop :=
  (∀ i t, ts !! i = Some t → Q (written_by i o) t)
  ∧ (∀ i, (length ts ≤ i)%nat → written_by i o = []).

Definition cmds_ok (st : State) : Prop :=
  Forall launched_cmd (tasks st)
  ∧ match pc st with
    | PBody _ req => Request.Command req = CmdPut
    | PWaitClose _ req => Request.Command req = CmdClose
    | _ => True
    end.

(** Goroutine [i] is past its select with [w] written for request [r]. *)
Definition past_select (i : nat) (r : Request.t) (w : list Response.t) (st : State) : Prop :=
  ∃ t, tasks st !! i = Some t ∧ t_req t = r
       ∧ (t_phase t = Exiting ∨ t_phase t = Finished)
       ∧ written_by i (out st) = w.

(** After a failed [Decode]: the dispatcher is waiting or has returned
    the error, the goroutines are the [n] started before, and only they
    have added to the output [o1]. *)
Definition after_decode_error (err : string) (o1 : list (Src * Response.t)) (n : nat)
    (st : State) : Prop :=
  (∃ more, out st = o1 ++ more ∧ Forall (λ e, from_any_task e = true) more)
  ∧ length (tasks st) = n
  ∧ (pc st = PWaitErr err ∨ pc st = PReturn (Some (invalid_request err))).

(** The output and the close handler: before [handleRequest] runs for a
    close nothing in the output comes from it; while it runs and after it
    has returned, the output is what was there before followed by what it
    has written. *)
Definition close_inv (mux : ServeMux) (st : State) : Prop :=
  match pc st with
  | PClose todo =>
      ∃ ctx req pre written,
        Request.Command req = CmdClose
        ∧ out st = pre ++ map (pair FromClose) written
        ∧ no_close pre
        ∧ written ++ writes_of todo = writes_of (handleRequest mux ctx req)
  | PReturn None =>
      ∃ ctx req pre,
        Request.Command req = CmdClose
        ∧ out st = pre ++ map (pair FromClose) (writes_of (handleRequest mux ctx req))
        ∧ no_close pre
  | PWaitClose ctx req => Request.Command req = CmdClose ∧ no_close (out st)
  | _ => no_close (out st)
  end.

(** Deadlines as the code sets them: the context of the current loop
    iteration was made no later than now, and the context of a goroutine
    no later than its launch. *)
Definition deadlines_ok (s : server) (st : State) : Prop :=
  Forall (λ t, deadline (t_ctx t) ≤ t_launched t + timeout s ∧ t_launched t ≤ now st) (tasks st)
  ∧ match pc st with
    | PDecode ctx | PBody ctx _ | PWaitClose ctx _ => deadline ctx ≤ now st + timeout s
    | _ => True
    end.

(** ** Readings of the specification that the code does not follow *)

(** The reading of the body framing under which [decodePutBody] would
    refuse a body shorter than [BodySize]. *)
Definition body_size_checked (req : Request.t) (d : Decoder) : Prop :=
  ∀ src d', 0 < Request.BodySize req → d = MString src :: d' →
    Z.of_nat (length (base64_decode src).1) < Request.BodySize req →
    ∃ err, (decodePutBody req d).1.1 = Some err.

(** The reading of the timeout under which its clock starts at launch. *)
Definition deadline_from_launch (s : server) (st : State) : Prop :=
  ∀ t, t ∈ tasks st → deadline (t_ctx t) = t_launched t + timeout s.

(** The reading of the race under which a deadline that has passed while
    an operation waits in its select keeps the handler from ever being
    invoked for it. *)
Definition timeout_excludes_handler (s : server) (mux : ServeMux) (st : State) : Prop :=
  ∀ i t, tasks st !! i = Some t → t_phase t = Waiting →
    expired (t_ctx t) (now st) = true →
    ∀ sched st' t', run s mux sched st = Some st' → tasks st' !! i = Some t' →
      holding t' = false.

(** The reading under which a token taken always means the composed
    chain of a registered handler runs. *)
Definition token_runs_chain (s : server) (mux : ServeMux) (st : State) : Prop :=
  ∀ i t st', tasks st !! i = Some t → step s mux (Acquire i) st = Some st' →
    ∃ h, m mux !! Request.Command (t_req t) = Some h
         ∧ tasks st' !! i
           = Some (set_phase (Handling (Apply h (middleware mux) (t_ctx t) writer (t_req t))) t).




(** ** A middleware shape, sample registries and sample sessions *)

(** A middleware of the usual shape: effects, then [next.Handle], then
    effects again. *)
Definition around (before after : Request.t → list Effect) : Middleware :=
  λ next ctx w r, before r ++ next ctx w r ++ after r.

Definition sample_request (id : Z) (c : Cmd) (size : Z) : Request.t :=
  Request.mk id c [] [] NilReader size [].

(** A get handler that always misses, a handler that acknowledges. *)
Definition miss_handler : Handler :=
  λ _ w r, w (Response.mk (Request.ID r) "" [] true [] 0 None "").
Definition ok_handler : Handler :=
  λ _ w r, w (Response.mk (Request.ID r) "" [] false [] 0 None "").

Definition sample_mux : ServeMux :=
  mkMux (allowedCommands serveMux)
    (<[CmdClose := ok_handler]> (<[CmdPut := ok_handler]> (<[CmdGet := miss_handler]> ∅))) [].

(** A registry with a get handler only. *)
Definition get_only_mux : ServeMux :=
  mkMux (allowedCommands serveMux) (<[CmdGet := miss_handler]> ∅) [].

(** A dispatcher about to decode, for running single steps. *)
Definition at_decode (ctx : Ctx) (d : Decoder) : State :=
  mkState 0 d [] [] 0 0 [] (PDecode ctx).

(** Sample inbound streams. *)
Definition scenario_1 : Decoder := [MRequest (sample_request 1 CmdGet 0)].


Definition scenario_3 : Decoder :=
  [MRequest (sample_request 1 CmdGet 0); MRequest (sample_request 2 CmdGet 0);
   MRequest (sample_request 3 CmdClose 0)].

Definition scenario_3_schedule : list Label :=
  [Main; Main; Main; Main; Main; Main; Main; Acquire 1; Run 1; Acquire 0; Run 0; Run 0;
   Run 1; Run 0; Run 1; Main; Main; Main].

Definition scenario_5 : Decoder := [MRequest (sample_request 2 "frobnicate" 0)].

Definition scenario_put : Decoder :=
  [MRequest (sample_request 2 CmdPut 0)].


(** ** Further notions: the whole session *)

(** [st'] continues [st]: the output and the list of goroutines have
    only grown, the inbound stream has only been consumed from its front,
    the clock has not gone back. *)
Definition continues (st st' : State) : Prop :=
  (∃ more, out st' = out st ++ more)
  ∧ (∃ consumed, decoder st = consumed ++ decoder st')
  ∧ (∃ launched, map launch_data (tasks st') = map launch_data (tasks st) ++ launched)
  ∧ now st ≤ now st'.

(** [serve] has returned or the process has died. *)
Definition ended (p : PC) : bool :=
  match p with PReturn _ | PPanic => true | _ => false end.

(** How far the read loop is from the end of the inbound stream: three
    per message still to come, plus what is left of the current turn of
    the loop. *)
Definition loop_measure (st : State) : nat :=
  (3 * length (decoder st)
   + match pc st with PBody _ _ => 3 | PLoop => 2 | PDecode _ => 1 | _ => 0 end)%nat.

(** [id] is the ID of a Request that is on the inbound stream [d]. *)
Definition id_from (d : Decoder) (id : Z) : Prop :=
  ∃ r, MRequest r ∈ d ∧ Request.ID r = id.

(** Where the IDs in a session come from: what has been launched, what
    the dispatcher holds and what was written outside the goroutines
    carries the ID of a Request of the inbound stream [d]; what is
    written by [ack] is the announcement. *)
Definition ids_ok (mux : ServeMux) (d : Decoder) (st : State) : Prop :=
  (∃ c, d = c ++ decoder st)
  ∧ Forall (λ t, id_from d (Request.ID (t_req t))) (tasks st)
  ∧ Forall (λ e, match e.1 with
                 | FromAck => e.2 = ack_response mux
                 | FromTask _ => True
                 | _ => id_from d (Response.ID e.2)
                 end) (out st)
  ∧ match pc st with
    | PBody _ req | PWaitClose _ req => id_from d (Request.ID req)
    | PClose todo => Forall (λ res, id_from d (Response.ID res)) (writes_of todo)
    | _ => True
    end.

(** ** Further notions: registration and the writer *)

(** The calls a program makes on the registry before it calls [Serve]. *)
Inductive Registration :=
| RegHandle (cmd : Cmd) (handler : Handler)   (* mux.HandleFunc(cmd, handler) *)
| RegUse (mws : list Middleware).             (* mux.Use(mws...) *)

Definition register (mux : ServeMux) (r : Registration) : option ServeMux :=
  match r with
  | RegHandle cmd handler => HandleFunc mux cmd handler
  | RegUse mws => Some (Use mux mws)
  end.

(** The calls in program order; [None] when one of them panics. *)
Fixpoint registerAll (mux : ServeMux) (rs : list Registration) : option ServeMux :=
  match rs with
  | [] => Some mux
  | r :: rs' =>
      match register mux r with
      | Some mux' => registerAll mux' rs'
      | None => None
      end
  end.

(** The handler the last [RegHandle] for [cmd] in [rs] names, [start] if
    there is none. *)
Definition last_handler (cmd : Cmd) (rs : list Registration) (start : option Handler)
  : option Handler :=
  fold_left (λ acc r, match r with
                      | RegHandle c h => if decide (c = cmd) then Some h else acc
                      | RegUse _ => acc
                      end) rs start.

Definition used (rs : list Registration) : list Middleware :=
  flat_map (λ r, match r with RegUse mws => mws | RegHandle _ _ => [] end) rs.

Definition supported (cmd : Cmd) : Prop := cmd = CmdGet ∨ cmd = CmdPut ∨ cmd = CmdClose.

(** [defaultWriter.WriteResponse] over an encoder: [Encode res] is
    [None] when the value has been written to stdout and [Some err] when
    the encoder returned [err], in which case nothing of the value is
    taken to have been written.  The result is what reaches stdout and
    what reaches the log. *)
Definition defaultWriter_WriteResponse (Encode : Response.t → option string)
    (res : Response.t) : list Response.t * list string :=
  match Encode res with
  | None => ([res], [])
  | Some err =>
      let fallback :=
        Response.error (Response.ID res) ("error: failed to encode response: " +:+ err) in
      match Encode fallback with
      | None => ([fallback], [])
      | Some err' => ([], ["error: failed to encode response: " +:+ err'])
      end
  end.

(** What reaches stdout for a sequence of [WriteResponse] calls. *)
Definition stdout_of (Encode : Response.t → option string)
    (o : list (Src * Response.t)) : list Response.t :=
  flat_map (λ e, (defaultWriter_WriteResponse Encode e.2).1) o.

(** An encoder that fails on a Response that has a Time and on nothing
    else. *)
Definition no_time_encoder (res : Response.t) : option string :=
  match Response.Time res with
  | Some _ => Some "json: error calling MarshalJSON for type *time.Time"
  | None => None
  end.

(** A dispatcher about to decode the body of a put. *)
Definition at_body (ctx : Ctx) (req : Request.t) (d : Decoder) : State :=
  mkState 0 d [] [] 0 0 [] (PBody ctx req).

(** ** The example program: its logging middleware
       (example/diskcache/middleware.go) *)

From stdpp Require Import pretty.

Local Open Scope Z_scope.

(** What [%d] prints for an integer. *)
Definition dec (z : Z) : string := pretty z.

(** What [%x] prints for a byte slice, which is also what
    [hex.EncodeToString] returns: two lower-case digits per byte. *)
Definition hex_digit (n : N) : ascii :=
  if (n <? 10)%N then ascii_of_N (48 + n) else ascii_of_N (87 + n).
Definition hex_byte (b : Byte.byte) : list ascii :=
  [hex_digit (Byte.to_N b / 16); hex_digit (Byte.to_N b mod 16)].
Definition hex_chars (bs : bytes) : list ascii := flat_map hex_byte bs.
Definition hex_encode (bs : bytes) : string := string_of_list_ascii (hex_chars bs).

(** The line [loggingResponseWriter.WriteResponse] logs for a Response:
    the first case of its switch that applies, none when the command is
    not one of the three. *)
Definition response_line (requestID : Z) (command : Cmd) (res : Response.t)
  : list string :=
  if bool_decide (Response.Err res ≠ "") then
    ["response error for id=" +:+ dec requestID +:+ ": " +:+ Response.Err res]
  else if Response.Miss res then
    ["cache miss for id=" +:+ dec requestID]
  else if bool_decide (command = CmdGet) then
    ["cache hit for id=" +:+ dec requestID +:+ ", size=" +:+ dec (Response.Size res)
     +:+ " bytes"]
  else if bool_decide (command = CmdPut) then
    ["cache saved for id=" +:+ dec requestID +:+ ", diskpath=" +:+ Response.DiskPath res]
  else if bool_decide (command = CmdClose) then
    ["cache closed for id=" +:+ dec requestID]
  else [].

(** [(&loggingResponseWriter{w, requestID, command}).WriteResponse]: the
    line, then the call of the writer it wraps. *)
Definition loggingResponseWriter (w : ResponseWriter) (requestID : Z) (command : Cmd)
  : ResponseWriter :=
  λ res, map ELog (response_line requestID command res) ++ w res.

(** The line logged when a request comes in. *)
Definition received_line (r : Request.t) : string :=
  if bool_decide (Request.Command r = CmdGet) then
    "get request received: id=" +:+ dec (Request.ID r)
    +:+ ", actionID=" +:+ hex_encode (Request.ActionID r)
  else if bool_decide (Request.Command r = CmdPut) then
    "put request received: id=" +:+ dec (Request.ID r)
    +:+ ", actionID=" +:+ hex_encode (Request.ActionID r)
    +:+ ", bodySize=" +:+ dec (Request.BodySize r)
  else if bool_decide (Request.Command r = CmdClose) then
    "close request received: id=" +:+ dec (Request.ID r)
  else
    "unknown command received: id=" +:+ dec (Request.ID r)
    +:+ ", command=" +:+ Request.Command r.

Definition completed_line (r : Request.t) (duration : string) : string :=
  "request id=" +:+ dec (Request.ID r) +:+ " completed in " +:+ duration.

(** [LoggingMiddleware()].  [elapsed ctx r] is what [%v] prints for
    [time.Since(start)] in the call for [r]. *)
Definition LoggingMiddleware (elapsed : Ctx → Request.t → string) : Middleware :=
  λ next, HandlerFunc (λ ctx w r,
    [ELog (received_line r)]
    ++ next ctx (loggingResponseWriter w (Request.ID r) (Request.Command r)) r
    ++ [ELog (completed_line r (elapsed ctx r))]).

(** A handler that uses its writer for nothing but calls of
    [WriteResponse]: what it does is a sequence of such calls and of log
    lines, the same whichever writer it is given. *)
Definition replay (w : ResponseWriter) (script : list Effect) : list Effect :=
  flat_map (λ e, match e with EWrite res => w res | ELog line => [ELog line] end) script.
Definition scripted (script : Ctx → Request.t → list Effect) : Handler :=
  λ ctx w r, replay w (script ctx r).

(** The script of a scripted handler under the logging middleware. *)
Definition logged (elapsed : Ctx → Request.t → string)
    (script : Ctx → Request.t → list Effect) : Ctx → Request.t → list Effect :=
  λ ctx r,
    [ELog (received_line r)]
    ++ flat_map (λ e, match e with
                      | EWrite res =>
                          map ELog (response_line (Request.ID r) (Request.Command r) res)
                          ++ [EWrite res]
                      | ELog line => [ELog line]
                      end) (script ctx r)
    ++ [ELog (completed_line r (elapsed ctx r))].

(** The sample registry with the logging middleware in front, as the
    example's main function registers it. *)
Definition logging_mux : ServeMux :=
  Use sample_mux [LoggingMiddleware (λ _ _, "1ms")].

(** ** The example program: the disk cache
       (example/diskcache/handler.go)

    The handler keeps, under [cacheDir], one file per object, named
    after the OutputID, and one file per action, named after the
    ActionID, which records the OutputID, the size and the time of the
    put.  The file system is taken as the set of directories files can be
    created in and the contents of the regular files; of the errors of
    the operating system only a missing file and a missing directory are
    represented.  A call of a handler is taken as a whole: calls that
    overlap in time are not covered.  [cacheDir] is a clean path, as
    [filepath.Join] returns it. *)

Definition actionFileSuffix : string := "-a".
Definition objectFileSuffix : string := "-d".

(** [filepath.Join] of clean elements: the non-empty ones with a
    separator between them. *)
Definition filepath_Join (elem : list string) : string :=
  String.concat "/" (filter (λ e, e ≠ "") elem).

Definition is_separator (c : ascii) : bool := (N_of_ascii c =? 47)%N.

(** What a joined path starts with when its first element is [dir] and
    more follow. *)
Definition Join_front (dir : string) : list ascii :=
  if decide (dir = "") then [] else list_ascii_of_string dir ++ ["/"%char].

Fixpoint before_last_separator (l : list ascii) : option (list ascii) :=
  match l with
  | [] => None
  | c :: l' =>
      match before_last_separator l' with
      | Some d => Some (c :: d)
      | None => if is_separator c then Some [] else None
      end
  end.

(** [filepath.Dir] of a clean path: what stands before the last
    separator. *)
Definition filepath_Dir (path : string) : string :=
  match before_last_separator (list_ascii_of_string path) with
  | None => "."
  | Some [] => "/"
  | Some d => string_of_list_ascii d
  end.

(** [s[:2]]; [None] is the panic when [s] is shorter. *)
Definition slice2 (s : string) : option string :=
  if decide (2 ≤ String.length s)%nat then Some (substring 0 2 s) else None.

(** [hex.DecodeString]; [None] when it returns an error. *)
Definition fromHexChar (c : ascii) : option N :=
  let n := N_of_ascii c in
  if ((48 <=? n) && (n <=? 57))%N then Some (n - 48)%N
  else if ((97 <=? n) && (n <=? 102))%N then Some (n - 87)%N
  else if ((65 <=? n) && (n <=? 70))%N then Some (n - 55)%N
  else None.

Fixpoint hex_decode_chars (l : list ascii) : option bytes :=
  match l with
  | [] => Some []
  | a :: b :: rest =>
      match fromHexChar a, fromHexChar b with
      | Some x, Some y =>
          match hex_decode_chars rest with
          | Some bs => Some (byte_of_N (16 * x + y) :: bs)
          | None => None
          end
      | _, _ => None
      end
  | [_] => None
  end.

Definition hex_decode (s : string) : option bytes :=
  hex_decode_chars (list_ascii_of_string s).

(** *** The scanner of package fmt, as far as ["%s %d %d"] needs it

    The input is taken byte by byte, which is what the scanner sees of an
    ASCII file such as [HandlePut] writes; of the characters the scanner
    takes for space those outside ASCII are not represented. *)

Definition isSpace (c : ascii) : bool :=
  let n := N_of_ascii c in ((9 <=? n) && (n <=? 13) || (n =? 32))%N.
Definition is_nl (c : ascii) : bool := (N_of_ascii c =? 10)%N.
Definition is_sign (c : ascii) : bool :=
  ((N_of_ascii c =? 43) || (N_of_ascii c =? 45))%N.
Definition is_digit (c : ascii) : bool :=
  let n := N_of_ascii c in ((48 <=? n) && (n <=? 57))%N.
Definition is_underscore (c : ascii) : bool := (N_of_ascii c =? 95)%N.

(** The longest prefix of characters that satisfy [f], and the rest. *)
Fixpoint span (f : ascii → bool) (l : list ascii) : list ascii * list ascii :=
  match l with
  | c :: l' => if f c then let '(a, b) := span f l' in (c :: a, b) else ([], l)
  | [] => ([], [])
  end.

(** [ss.SkipSpace] for [Fscanf]: a line break is an error. *)
Fixpoint SkipSpace (l : list ascii) : option (list ascii) :=
  match l with
  | [] => Some []
  | c :: l' => if is_nl c then None else if isSpace c then SkipSpace l' else Some l
  end.

(** The verb [%s]: the next word; the end of the input is an error. *)
Definition scan_word (l : list ascii) : option (list ascii * list ascii) :=
  l ← SkipSpace l;
  if decide (l = []) then None else Some (span (λ c, negb (isSpace c)) l).

(** A space in the format: at least one space, or the end of the input. *)
Definition scan_blank (l : list ascii) : option (list ascii) :=
  match l with
  | [] => Some []
  | c :: l' =>
      if is_nl c then None
      else if isSpace c then Some (span (λ c, isSpace c && negb (is_nl c)) l').2
      else None
  end.

Definition digits_value (ds : list ascii) : Z :=
  fold_left (λ acc c, 10 * acc + (Z.of_N (N_of_ascii c) - 48)) ds 0.

(** [strconv.ParseInt(tok, 10, 64)] for a token of an optional sign and
    characters that are digits or underscores. *)
Definition ParseInt (negative : bool) (ds : list ascii) : option Z :=
  if forallb is_digit ds then
    let v := if negative then - digits_value ds else digits_value ds in
    if decide (- 2 ^ 63 ≤ v < 2 ^ 63) then Some v else None
  else None.

(** The verb [%d] for an int64. *)
Definition scan_int (l : list ascii) : option (Z * list ascii) :=
  l ← SkipSpace l;
  match l with
  | [] => None
  | c :: l' =>
      let l1 := if is_sign c then l' else l in
      let '(ds, rest) := span (λ c, is_digit c || is_underscore c) l1 in
      if decide (ds = []) then None
      else v ← ParseInt (is_sign c && (N_of_ascii c =? 45)%N) ds; Some (v, rest)
  end.

(** [fmt.Fscanf(actionFile, "%s %d %d", &hexOutputID, &fileSize, &timestampUnix)];
    [None] when it returns an error. *)
Definition Fscanf_action (content : bytes) : option (string * Z * Z) :=
  '(word, l) ← scan_word (map ascii_of_byte content);
  l ← scan_blank l;
  '(fileSize, l) ← scan_int l;
  l ← scan_blank l;
  '(timestampUnix, _) ← scan_int l;
  Some (string_of_list_ascii word, fileSize, timestampUnix).

(** [fmt.Fprintf(actionFile, "%x %d %d", outputID, size, now)] *)
Definition Fprintf_action (outputID : bytes) (size now : Z) : bytes :=
  list_byte_of_string (hex_encode outputID +:+ " " +:+ dec size +:+ " " +:+ dec now).

(** *** The file system *)

Record Disk := mkDisk {
  dirs : gset string;       (* the directories *)
  files : gmap string bytes (* the regular files and what they hold *)
}.

Definition os_MkdirAll (path : string) (fs : Disk) : Disk :=
  mkDisk ({[path]} ∪ dirs fs) (files fs).

(** [os.Create]: the file is created or truncated; [None] when its
    directory is missing. *)
Definition os_Create (path : string) (fs : Disk) : option Disk :=
  if decide (filepath_Dir path ∈ dirs fs)
  then Some (mkDisk (dirs fs) (<[path := []]> (files fs)))
  else None.

(** Writing to a file that is open for writing appends to what has been
    written to it. *)
Definition File_Write (path : string) (content : bytes) (fs : Disk) : Disk :=
  mkDisk (dirs fs) (<[path := default [] (files fs !! path) ++ content]> (files fs)).

Definition os_Remove (path : string) (fs : Disk) : Disk :=
  mkDisk (dirs fs) (delete path (files fs)).

Definition no_such_file (op path : string) : string :=
  op +:+ " " +:+ path +:+ ": no such file or directory".

(** The errors of the libraries whose text is not spelled out. *)
Inductive LibError :=
| ScanError (content : bytes)   (* of Fscanf on an action file *)
| HexError (s : string)         (* of hex.DecodeString *)
| ReadError (body : Reader).    (* of reading the body *)

(** What a call of a handler comes to. *)
Inductive Outcome :=
| Responds (res : Response.t)   (* one call of WriteResponse, then return *)
| Panics.

Definition miss_response (id : Z) : Response.t :=
  Response.mk id "" [] true [] 0 None "".

Section DiskCache.
Variable cacheDir : string.
(** [err.Error()] *)
Variable Error : LibError → string.

Definition getObjectPath (objectID : bytes) : option string :=
  let hexID := hex_encode objectID in
  prefix ← slice2 hexID;
  Some (filepath_Join [cacheDir; prefix; hexID +:+ objectFileSuffix]).

Definition getActionPath (actionID : bytes) : option string :=
  let hexID := hex_encode actionID in
  prefix ← slice2 hexID;
  Some (filepath_Join [cacheDir; prefix; hexID +:+ actionFileSuffix]).

(** The 256 subdirectories, in the order of the two loops. *)
Definition subdirs : list string :=
  i ← seq 0 16; j ← seq 0 16;
  [filepath_Join [cacheDir;
                  string_of_list_ascii [hex_digit (N.of_nat i); hex_digit (N.of_nat j)]]].

(** The directories are made in the order of the loops; the line
    logged at the end is left out. *)
Definition initializeCache (fs : Disk) : Disk :=
  fold_left (λ fs subdir, os_MkdirAll subdir fs) subdirs (os_MkdirAll cacheDir fs).

Definition HandleGet (fs : Disk) (r : Request.t) : Outcome :=
  match getActionPath (Request.ActionID r) with
  | None => Panics
  | Some actionPath =>
    match files fs !! actionPath with
    | None => Responds (miss_response (Request.ID r))
    | Some content =>
      match Fscanf_action content with
      | None =>
          Responds (Response.error (Request.ID r)
                      ("failed to parse action file: " +:+ Error (ScanError content)))
      | Some (hexOutputID, fileSize, timestampUnix) =>
        match hex_decode hexOutputID with
        | None =>
            Responds (Response.error (Request.ID r)
                        ("failed to decode output ID: " +:+ Error (HexError hexOutputID)))
        | Some outputID =>
          match getObjectPath outputID with
          | None => Panics
          | Some objectPath =>
            match files fs !! objectPath with
            | None => Responds (miss_response (Request.ID r))
            | Some object =>
                if decide (Z.of_nat (length object) = fileSize)
                then Responds (Response.mk (Request.ID r) "" [] false outputID fileSize
                                 (Some timestampUnix) objectPath)
                else Responds (miss_response (Request.ID r))
            end
          end
        end
      end
    end
  end.

(** [now] is [time.Now().Unix()] at the time of the call.  [io.Copy]
    writes to the object file what can be read of the body, and panics on
    a nil reader as [io.ReadAll] does. *)
Definition HandlePut (now : Z) (fs : Disk) (r : Request.t) : Disk * Outcome :=
  let outputID := Request.OutputID r in
  match getObjectPath outputID with
  | None => (fs, Panics)
  | Some objectPath =>
    let fs := os_MkdirAll (filepath_Dir objectPath) fs in
    match os_Create objectPath fs with
    | None =>
        (fs, Responds (Response.error (Request.ID r)
                         ("failed to create object file: " +:+ no_such_file "open" objectPath)))
    | Some fs =>
      match readAll (Request.Body r) with
      | None => (fs, Panics)
      | Some (content, ok) =>
        let fs := File_Write objectPath content fs in
        if ok then
          match getActionPath (Request.ActionID r) with
          | None => (fs, Panics)
          | Some actionPath =>
            match os_Create actionPath fs with
            | None =>
                (os_Remove objectPath fs,
                 Responds (Response.error (Request.ID r)
                             ("failed to create action file: "
                              +:+ no_such_file "open" actionPath)))
            | Some fs =>
                (File_Write actionPath
                   (Fprintf_action outputID (Z.of_nat (length content)) now) fs,
                 Responds (Response.mk (Request.ID r) "" [] false [] 0 None objectPath))
            end
          end
        else
          (os_Remove objectPath fs,
           Responds (Response.error (Request.ID r)
                       ("failed to write object file: " +:+ Error (ReadError (Request.Body r)))))
      end
    end
  end.

(** The OutputID the action file of [actionID] names, when there is
    such a file and [HandleGet] can read it. *)
Definition recorded_output (fs : Disk) (actionID : bytes) : option bytes :=
  actionPath ← getActionPath actionID;
  content ← files fs !! actionPath;
  '(hexOutputID, _, _) ← Fscanf_action content;
  hex_decode hexOutputID.

Definition HandleClose (r : Request.t) : Outcome :=
  Responds (Response.mk (Request.ID r) "" [] false [] 0 None "").

End DiskCache.

(** A put of four bytes under a two-byte action and a two-byte output,
    and a cache directory as [initializeCache] leaves it. *)
Definition sample_put : Request.t :=
  Request.mk 7 CmdPut [Byte.xab; Byte.xcd] [Byte.x01; Byte.xef]
    (Base64Reader "AAECAw==") 4 [].
Definition sample_get : Request.t :=
  Request.mk 8 CmdGet [Byte.xab; Byte.xcd] [] NilReader 0 [].
Definition fresh_disk : Disk := initializeCache "/tmp/cacheprog" (mkDisk ∅ ∅).
Definition no_text : LibError → string := λ _, "".
Definition stored_disk : Disk :=
  (HandlePut "/tmp/cacheprog" no_text 1700000000 fresh_disk sample_put).1.
(** A put of the same output under another action, with a body that is
    not base64. *)
Definition bad_put : Request.t :=
  Request.mk 9 CmdPut [Byte.x11; Byte.x22] [Byte.x01; Byte.xef]
    (Base64Reader "A") 1 [].

(** ** The options of [Serve] *)

(** The option values a program can pass to [Serve]. *)
Inductive OptionCall :=
| CallWithConcurrency (concurrency : nat)   (* WithConcurrency(concurrency) *)
| CallWithResponseTimeout (d : Z).          (* WithResponseTimeout(d) *)

Definition option_of (c : OptionCall) : serverOption :=
  match c with
  | CallWithConcurrency concurrency => WithConcurrency concurrency
  | CallWithResponseTimeout d => WithResponseTimeout d
  end.

Definition concurrencies (calls : list OptionCall) : list nat :=
  omap (λ c, match c with CallWithConcurrency n => Some n | _ => None end) calls.
Definition timeouts (calls : list OptionCall) : list Z :=
  omap (λ c, match c with CallWithResponseTimeout d => Some d | _ => None end) calls.
(** ** The middleware chain *)

Lemma fold_left_ext_in {A B} (f g : A → B → A) (l : list B) (a : A) :
  (∀ x b, b ∈ l → f x b = g x b) → fold_left f l a = fold_left g l a.
Proof.
  revert a. induction l as [|b l IH]; intros a Hfg; [done|].
  simpl. rewrite Hfg by constructor. apply IH. intros x b' Hb'. apply Hfg. by constructor.
Qed.

Lemma Apply_nil (h : Handler) : Apply h [] = h.
Proof. reflexivity. Qed.

Lemma Apply_cons (h : Handler) (mw : Middleware) (mws : list Middleware) :
  Apply h (mw :: mws) = mw (Apply h mws).
Proof.
  unfold Apply. cbn [length]. rewrite seq_S, fold_left_app. cbn [fold_left Nat.add].
  replace (S (length mws) - 1 - length mws)%nat with 0%nat by lia. cbn [lookup list_lookup].
  f_equal. apply fold_left_ext_in. intros x i Hi.
  apply elem_of_seq in Hi.
  replace (S (length mws) - 1 - i)%nat with (S (length mws - 1 - i)) by lia.
  reflexivity.
Qed.

Lemma Apply_foldr (h : Handler) (mws : list Middleware) :
  Apply h mws = foldr (λ mw k, mw k) h mws.
Proof.
  induction mws as [|mw mws IH]; [apply Apply_nil|].
  rewrite Apply_cons, IH. reflexivity.
Qed.

Lemma Use_batches (mux : ServeMux) (batches : list (list Middleware)) :
  middleware (fold_left Use batches mux) = middleware mux ++ concat batches.
Proof.
  revert mux. induction batches as [|b bs IH]; intros mux; simpl.
  - by rewrite app_nil_r.
  - rewrite IH. simpl. by rewrite <- app_assoc.
Qed.

Lemma Apply_around (h : Handler) (bs : list ((Request.t → list Effect) * (Request.t → list Effect)))
    (ctx : Ctx) (w : ResponseWriter) (r : Request.t) :
  Apply h (map (λ b, around b.1 b.2) bs) ctx w r
  = concat (map (λ b, b.1 r) bs) ++ h ctx w r ++ concat (map (λ b, b.2 r) (rev bs)).
Proof.
  induction bs as [|b bs IH]; simpl.
  - by rewrite app_nil_r.
  - rewrite Apply_cons. unfold around at 1. rewrite IH.
    rewrite map_app, concat_app. simpl. rewrite app_nil_r.
    by rewrite <- !app_assoc.
Qed.

(** C8. Middleware handed to [Use], in one call or several, accumulates in
    registration order; the handler composed by [Apply] for a handler [h]
    and the list [m1 .. mn] is [m1 (m2 (.. (mn h)))]; so when every
    middleware acts before and after calling the next handler, the effects
    of the first-registered one come first on the way in and last on the
    way out. *)
Theorem Apply_first_registered_outermost :
  (∀ (mux : ServeMux) (batches : list (list Middleware)),
     middleware (fold_left Use batches mux) = middleware mux ++ concat batches)
  ∧ (∀ (h : Handler) (mws : list Middleware),
       Apply h mws = foldr (λ mw k, mw k) h mws)
  ∧ (∀ (h : Handler) (mw : Middleware) (mws : list Middleware),
       Apply h (mw :: mws) = mw (Apply h mws))
  ∧ (∀ (h : Handler) bs (ctx : Ctx) (w : ResponseWriter) (r : Request.t),
       Apply h (map (λ b, around b.1 b.2) bs) ctx w r
       = concat (map (λ b, b.1 r) bs) ++ h ctx w r ++ concat (map (λ b, b.2 r) (rev bs))).
Proof.
  split; [exact Use_batches|].
  split; [exact Apply_foldr|].
  split; [exact Apply_cons|exact Apply_around].
Qed.

(** A run of the chain with two logging middlewares around a handler. *)
Example Apply_two_loggers :
  Apply ok_handler
    [around (λ _, [ELog "in 1"]) (λ _, [ELog "out 1"]);
     around (λ _, [ELog "in 2"]) (λ _, [ELog "out 2"])]
    (mkCtx 0) writer (sample_request 7 CmdGet 0)
  = [ELog "in 1"; ELog "in 2"; EWrite (Response.mk 7 "" [] false [] 0 None "");
     ELog "out 2"; ELog "out 1"].
Proof. reflexivity. Qed.

(** ** Registration *)

Example register_sample_mux :
  (mux1 ← HandleGetFunc serveMux miss_handler;
   mux2 ← HandlePutFunc mux1 ok_handler;
   HandleCloseFunc mux2 ok_handler) = Some sample_mux.
Proof. reflexivity. Qed.

Example HandleFunc_unsupported : HandleFunc serveMux "frobnicate" ok_handler = None.
Proof. reflexivity. Qed.

Lemma HandleFunc_last_wins (mux mux' : ServeMux) (cmd : Cmd) (h : Handler) :
  HandleFunc mux cmd h = Some mux' →
  m mux' !! cmd = Some h ∧ middleware mux' = middleware mux
  ∧ ∀ cmd', cmd' ≠ cmd → m mux' !! cmd' = m mux !! cmd'.
Proof.
  unfold HandleFunc. case_decide; [|done]. intros. simplify_eq. simpl.
  split; [apply lookup_insert_eq|]. split; [done|].
  intros cmd' Hne. by rewrite lookup_insert_ne.
Qed.

(** ** The body of a put *)

Lemma decodePutBody_zero (req : Request.t) (d : Decoder) :
  Request.BodySize req = 0 →
  decodePutBody req d = (None, Request.withBody req EmptyReader, d).
Proof. intros Hz. unfold decodePutBody. by rewrite decide_True. Qed.

Lemma decodePutBody_string (req : Request.t) (src : string) (d : Decoder) :
  Request.BodySize req ≠ 0 →
  decodePutBody req (MString src :: d)
  = (None, Request.withBody req (Base64Reader src), d).
Proof. intros Hnz. unfold decodePutBody. by rewrite decide_False. Qed.

Lemma decodePutBody_fails_iff (req : Request.t) (d : Decoder) :
  Request.BodySize req ≠ 0 →
  (∃ err, (decodePutBody req d).1.1 = Some err) ↔ (∃ err, (decodeString d).1 = DecErr err).
Proof.
  intros Hnz. unfold decodePutBody. rewrite decide_False by done.
  destruct (decodeString d) as [[src|err] d']; simpl; split; intros [e He]; eauto; done.
Qed.

(** C3 (as the code has it). With [BodySize = 0] the Body is the empty
    reader and the decoder is left untouched.  With [BodySize] not zero
    exactly the next message is decoded: [decodePutBody] fails exactly when
    that [Decode] into a string fails, and when the message is a JSON
    string it succeeds and leaves the lazy base64 reader over that string
    as Body, whatever the string decodes to; the length is not compared
    with [BodySize]. *)
Theorem decodePutBody_framing (req : Request.t) (d : Decoder) :
  (Request.BodySize req = 0 →
     decodePutBody req d = (None, Request.withBody req EmptyReader, d)
     ∧ readAll EmptyReader = Some ([], true))
  ∧ (Request.BodySize req ≠ 0 →
       (∀ src d', d = MString src :: d' →
          decodePutBody req d = (None, Request.withBody req (Base64Reader src), d'))
       ∧ ((∃ err, (decodePutBody req d).1.1 = Some err)
          ↔ (∃ err, (decodeString d).1 = DecErr err))
       ∧ (decodePutBody req d).2 = (decodeString d).2).
Proof.
  split.
  - intros Hz. split; [by apply decodePutBody_zero|done].
  - intros Hnz. split; [|split].
    + intros src d' ->. by apply decodePutBody_string.
    + by apply decodePutBody_fails_iff.
    + unfold decodePutBody. rewrite decide_False by done.
      by destruct (decodeString d) as [[src|err] d'].
Qed.

Lemma decodePutBody_framing_witness :
  decodePutBody (sample_request 2 CmdPut 0) [MString "aGk="]
  = (None, Request.withBody (sample_request 2 CmdPut 0) EmptyReader, [MString "aGk="])
  ∧ decodePutBody (sample_request 2 CmdPut 2) [MString "aGk="]
    = (None, Request.withBody (sample_request 2 CmdPut 2) (Base64Reader "aGk="), []).
Proof.
  split.
  - apply (decodePutBody_framing (sample_request 2 CmdPut 0) [MString "aGk="]). reflexivity.
  - apply (decodePutBody_framing (sample_request 2 CmdPut 2) [MString "aGk="]); [done|reflexivity].
Defined.

(** C3, counterexample: a put that declares five bytes and is followed by
    the string [aGk=], which decodes to two bytes, is accepted. *)
Lemma decodePutBody_short_body_accepted :
  ¬ body_size_checked (sample_request 2 CmdPut 5) [MString "aGk="].
Proof.
  intros Hchk.
  destruct (Hchk "aGk=" []) as [err Herr]; [done|done|vm_compute; done|].
  vm_compute in Herr. discriminate.
Qed.

(** ** Runs and invariants *)

Lemma run_app (s : server) (mux : ServeMux) (a b : list Label) (st : State) :
  run s mux (a ++ b) st = run s mux a st ≫= run s mux b.
Proof.
  revert st. induction a as [|l a IH]; intros st; simpl; [done|].
  destruct (step s mux l st); simpl; [apply IH|done].
Qed.

Lemma run_invariant (s : server) (mux : ServeMux) (P : State → Prop) :
  (∀ l st st', P st → step s mux l st = Some st' → P st') →
  ∀ sched st st', P st → run s mux sched st = Some st' → P st'.
Proof.
  intros Hstep sched. induction sched as [|l sched IH]; intros st st' HP Hrun; simpl in Hrun.
  - by simplify_eq.
  - destruct (step s mux l st) as [st1|] eqn:Hl; [|done]. eauto.
Qed.

Lemma count_app (f : Task → bool) (l : list Task) (t : Task) :
  count f (l ++ [t]) = (count f l + Nat.b2n (f t))%nat.
Proof.
  unfold count. rewrite List.filter_app, length_app. simpl. by destruct (f t).
Qed.

Lemma count_insert (f : Task → bool) (l : list Task) (i : nat) (t t' : Task) :
  l !! i = Some t →
  (count f (<[i := t']> l) + Nat.b2n (f t) = count f l + Nat.b2n (f t'))%nat.
Proof.
  unfold count. revert i. induction l as [|x l IH]; intros i Hi; [done|].
  destruct i as [|i]; simpl in *.
  - simplify_eq. destruct (f t), (f t'); simpl; lia.
  - specialize (IH i Hi). destruct (f x); simpl; lia.
Qed.

Lemma count_pos (f : Task → bool) (l : list Task) (i : nat) (t : Task) :
  l !! i = Some t → f t = true → (0 < count f l)%nat.
Proof.
  unfold count. revert i. induction l as [|x l IH]; intros i Hi Hf; [done|].
  destruct i as [|i]; simpl in *.
  - simplify_eq. rewrite Hf. simpl. lia.
  - specialize (IH i Hi Hf). destruct (f x); simpl; lia.
Qed.

Lemma count_zero (f : Task → bool) (l : list Task) (i : nat) (t : Task) :
  count f l = 0%nat → l !! i = Some t → f t = false.
Proof.
  intros Hz Hi. destruct (f t) eqn:Hf; [|done].
  pose proof (count_pos f l i t Hi Hf). lia.
Qed.

(** Case analysis on one step: every way [step] can succeed. *)
Ltac step_inv H :=
  revert H;
  unfold step, serve_step, acquire, expire, run_task, decodePutBody;
  repeat case_match; intros H; simplify_eq.

Lemma perform_now (src : Src) (e : Effect) (st : State) : now (perform src e st) = now st.
Proof. by destruct e. Qed.
Lemma perform_decoder (src : Src) (e : Effect) (st : State) :
  decoder (perform src e st) = decoder st.
Proof. by destruct e. Qed.
Lemma perform_sem (src : Src) (e : Effect) (st : State) : sem (perform src e st) = sem st.
Proof. by destruct e. Qed.
Lemma perform_wg (src : Src) (e : Effect) (st : State) : wg (perform src e st) = wg st.
Proof. by destruct e. Qed.
Lemma perform_tasks (src : Src) (e : Effect) (st : State) :
  tasks (perform src e st) = tasks st.
Proof. by destruct e. Qed.
Lemma perform_pc (src : Src) (e : Effect) (st : State) : pc (perform src e st) = pc st.
Proof. by destruct e. Qed.
Lemma perform_out (src : Src) (e : Effect) (st : State) :
  out (perform src e st) = out st ++ map (pair src) (writes_of [e]).
Proof. destruct e; simpl; [done|by rewrite app_nil_r]. Qed.

Ltac perform_simpl :=
  rewrite ?perform_now, ?perform_decoder, ?perform_sem, ?perform_wg, ?perform_tasks,
    ?perform_pc, ?perform_out.

(** *** The counters *)

Lemma holding_at_release (t : Task) : at_release t = true → holding t = true.
Proof. unfold at_release, holding. by destruct (t_phase t) as [|[|]| |]. Qed.

(** No goroutine is ever blocked in the deferred receive: whoever gets
    there has put a value into the channel before. *)
Lemma no_blocked_receiver (st : State) (j : nat) (r : Task) :
  counters_ok st → sem st = 0%nat →
  list_find (λ t, at_release t = true) (tasks st) = Some (j, r) → False.
Proof.
  intros (_ & Hsem & _) Hz Hfind. apply list_find_Some in Hfind as (Hj & Hr & _).
  pose proof (count_pos holding _ _ _ Hj (holding_at_release _ Hr)). lia.
Qed.

Lemma exiting_wg_pos (st : State) (i : nat) (t : Task) :
  counters_ok st → tasks st !! i = Some t → t_phase t = Exiting → wg st = 0%nat → False.
Proof.
  intros (Hwg & _) Hi Hph Hz.
  assert (0 < count unfinished (tasks st))%nat; [|lia].
  eapply count_pos; [done|]. unfold unfinished, finished. by rewrite Hph.
Qed.

Ltac impossible :=
  exfalso;
  first [eapply no_blocked_receiver; eassumption|eapply exiting_wg_pos; eassumption].

Ltac count_insert_tac :=
  repeat match goal with
  | Hi : tasks ?st !! ?i = Some ?t, Hp : t_phase ?t = _
    |- context [count ?f (<[?i := ?t']> (tasks ?st))] =>
      let E := fresh in
      let c1 := fresh in
      let c2 := fresh in
      pose proof (count_insert f (tasks st) i t t' Hi) as E;
      set (c1 := count f (<[i := t']> (tasks st))) in *;
      set (c2 := count f (tasks st)) in *;
      unfold unfinished, finished, holding in E; simpl in E; rewrite Hp in E; simpl in E;
      clearbody c1
  end.

Lemma counters_ok_init (d : Decoder) : counters_ok (init d).
Proof. done. Qed.

Lemma counters_ok_step (s : server) (mux : ServeMux) (l : Label) (st st' : State) :
  counters_ok st → step s mux l st = Some st' → counters_ok st'.
Proof.
  intros Hok Hstep. pose proof Hok as (Hwg & Hsem & Hdr).
  step_inv Hstep; try (exfalso; eapply no_blocked_receiver; eassumption).
  all: unfold counters_ok, asyncHandleRequest; simpl; perform_simpl.
  all: rewrite ?count_app; simpl.
  all: count_insert_tac.
  all: split_and!; try done; try lia.
  intros Hd. specialize (Hdr Hd). lia.
Qed.

Lemma counters_ok_run (s : server) (mux : ServeMux) (sched : list Label) (st st' : State) :
  counters_ok st → run s mux sched st = Some st' → counters_ok st'.
Proof. apply run_invariant. intros l. apply counters_ok_step. Qed.

Lemma counters_ok_reachable (s : server) (mux : ServeMux) (d : Decoder) (st : State) :
  reachable s mux d st → counters_ok st.
Proof. intros [sched Hrun]. eapply counters_ok_run; [apply counters_ok_init|done]. Qed.

(** ** Deadlines *)

Lemma deadlines_ok_step (s : server) (mux : ServeMux) (l : Label) (st st' : State) :
  counters_ok st → deadlines_ok s st → step s mux l st = Some st' → deadlines_ok s st'.
Proof.
  intros Hok Hinv Hstep.
  assert (∀ i t p, tasks st !! i = Some t →
            Forall (λ t, deadline (t_ctx t) ≤ t_launched t + timeout s ∧ t_launched t ≤ now st)
              (<[i := set_phase p t]> (tasks st))) as Hupd.
  { intros i t p Hi. destruct Hinv as [Hts _]. apply Forall_insert; [done|].
    rewrite Forall_lookup in Hts. exact (Hts i t Hi). }
  step_inv Hstep; try impossible.
  all: destruct Hinv as [Hts Hpc]; unfold deadlines_ok, asyncHandleRequest in *; simpl; perform_simpl.
  all: repeat match goal with H : pc _ = _ |- _ => rewrite H in * end.
  all: try (split; [by auto|done]).
  all: try (split; [|done]; apply Forall_app; split; [done|]; apply Forall_singleton; simpl; lia).
  - split.
    + eapply Forall_impl; [exact Hts|]. simpl. intros t [? ?]. split; lia.
    + destruct (pc st); try done; lia.
Qed.

Lemma deadlines_ok_reachable (s : server) (mux : ServeMux) (d : Decoder) (st : State) :
  reachable s mux d st → deadlines_ok s st.
Proof.
  intros [sched Hrun].
  refine (proj2 (run_invariant s mux (λ st, counters_ok st ∧ deadlines_ok s st)
                   _ sched (init d) st _ Hrun)).
  - intros l st1 st2 [Hc Hl] Hstep.
    split; [by eapply counters_ok_step|by eapply deadlines_ok_step].
  - split; [apply counters_ok_init|]. split; [constructor|done].
Qed.

(** ** The announcement *)

Lemma knownCommands_spec (mux : ServeMux) (c : Cmd) :
  c ∈ knownCommands mux ↔ is_Some (m mux !! c).
Proof.
  unfold knownCommands. rewrite list_elem_of_fmap. split.
  - intros [[c' h] [-> Hin]]. apply elem_of_map_to_list in Hin. by exists h.
  - intros [h Hh]. exists (c, h). split; [done|]. by apply elem_of_map_to_list.
Qed.

Lemma knownCommands_NoDup (mux : ServeMux) : NoDup (knownCommands mux).
Proof. apply NoDup_fst_map_to_list. Qed.

Lemma ack_inv_step (s : server) (mux : ServeMux) (d : Decoder) (l : Label) (st st' : State) :
  ack_inv mux d st → step s mux l st = Some st' → ack_inv mux d st'.
Proof.
  intros Hinv Hstep. unfold ack_inv in *.
  step_inv Hstep; unfold asyncHandleRequest; simpl; perform_simpl.
  all: destruct Hinv as [(Hpc & Hout & Hdec & Hts)|(Hpc & rest & Hout)];
    try congruence;
    try (rewrite Hts in *; simplify_eq; fail).
  all: try (right; split; [congruence|]; rewrite ?Hout; simpl; eauto; fail).
  all: try (left; done).
Qed.

(** C7. In every state of every session either nothing has been written
    and nothing read yet, or the output starts with the announcement; the
    announcement has ID 0 and its KnownCommands holds, each once, exactly
    the commands that have a registered handler. *)
Theorem ack_is_first_message (s : server) (mux : ServeMux) (d : Decoder)
    (sched : list Label) (st : State) :
  run s mux sched (init d) = Some st →
  ((out st = [] ∧ decoder st = d) ∨ (∃ rest, out st = (FromAck, ack_response mux) :: rest))
  ∧ Response.ID (ack_response mux) = 0
  ∧ (∀ c, c ∈ Response.KnownCommands (ack_response mux) ↔ is_Some (m mux !! c))
  ∧ NoDup (Response.KnownCommands (ack_response mux)).
Proof.
  intros Hrun. split_and!.
  - assert (ack_inv mux d st) as [(_ & ? & ? & _)|(_ & ?)];
      [|left; split; assumption|right; assumption].
    refine (run_invariant s mux (ack_inv mux d) _ sched (init d) st _ Hrun); [|by left].
    intros l. apply ack_inv_step.
  - done.
  - apply knownCommands_spec.
  - apply knownCommands_NoDup.
Qed.

Lemma ack_is_first_message_witness :
  ∃ st, run (newServer [WithConcurrency 1]) sample_mux [Main; Main; Main; Acquire 0; Run 0]
          (init scenario_1) = Some st
        ∧ ((out st = [] ∧ decoder st = scenario_1)
           ∨ (∃ rest, out st = (FromAck, ack_response sample_mux) :: rest)).
Proof.
  eexists. split; [vm_compute; reflexivity|].
  eapply (ack_is_first_message (newServer [WithConcurrency 1]) sample_mux scenario_1
            [Main; Main; Main; Acquire 0; Run 0]).
  vm_compute. reflexivity.
Defined.

(** ** Unknown commands *)

(** C9. A decoded Request whose Command is none of get, put and close is
    answered by the read loop itself, in the same step, with an error
    Response that carries its ID and names the command as unknown; no
    goroutine is started, and the loop is back at its top, from where it
    goes on to decode the next message. *)
Theorem unknown_command_answered_by_loop (s : server) (mux : ServeMux) (st : State)
    (ctx : Ctx) (req : Request.t) (d' : Decoder) :
  pc st = PDecode ctx →
  decodeRequest (decoder st) = (DecOk (Some req), d') →
  Request.Command req ≠ CmdGet → Request.Command req ≠ CmdPut →
  Request.Command req ≠ CmdClose →
  ∃ st', step s mux Main st = Some st'
    ∧ out st' = out st ++ [(FromLoop,
        Response.error (Request.ID req)
          ("error: " +:+ Request.Command req +:+ " is unknown command"))]
    ∧ tasks st' = tasks st ∧ wg st' = wg st ∧ sem st' = sem st
    ∧ decoder st' = d' ∧ pc st' = PLoop
    ∧ ∃ st'', step s mux Main st' = Some st''
        ∧ pc st'' = PDecode (WithTimeout (now st') (timeout s))
        ∧ out st'' = out st' ∧ tasks st'' = tasks st'.
Proof.
  intros Hpc Hdec Hget Hput Hclose.
  eexists. split.
  - unfold step, serve_step. rewrite Hpc, Hdec. simpl.
    rewrite !decide_False by done. reflexivity.
  - simpl. split_and!; try done.
    eexists. split; [reflexivity|done].
Qed.

Lemma unknown_command_answered_by_loop_witness :
  ∃ st', step (newServer []) sample_mux Main (at_decode (mkCtx 30) scenario_5) = Some st'
    ∧ out st' = [(FromLoop, Response.error 2 "error: frobnicate is unknown command")]
    ∧ tasks st' = [] ∧ wg st' = 0%nat ∧ sem st' = 0%nat
    ∧ decoder st' = [] ∧ pc st' = PLoop
    ∧ ∃ st'', step (newServer []) sample_mux Main st' = Some st''
        ∧ pc st'' = PDecode (WithTimeout (now st') (timeout (newServer [])))
        ∧ out st'' = out st' ∧ tasks st'' = tasks st'.
Proof.
  apply (unknown_command_answered_by_loop (newServer []) sample_mux
           (at_decode (mkCtx 30) scenario_5) (mkCtx 30)
           (sample_request 2 "frobnicate" 0) []); done.
Defined.

(** ** The deadline of a request *)

(** C4, the code at a failing input: the context is made at the top of
    the loop, before [Decode] blocks.  A get that arrives one tick later
    is launched at time 1 with the deadline [0 + timeout], not
    [1 + timeout].  With a timeout of two ticks and a peer that stays
    silent for two ticks, the request is launched with its context
    already done, and may be answered with the cancellation error at once
    although no token is taken. *)
Theorem deadline_set_before_decode :
  (∃ st, run (newServer []) sample_mux [Main; Main; Tick; Main] (init scenario_1) = Some st
     ∧ tasks st = [mkTask (mkCtx defaultTimeout) (sample_request 1 CmdGet 0) 1 Waiting]
     ∧ ¬ deadline_from_launch (newServer []) st)
  ∧ (∃ st, run (newServer [WithResponseTimeout 2]) sample_mux
             [Main; Main; Tick; Tick; Main; Expire 0] (init scenario_1) = Some st
       ∧ map t_launched (tasks st) = [2] ∧ now st = 2 ∧ sem st = 0%nat
       ∧ map snd (out st)
         = [ack_response sample_mux; canceled_response (sample_request 1 CmdGet 0)]).
Proof.
  split.
  - eexists. split; [vm_compute; reflexivity|]. split; [reflexivity|].
    intros Hclaim. specialize (Hclaim _ (list_elem_of_here _ _)).
    vm_compute in Hclaim. discriminate.
  - eexists. split; [vm_compute; reflexivity|]. by vm_compute.
Qed.

(** ** What each goroutine writes *)

Lemma written_by_app (i : nat) (o o' : list (Src * Response.t)) :
  written_by i (o ++ o') = written_by i o ++ written_by i o'.
Proof. unfold written_by. by rewrite List.filter_app, map_app. Qed.

Lemma written_by_task (j i : nat) (rs : list Response.t) :
  written_by j (map (pair (FromTask i)) rs) = if Nat.eqb j i then rs else [].
Proof.
  unfold written_by. induction rs as [|r rs IH]; simpl.
  - by destruct (Nat.eqb j i).
  - unfold from_task at 1. simpl. destruct (Nat.eqb j i); simpl; [by f_equal|done].
Qed.

Lemma written_by_main (j : nat) (src : Src) (rs : list Response.t) :
  (∀ i, src ≠ FromTask i) → written_by j (map (pair src) rs) = [].
Proof.
  intros Hsrc. unfold written_by. induction rs as [|r rs IH]; simpl; [done|].
  unfold from_task at 1. simpl. destruct src; try done. by destruct (Hsrc i).
Qed.

Lemma log_ok_ext (Q : list Response.t → Task → Prop) (ts : list Task)
    (o o' : list (Src * Response.t)) :
  (∀ i, written_by i o' = written_by i o) → log_ok Q ts o → log_ok Q ts o'.
Proof.
  intros Hw [Hts Hfresh]. split.
  - intros i t Hi. rewrite Hw. by apply Hts.
  - intros i Hi. rewrite Hw. by apply Hfresh.
Qed.

Lemma log_ok_main (Q : list Response.t → Task → Prop) (ts : list Task)
    (o : list (Src * Response.t)) (src : Src) (rs : list Response.t) :
  (∀ i, src ≠ FromTask i) → log_ok Q ts o → log_ok Q ts (o ++ map (pair src) rs).
Proof.
  intros Hsrc. apply log_ok_ext. intros i.
  by rewrite written_by_app, written_by_main, app_nil_r.
Qed.

Lemma log_ok_launch (Q : list Response.t → Task → Prop) (ts : list Task)
    (o : list (Src * Response.t)) (ctx : Ctx) (req : Request.t) (at_ : Z) :
  Q [] (mkTask ctx req at_ Waiting) →
  log_ok Q ts o → log_ok Q (ts ++ [mkTask ctx req at_ Waiting]) o.
Proof.
  intros HQ [Hts Hfresh]. split.
  - intros i t Hi. apply lookup_app_Some in Hi as [Hi|[Hlen Hi]]; [by apply Hts|].
    apply list_lookup_singleton_Some in Hi as [_ <-]. by rewrite Hfresh.
  - intros i Hi. rewrite length_app in Hi. simpl in Hi. apply Hfresh. lia.
Qed.

Lemma log_ok_update (Q : list Response.t → Task → Prop) (ts : list Task)
    (o o' : list (Src * Response.t)) (i : nat) (t : Task) (p : Phase) (rs : list Response.t) :
  log_ok Q ts o → ts !! i = Some t →
  o' = o ++ map (pair (FromTask i)) rs →
  Q (written_by i o') (set_phase p t) →
  log_ok Q (<[i := set_phase p t]> ts) o'.
Proof.
  intros [Hts Hfresh] Hi -> Hnew.
  assert (∀ j, j ≠ i → written_by j (o ++ map (pair (FromTask i)) rs) = written_by j o) as Hoth.
  { intros j Hj. rewrite written_by_app, written_by_task.
    apply Nat.eqb_neq in Hj. by rewrite Hj, app_nil_r. }
  split.
  - intros j t' Hj. destruct (decide (j = i)) as [->|Hne].
    + rewrite list_lookup_insert_eq in Hj by (by eapply lookup_lt_Some). by simplify_eq.
    + rewrite list_lookup_insert_ne in Hj by done. rewrite Hoth by done. by apply Hts.
  - intros j Hj. rewrite length_insert in Hj. apply lookup_lt_Some in Hi.
    rewrite Hoth by lia. by apply Hfresh.
Qed.

Lemma log_ok_step (s : server) (mux : ServeMux) (l : Label) (st st' : State) :
  counters_ok st → log_ok (task_log_ok mux) (tasks st) (out st) →
  step s mux l st = Some st' → log_ok (task_log_ok mux) (tasks st') (out st').
Proof.
  intros Hok Hlog Hstep.
  step_inv Hstep; try (exfalso; eapply no_blocked_receiver; eassumption).
  all: unfold asyncHandleRequest, WriteResponse; simpl; perform_simpl; try done.
  all: try (apply log_ok_launch; done).
  all: try (apply (log_ok_main (task_log_ok mux) _ _ _ [_]); done).
  all: try (apply log_ok_main; done).
  all: match goal with
       | Hi : tasks _ !! ?i = Some ?t, Hp : t_phase ?t = _ |- _ =>
           pose proof (proj1 Hlog i t Hi) as Ht; unfold task_log_ok in Ht; rewrite Hp in Ht
       end.
  - eapply (log_ok_update (task_log_ok mux) _ _ _ _ _ _ []); [done|done|by rewrite app_nil_r|].
    unfold task_log_ok. simpl. by rewrite Ht.
  - eapply (log_ok_update (task_log_ok mux) _ _ _ _ _ _ [_]); [done|done|reflexivity|].
    unfold task_log_ok. simpl. right.
    rewrite written_by_app, Ht. unfold written_by, from_task. simpl.
    by rewrite Nat.eqb_refl.
  - eapply (log_ok_update (task_log_ok mux) _ _ _ _ _ _ []); [done|done|by rewrite app_nil_r|].
    unfold task_log_ok. simpl. left. by rewrite <- Ht, app_nil_r.
  - eapply (log_ok_update (task_log_ok mux) _ _ _ _ _ _ _); [done|done|reflexivity|].
    unfold task_log_ok. simpl.
    rewrite written_by_app, written_by_task, Nat.eqb_refl, <- Ht, <- app_assoc.
    f_equal. unfold writes_of. simpl. by rewrite app_nil_r.
  - eapply (log_ok_update (task_log_ok mux) _ _ _ _ _ _ []); [done|done|by rewrite app_nil_r|].
    unfold task_log_ok. simpl. done.
Qed.

Lemma log_ok_reachable (s : server) (mux : ServeMux) (d : Decoder) (st : State) :
  reachable s mux d st → counters_ok st ∧ log_ok (task_log_ok mux) (tasks st) (out st).
Proof.
  intros [sched Hrun].
  refine (run_invariant s mux (λ st, counters_ok st ∧ log_ok (task_log_ok mux) (tasks st) (out st))
            _ sched (init d) st _ Hrun).
  - intros l st1 st2 [Hc Hl] Hstep. split; [by eapply counters_ok_step|by eapply log_ok_step].
  - split; [apply counters_ok_init|]. split; [by intros [|i] t|done].
Qed.

Lemma cmds_ok_step (s : server) (mux : ServeMux) (l : Label) (st st' : State) :
  counters_ok st → cmds_ok st → step s mux l st = Some st' → cmds_ok st'.
Proof.
  intros Hok Hcmd Hstep.
  assert (∀ i t p, tasks st !! i = Some t → Forall launched_cmd (<[i := set_phase p t]> (tasks st)))
    as Hupd.
  { intros i t p Hi. destruct Hcmd as [Hts _]. apply Forall_insert; [done|].
    rewrite Forall_lookup in Hts. exact (Hts i t Hi). }
  step_inv Hstep; try (exfalso; eapply no_blocked_receiver; eassumption).
  all: destruct Hcmd as [Hts Hpc]; unfold cmds_ok, asyncHandleRequest in *; simpl; perform_simpl.
  all: repeat match goal with H : pc _ = _ |- _ => rewrite H in * end.
  all: try (split; [by auto|done]).
  all: split; [|done].
  all: apply Forall_app; split; [done|]; apply Forall_singleton; unfold launched_cmd; simpl; auto.
Qed.



(** ** Every goroutine can run to its end *)

Lemma run_ticks (s : server) (mux : ServeMux) (n : nat) (st : State) :
  crashed (pc st) = false →
  run s mux (repeat Tick n) st = Some (set_now (now st + Z.of_nat n) st).
Proof.
  revert st. induction n as [|n IH]; intros st Hcr.
  - simpl. f_equal. destruct st. unfold set_now. simpl. f_equal. lia.
  - cbn [repeat run]. unfold step. rewrite Hcr. rewrite IH by done.
    f_equal. unfold set_now. simpl. f_equal. lia.
Qed.

Lemma finish_exiting (s : server) (mux : ServeMux) (i : nat) (st : State) (t : Task) :
  counters_ok st → crashed (pc st) = false →
  tasks st !! i = Some t → t_phase t = Exiting →
  ∃ st', run s mux [Run i] st = Some st'
    ∧ tasks st' = <[i := set_phase Finished t]> (tasks st)
    ∧ pc st' = pc st ∧ decoder st' = decoder st.
Proof.
  intros (Hwg & _) Hcr Hi Hph.
  assert (0 < wg st)%nat as Hpos.
  { rewrite Hwg. eapply count_pos; [done|]. unfold unfinished, finished. by rewrite Hph. }
  destruct (wg st) as [|n] eqn:Hn; [lia|].
  eexists. simpl. unfold step, run_task. rewrite Hcr, Hi, Hph, Hn. done.
Qed.

Lemma finish_handling (s : server) (mux : ServeMux) (i : nat) (todo : list Effect) :
  ∀ (st : State) (t : Task),
  counters_ok st → crashed (pc st) = false →
  tasks st !! i = Some t → t_phase t = Handling todo →
  ∃ sched st', run s mux sched st = Some st'
    ∧ tasks st' = <[i := set_phase Finished t]> (tasks st)
    ∧ pc st' = pc st ∧ decoder st' = decoder st.
Proof.
  induction todo as [|e todo IH]; intros st t Hok Hcr Hi Hph.
  - assert (0 < sem st)%nat as Hpos.
    { destruct Hok as (_ & -> & _). eapply count_pos; [done|]. unfold holding. by rewrite Hph. }
    destruct (sem st) as [|n] eqn:Hn; [lia|].
    assert (step s mux (Run i) st
            = Some (set_tasks (<[i := set_phase Exiting t]> (tasks st)) (set_sem n st))) as Hstep.
    { unfold step, run_task. by rewrite Hcr, Hi, Hph, Hn. }
    pose proof (counters_ok_step _ _ _ _ _ Hok Hstep) as Hok1.
    destruct (finish_exiting s mux i _ (set_phase Exiting t) Hok1) as (st' & Hrun & Hts & Hpc & Hdec);
      [done| |done|].
    { simpl. apply list_lookup_insert_eq. by eapply lookup_lt_Some. }
    exists [Run i; Run i], st'. simpl in *. rewrite Hstep. split; [done|].
    rewrite Hts, list_insert_insert_eq. done.
  - assert (step s mux (Run i) st
            = Some (set_tasks (<[i := set_phase (Handling todo) t]> (tasks st))
                      (perform (FromTask i) e st))) as Hstep.
    { unfold step, run_task. by rewrite Hcr, Hi, Hph. }
    pose proof (counters_ok_step _ _ _ _ _ Hok Hstep) as Hok1.
    destruct (IH _ (set_phase (Handling todo) t) Hok1) as (sched & st' & Hrun & Hts & Hpc & Hdec).
    { simpl. by rewrite perform_pc. }
    { simpl. apply list_lookup_insert_eq. by eapply lookup_lt_Some. }
    { done. }
    exists (Run i :: sched), st'. simpl in *. rewrite Hstep. split; [done|].
    rewrite Hts, list_insert_insert_eq, Hpc, Hdec, perform_pc, perform_decoder. done.
Qed.

Lemma finish_waiting (s : server) (mux : ServeMux) (i : nat) (st : State) (t : Task) :
  counters_ok st → crashed (pc st) = false →
  tasks st !! i = Some t → t_phase t = Waiting →
  ∃ sched st', run s mux sched st = Some st'
    ∧ tasks st' = <[i := set_phase Finished t]> (tasks st)
    ∧ pc st' = pc st ∧ decoder st' = decoder st.
Proof.
  intros Hok Hcr Hi Hph.
  set (n := Z.to_nat (deadline (t_ctx t) - now st)).
  set (st1 := set_now (now st + Z.of_nat n) st).
  assert (run s mux (repeat Tick n) st = Some st1) as Hticks by (by apply run_ticks).
  pose proof (counters_ok_run _ _ _ _ _ Hok Hticks) as Hok1.
  assert (step s mux (Expire i) st1
          = Some (set_tasks (<[i := set_phase Exiting t]> (tasks st1))
                    (WriteResponse (FromTask i) (canceled_response (t_req t)) st1))) as Hstep.
  { unfold step, expire. simpl. rewrite Hcr, Hi, Hph.
    unfold expired. rewrite bool_decide_eq_true_2; [done|]. simpl. lia. }
  pose proof (counters_ok_step _ _ _ _ _ Hok1 Hstep) as Hok2.
  destruct (finish_exiting s mux i _ (set_phase Exiting t) Hok2) as (st' & Hrun & Hts & Hpc & Hdec);
    [done| |done|].
  { simpl. apply list_lookup_insert_eq. by eapply lookup_lt_Some. }
  exists (repeat Tick n ++ [Expire i; Run i]), st'.
  rewrite run_app, Hticks. simpl in *. rewrite Hstep. split; [done|].
  rewrite Hts, list_insert_insert_eq. done.
Qed.

Lemma finish_task (s : server) (mux : ServeMux) (i : nat) (st : State) (t : Task) :
  counters_ok st → crashed (pc st) = false → tasks st !! i = Some t →
  ∃ sched st', run s mux sched st = Some st'
    ∧ tasks st' = <[i := set_phase Finished t]> (tasks st)
    ∧ pc st' = pc st ∧ decoder st' = decoder st.
Proof.
  intros Hok Hcr Hi. destruct (t_phase t) as [|todo| |] eqn:Hph.
  - by apply finish_waiting.
  - by eapply finish_handling.
  - destruct (finish_exiting s mux i st t) as (st' & ?); eauto.
  - exists [], st. split; [done|]. split; [|done].
    symmetry. apply list_insert_id. rewrite Hi. f_equal.
    destruct t. simpl in Hph. by subst.
Qed.

Lemma count_pos_exists (f : Task → bool) (l : list Task) :
  (0 < count f l)%nat → ∃ i t, l !! i = Some t ∧ f t = true.
Proof.
  unfold count. induction l as [|x l IH]; simpl; [lia|].
  destruct (f x) eqn:Hx.
  - intros _. by exists 0%nat, x.
  - intros Hpos. destruct (IH Hpos) as (i & t & Hi & Ht). by exists (S i), t.
Qed.

Lemma launch_data_insert (l : list Task) (i : nat) (t : Task) (p : Phase) :
  l !! i = Some t → map launch_data (<[i := set_phase p t]> l) = map launch_data l.
Proof.
  intros Hi. change (map launch_data) with (fmap (M := list) launch_data).
  rewrite list_fmap_insert. apply list_insert_id.
  by rewrite list_lookup_fmap, Hi.
Qed.

(** From any state of a live process there is a way on, made of ticks
    and actions of the goroutines alone, after which all of them have
    finished. *)
Lemma drain (s : server) (mux : ServeMux) (n : nat) :
  ∀ st, counters_ok st → crashed (pc st) = false → count unfinished (tasks st) = n →
  ∃ sched st', run s mux sched st = Some st'
    ∧ count unfinished (tasks st') = 0%nat
    ∧ map launch_data (tasks st') = map launch_data (tasks st)
    ∧ pc st' = pc st ∧ decoder st' = decoder st.
Proof.
  induction n as [|n IH]; intros st Hok Hcr Hn.
  - by exists [], st.
  - destruct (count_pos_exists unfinished (tasks st)) as (i & t & Hi & Hu); [lia|].
    destruct (finish_task s mux i st t Hok Hcr Hi) as (sched & st1 & Hrun & Hts & Hpc & Hdec).
    pose proof (counters_ok_run _ _ _ _ _ Hok Hrun) as Hok1.
    destruct (IH st1 Hok1) as (sched' & st' & Hrun' & Hz & Hdata & Hpc' & Hdec').
    { by rewrite Hpc. }
    { rewrite Hts. pose proof (count_insert unfinished _ _ _ (set_phase Finished t) Hi) as E.
      rewrite Hu in E. simpl in E. lia. }
    exists (sched ++ sched'), st'. rewrite run_app, Hrun. simpl.
    split_and!; try done; try congruence.
    rewrite Hdata, Hts. by apply launch_data_insert.
Qed.

(** ** One Response per request *)

Lemma handleRequest_once (mux : ServeMux) (ctx : Ctx) (r : Request.t) :
  answers_once mux →
  ∃ res, writes_of (handleRequest mux ctx r) = [res] ∧ Response.ID res = Request.ID r.
Proof.
  intros Honce. unfold handleRequest.
  destruct (m mux !! Request.Command r) as [h|] eqn:Hh; [by eapply Honce|].
  eexists. split; [reflexivity|done].
Qed.

Lemma writes_of_app (a b : list Effect) : writes_of (a ++ b) = writes_of a ++ writes_of b.
Proof. unfold writes_of. apply flat_map_app. Qed.

Lemma writes_of_concat_nil (ls : list (list Effect)) :
  Forall (λ l, writes_of l = []) ls → writes_of (concat ls) = [].
Proof.
  induction 1 as [|l ls Hl _ IH]; [done|]. simpl. by rewrite writes_of_app, Hl, IH.
Qed.

(** The contract of the chains follows from the contract of the handlers
    when no middleware is registered, and more generally when every
    middleware only logs around the call of the next handler. *)
Lemma answers_once_around (mux : ServeMux)
    (bs : list ((Request.t → list Effect) * (Request.t → list Effect))) :
  middleware mux = map (λ b, around b.1 b.2) bs →
  (∀ b r, b ∈ bs → writes_of (b.1 r) = [] ∧ writes_of (b.2 r) = []) →
  (∀ cmd h, m mux !! cmd = Some h → handler_answers_once h) →
  answers_once mux.
Proof.
  intros Hmw Hlog Hh h ctx r Hlook.
  destruct (Hh _ h Hlook ctx r) as (res & Hres & Hid).
  exists res. split; [|done].
  rewrite Hmw, Apply_around, !writes_of_app, Hres.
  rewrite !writes_of_concat_nil; [done| |].
  - apply Forall_forall. intros l Hl. apply list_elem_of_fmap in Hl as (b & -> & Hb).
    apply list_elem_of_In, in_rev, list_elem_of_In in Hb. by apply Hlog.
  - apply Forall_forall. intros l Hl. apply list_elem_of_fmap in Hl as (b & -> & Hb).
    by apply Hlog.
Qed.

Lemma answers_once_no_middleware (mux : ServeMux) :
  middleware mux = [] →
  (∀ cmd h, m mux !! cmd = Some h → handler_answers_once h) →
  answers_once mux.
Proof.
  intros Hmw Hh. apply (answers_once_around mux []); [done| |done].
  intros b r Hb. by apply elem_of_nil in Hb.
Qed.

Lemma sample_mux_answers_once : answers_once sample_mux.
Proof.
  apply answers_once_no_middleware; [done|].
  intros cmd h Hh. unfold sample_mux in Hh. simpl in Hh.
  rewrite !lookup_insert_Some, lookup_empty in Hh.
  destruct Hh as [[_ <-]|[_ [[_ <-]|[_ [[_ <-]|[_ ?]]]]]]; try done.
  all: intros ctx r; eexists; split; [reflexivity|done].
Qed.

Lemma task_written_once (mux : ServeMux) (o : list (Src * Response.t)) (i : nat) (t : Task) :
  answers_once mux → task_log_ok mux (written_by i o) t →
  (length (written_by i o) ≤ 1)%nat
  ∧ (∀ res, res ∈ written_by i o → Response.ID res = Request.ID (t_req t))
  ∧ (t_phase t = Exiting ∨ t_phase t = Finished → ∃ res, written_by i o = [res])
  ∧ (written_by i o = [] ∨ written_by i o = [canceled_response (t_req t)]
     ∨ written_by i o = writes_of (handleRequest mux (t_ctx t) (t_req t))).
Proof.
  intros Honce Hlog.
  destruct (handleRequest_once mux (t_ctx t) (t_req t) Honce) as (res & Hres & Hid).
  unfold task_log_ok in Hlog. rewrite Hres in *.
  destruct (t_phase t) as [|todo| |] eqn:Hph.
  - rewrite Hlog. split_and!; [simpl; lia|by intros ? ?%elem_of_nil|by intros [|]|by left].
  - destruct (written_by i o) as [|w [|w' ws]] eqn:Hw; simpl in Hlog.
    + split_and!; [simpl; lia|by intros ? ?%elem_of_nil|by intros [|]|by left].
    + simplify_eq. split_and!; [simpl; lia| |by intros [|]|by right; right].
      by intros ? ->%list_elem_of_singleton.
    + simplify_eq.
  - destruct Hlog as [-> | ->].
    + split_and!; [simpl; lia| |eauto|by right; right].
      by intros ? ->%list_elem_of_singleton.
    + split_and!; [simpl; lia| |eauto|by right; left].
      by intros ? ->%list_elem_of_singleton.
  - destruct Hlog as [-> | ->].
    + split_and!; [simpl; lia| |eauto|by right; right].
      by intros ? ->%list_elem_of_singleton.
    + split_and!; [simpl; lia| |eauto|by right; left].
      by intros ? ->%list_elem_of_singleton.
Qed.





(** ** The select of a launched operation *)

Lemma sem_bounded_step (s : server) (mux : ServeMux) (l : Label) (st st' : State) :
  counters_ok st → (sem st ≤ sem_cap s)%nat → step s mux l st = Some st' →
  (sem st' ≤ sem_cap s)%nat.
Proof.
  intros Hok Hle Hstep.
  step_inv Hstep; try (exfalso; eapply no_blocked_receiver; eassumption).
  all: unfold asyncHandleRequest; simpl; perform_simpl; try lia.
  match goal with H : (_ <? _)%nat = true |- _ => apply Nat.ltb_lt in H end. lia.
Qed.

Lemma sem_bounded_reachable (s : server) (mux : ServeMux) (d : Decoder) (st : State) :
  reachable s mux d st → (sem st ≤ sem_cap s)%nat.
Proof.
  intros [sched Hrun].
  refine (proj2 (run_invariant s mux (λ st, counters_ok st ∧ (sem st ≤ sem_cap s)%nat)
                   _ sched (init d) st _ Hrun)).
  - intros l st1 st2 [Hc Hl] Hstep. split; [by eapply counters_ok_step|by eapply sem_bounded_step].
  - split; [apply counters_ok_init|simpl; lia].
Qed.

Lemma written_by_snoc (j : nat) (o : list (Src * Response.t)) (src : Src) (r : Response.t) :
  written_by j (o ++ [(src, r)])
  = written_by j o ++ (if from_task j (src, r) then [r] else []).
Proof. rewrite written_by_app. f_equal. unfold written_by. simpl. by destruct (from_task j (src, r)). Qed.

Lemma past_select_step (s : server) (mux : ServeMux) (i : nat) (r : Request.t)
    (w : list Response.t) (l : Label) (st st' : State) :
  counters_ok st → past_select i r w st → step s mux l st = Some st' →
  past_select i r w st'.
Proof.
  intros Hok Hpast Hstep.
  step_inv Hstep; try (exfalso; eapply no_blocked_receiver; eassumption).
  all: destruct Hpast as (t' & Hi & Hreq & Hph & Hw).
  all: unfold past_select, asyncHandleRequest, WriteResponse; simpl; perform_simpl.
  all: rewrite ?written_by_snoc, ?written_by_app, ?written_by_task;
    rewrite ?(written_by_main _ FromClose) by done; unfold from_task; simpl.
  all: try (exists t'; split_and!; try done;
            first [by apply lookup_app_l_Some|by rewrite app_nil_r|done]).
  all: match goal with
       | Hj : tasks _ !! ?j = Some ?u |- _ =>
           destruct (decide (j = i)) as [->|Hne];
           [rewrite Hi in Hj; simplify_eq; try (destruct Hph; congruence)
           |exists t'; rewrite list_lookup_insert_ne by done;
            try (rewrite (proj2 (Nat.eqb_neq i j)) by done);
            rewrite ?app_nil_r; try done]
       end.
  eexists. rewrite list_lookup_insert_eq by (by eapply lookup_lt_Some).
  split_and!; try done. by right.
Qed.

Lemma past_select_run (s : server) (mux : ServeMux) (i : nat) (r : Request.t)
    (w : list Response.t) (sched : list Label) (st st' : State) :
  counters_ok st → past_select i r w st → run s mux sched st = Some st' →
  past_select i r w st'.
Proof.
  intros Hok Hpast Hrun.
  refine (proj2 (run_invariant s mux (λ st, counters_ok st ∧ past_select i r w st)
                   _ sched st st' _ Hrun)); [|done].
  intros l st1 st2 [Hc Hp] Hstep. split; [by eapply counters_ok_step|by eapply past_select_step].
Qed.

Lemma expire_Some (s : server) (mux : ServeMux) (i : nat) (st st' : State) (t : Task) :
  tasks st !! i = Some t → t_phase t = Waiting → step s mux (Expire i) st = Some st' →
  expired (t_ctx t) (now st) = true
  ∧ st' = set_tasks (<[i := set_phase Exiting t]> (tasks st))
            (WriteResponse (FromTask i) (canceled_response (t_req t)) st).
Proof.
  intros Hi Hph. unfold step, expire. rewrite Hi, Hph.
  destruct (crashed (pc st)); [done|].
  destruct (expired (t_ctx t) (now st)); [|done]. intros. by simplify_eq.
Qed.

Lemma acquire_Some (s : server) (mux : ServeMux) (i : nat) (st st' : State) (t : Task) :
  counters_ok st →
  tasks st !! i = Some t → t_phase t = Waiting → step s mux (Acquire i) st = Some st' →
  (sem st < sem_cap s)%nat
  ∧ st' = set_tasks (<[i := set_phase (Handling (handleRequest mux (t_ctx t) (t_req t))) t]>
                       (tasks st)) (set_sem (S (sem st)) st).
Proof.
  intros Hok Hi Hph. unfold step, acquire. rewrite Hi, Hph.
  destruct (crashed (pc st)); [done|].
  destruct (sem st <? sem_cap s)%nat eqn:Hlt.
  - intros. simplify_eq. split; [by apply Nat.ltb_lt|done].
  - destruct (sem st) eqn:Hz; [|done].
    destruct (list_find _ _) as [[j r]|] eqn:Hfind; [|done].
    exfalso. by eapply no_blocked_receiver.
Qed.

(** C5. For a launched operation blocked in its select, in any state of
    any session:
    - the [<-ctx.Done()] case can be taken exactly when the deadline has
      passed; taking it writes the cancellation error with the request's
      ID, takes no token, and from then on the operation only exits: it
      never runs [handleRequest] and writes nothing more;
    - the send case can be taken exactly when the channel has room; taking
      it takes one token, writes nothing, and starts [handleRequest] on the
      request, which is the composed chain [Apply h middleware] called with
      the context, the server's writer and the request whenever a handler
      [h] is registered for the command, and otherwise one call of
      [WriteResponse] with the request's ID and the error "error: unknown
      command: " followed by the command.
    The cancellation error is the Response with the request's ID and the
    error "context canceled: context deadline exceeded".
    And for an operation whose handler is under way: its next action is
    always possible; it is the handler's next effect, and once the handler
    has returned it is the receive that gives the token back.  The channel
    holds exactly one token per handler invocation under way, never more
    than its capacity. *)
Theorem select_timeout_or_token (s : server) (mux : ServeMux) (d : Decoder)
    (sched : list Label) (st : State) (i : nat) (t : Task) :
  run s mux sched (init d) = Some st →
  tasks st !! i = Some t →
  (t_phase t = Waiting →
     written_by i (out st) = []
     ∧ (∀ st', step s mux (Expire i) st = Some st' →
          expired (t_ctx t) (now st) = true
          ∧ out st' = out st
              ++ [(FromTask i,
                   Response.error (Request.ID (t_req t))
                     "context canceled: context deadline exceeded")]
          ∧ sem st' = sem st
          ∧ tasks st' = <[i := set_phase Exiting t]> (tasks st)
          ∧ ∀ sched' st'', run s mux sched' st' = Some st'' →
              ∃ t'', tasks st'' !! i = Some t'' ∧ t_req t'' = t_req t
                ∧ (t_phase t'' = Exiting ∨ t_phase t'' = Finished)
                ∧ written_by i (out st'')
                  = [Response.error (Request.ID (t_req t))
                       "context canceled: context deadline exceeded"])
     ∧ (crashed (pc st) = false →
          (is_Some (step s mux (Expire i) st) ↔ deadline (t_ctx t) ≤ now st))
     ∧ (∀ st', step s mux (Acquire i) st = Some st' →
          (sem st < sem_cap s)%nat ∧ sem st' = S (sem st) ∧ out st' = out st
          ∧ tasks st'
            = <[i := set_phase (Handling (handleRequest mux (t_ctx t) (t_req t))) t]> (tasks st))
     ∧ (crashed (pc st) = false →
          (is_Some (step s mux (Acquire i) st) ↔ (sem st < sem_cap s)%nat)))
  ∧ (∀ h, m mux !! Request.Command (t_req t) = Some h →
       handleRequest mux (t_ctx t) (t_req t)
       = Apply h (middleware mux) (t_ctx t) writer (t_req t))
  ∧ (m mux !! Request.Command (t_req t) = None →
       handleRequest mux (t_ctx t) (t_req t)
       = [EWrite (Response.error (Request.ID (t_req t))
                    ("error: unknown command: " +:+ Request.Command (t_req t)))])
  ∧ (∀ todo, t_phase t = Handling todo → crashed (pc st) = false →
       ∃ st', step s mux (Run i) st = Some st'
         ∧ match todo with
           | e :: todo' =>
               tasks st' = <[i := set_phase (Handling todo') t]> (tasks st)
               ∧ sem st' = sem st
               ∧ out st' = out st ++ map (pair (FromTask i)) (writes_of [e])
           | [] =>
               tasks st' = <[i := set_phase Exiting t]> (tasks st)
               ∧ S (sem st') = sem st ∧ out st' = out st
           end)
  ∧ sem st = count holding (tasks st)
  ∧ (sem st ≤ sem_cap s)%nat.
Proof.
  intros Hrun Hi.
  assert (reachable s mux d st) as Hreach by (by exists sched).
  destruct (log_ok_reachable _ _ _ _ Hreach) as [Hok [Hlog _]].
  pose proof (sem_bounded_reachable _ _ _ _ Hreach) as Hle.
  split_and!.
  - intros Hph. split_and!.
    + specialize (Hlog i t Hi). unfold task_log_ok in Hlog. by rewrite Hph in Hlog.
    + intros st' Hstep.
      destruct (expire_Some _ _ _ _ _ _ Hi Hph Hstep) as [Hexp ->].
      split_and!; try done.
      intros sched' st'' Hrun'.
      refine (past_select_run s mux i (t_req t) _ sched' _ st'' _ _ Hrun').
      * by eapply counters_ok_step.
      * eexists. simpl. rewrite list_lookup_insert_eq by (by eapply lookup_lt_Some).
        split_and!; try done; [by left|].
        specialize (Hlog i t Hi). unfold task_log_ok in Hlog. rewrite Hph in Hlog.
        rewrite written_by_snoc, Hlog. unfold from_task. simpl. by rewrite Nat.eqb_refl.
    + intros Hcr. unfold step, expire, expired. rewrite Hcr, Hi, Hph.
      case_bool_decide; split; intros; try done;
      match goal with H : is_Some None |- _ => by destruct H end.
    + intros st' Hstep.
      by destruct (acquire_Some _ _ _ _ _ _ Hok Hi Hph Hstep) as [Hlt ->].
    + intros Hcr. split.
      * intros [st' Hstep]. by destruct (acquire_Some _ _ _ _ _ _ Hok Hi Hph Hstep).
      * intros Hlt. unfold step, acquire. rewrite Hcr, Hi, Hph.
        apply Nat.ltb_lt in Hlt. by rewrite Hlt.
  - intros h Hh. unfold handleRequest. by rewrite Hh.
  - intros Hnone. unfold handleRequest. by rewrite Hnone.
  - intros todo Hph Hcr. unfold step, run_task. rewrite Hcr, Hi, Hph.
    destruct todo as [|e todo'].
    + assert (0 < sem st)%nat as Hpos.
      { destruct Hok as (_ & -> & _). eapply count_pos; [done|]. unfold holding. by rewrite Hph. }
      destruct (sem st) as [|n]; [lia|]. eexists. split; [done|]. done.
    + eexists. split; [done|]. simpl. by perform_simpl.
  - by destruct Hok as (_ & ? & _).
  - done.
Qed.

Lemma select_timeout_or_token_witness :
  ∃ st, run (newServer [WithConcurrency 1]) sample_mux [Main; Main; Main] (init scenario_1)
        = Some st
    ∧ sem st = count holding (tasks st) ∧ (sem st ≤ 1)%nat.
Proof.
  assert (∃ st t, run (newServer [WithConcurrency 1]) sample_mux [Main; Main; Main]
                    (init scenario_1) = Some st ∧ tasks st !! 0%nat = Some t)
    as (st & t & Hrun & Hi) by (eexists; eexists; split; vm_compute; reflexivity).
  exists st. split; [exact Hrun|].
  by destruct (select_timeout_or_token (newServer [WithConcurrency 1]) sample_mux scenario_1
                 [Main; Main; Main] st 0 t Hrun Hi) as (_ & _ & _ & _ & Hsem & Hle).
Defined.

(** C5, counterexamples.  With a timeout of two ticks and a peer silent
    for two ticks, the get is launched with its deadline already passed and
    no token taken; its select can still take the send case, and then the
    handler runs.  And with only a get handler registered, the operation
    launched for a put takes a token and runs no handler chain. *)
Lemma select_may_take_token_after_deadline :
  (∃ st, run (newServer [WithResponseTimeout 2]) sample_mux [Main; Main; Tick; Tick; Main]
           (init scenario_1) = Some st
     ∧ ¬ timeout_excludes_handler (newServer [WithResponseTimeout 2]) sample_mux st)
  ∧ (∃ st, run (newServer []) get_only_mux [Main; Main; Main; Main] (init scenario_put) = Some st
       ∧ ¬ token_runs_chain (newServer []) get_only_mux st).
Proof.
  split.
  - eexists. split; [vm_compute; reflexivity|].
    intros Hclaim.
    specialize (Hclaim 0%nat _ eq_refl eq_refl eq_refl [Acquire 0%nat]).
    vm_compute in Hclaim. specialize (Hclaim _ _ eq_refl eq_refl). discriminate.
  - eexists. split; [vm_compute; reflexivity|].
    intros Hclaim.
    destruct (Hclaim 0%nat _ _ eq_refl eq_refl) as (h & Hh & _).
    vm_compute in Hh. discriminate.
Qed.

(** ** A pool without tokens *)



Lemma newServer_snoc (opts : list serverOption) (opt : serverOption) :
  newServer (opts ++ [opt]) = opt (newServer opts).
Proof. unfold newServer. by rewrite fold_left_app. Qed.




(** ** Waiting for the goroutines *)

Lemma all_finished_iff (st : State) :
  counters_ok st → (wg st = 0%nat ↔ all_finished st).
Proof.
  intros (Hwg & _). rewrite Hwg. split.
  - intros Hz i t Hi. pose proof (count_zero unfinished _ _ _ Hz Hi) as Hu.
    unfold unfinished, finished in Hu. by destruct (t_phase t).
  - intros Hall. destruct (count unfinished (tasks st)) eqn:Hc; [done|].
    destruct (count_pos_exists unfinished (tasks st)) as (i & t & Hi & Hu); [lia|].
    unfold unfinished, finished in Hu. by rewrite (Hall i t Hi) in Hu.
Qed.

(** Once all goroutines have finished only the clock and the dispatcher
    move. *)
Lemma finished_only_main (s : server) (mux : ServeMux) (l : Label) (st st' : State) :
  all_finished st → step s mux l st = Some st' →
  (l = Tick ∧ st' = set_now (now st + 1) st) ∨ (l = Main ∧ serve_step s mux st = Some st').
Proof.
  intros Hall Hstep. unfold step in Hstep.
  destruct (crashed (pc st)); [done|].
  destruct l as [| |i|i|i]; [left; by simplify_eq|by right|..]; exfalso.
  all: revert Hstep; unfold acquire, expire, run_task.
  all: destruct (tasks st !! i) as [t|] eqn:Hi; [|done].
  all: by rewrite (Hall i t Hi).
Qed.

Lemma after_decode_error_step (s : server) (mux : ServeMux) (err : string)
    (o1 : list (Src * Response.t)) (n : nat) (l : Label) (st st' : State) :
  counters_ok st → after_decode_error err o1 n st → step s mux l st = Some st' →
  after_decode_error err o1 n st'.
Proof.
  intros Hok Hinv Hstep.
  step_inv Hstep; try impossible.
  all: destruct Hinv as ((more & Hout & Hmore) & Hlen & Hpc).
  all: try (destruct Hpc; congruence).
  all: try match goal with H : pc _ = PWaitErr _ |- _ =>
             destruct Hpc as [Hpc|Hpc]; rewrite Hpc in H; simplify_eq end.
  all: unfold after_decode_error, asyncHandleRequest, WriteResponse; simpl; perform_simpl.
  all: rewrite ?length_insert.
  all: try (split_and!; [by exists more|done|by auto]).
  all: split_and!; try done.
  all: rewrite Hout, <- app_assoc; eexists; split; [reflexivity|].
  all: apply Forall_app; split; [done|].
  - by repeat constructor.
  - apply Forall_forall. intros x Hx. apply list_elem_of_fmap in Hx as [r [-> _]]. done.
Qed.

(** C6. When [Decode] of the next message fails, the dispatcher writes
    nothing and goes to wait for the goroutines.  From then on, whatever
    happens: the output grows only by what goroutines write, no goroutine
    is started, and the dispatcher either still waits, being able to go on
    exactly when all goroutines have finished, or has returned the decode
    error wrapped as an invalid request, with all goroutines finished.
    And it can always get there. *)
Theorem decode_failure_drains_then_returns (s : server) (mux : ServeMux) (d : Decoder)
    (sched : list Label) (st : State) (ctx : Ctx) (err : string) (d' : Decoder) :
  run s mux sched (init d) = Some st →
  pc st = PDecode ctx →
  decodeRequest (decoder st) = (DecErr err, d') →
  ∃ st1, step s mux Main st = Some st1
    ∧ out st1 = out st ∧ tasks st1 = tasks st ∧ pc st1 = PWaitErr err
    ∧ (∀ sched' st2, run s mux sched' st1 = Some st2 →
         (∃ more, out st2 = out st1 ++ more ∧ Forall (λ e, from_any_task e = true) more)
         ∧ length (tasks st2) = length (tasks st1)
         ∧ ((pc st2 = PWaitErr err
             ∧ (is_Some (step s mux Main st2) ↔ all_finished st2)
             ∧ ∀ st3, step s mux Main st2 = Some st3 →
                 out st3 = out st2
                 ∧ pc st3 = PReturn (Some ("error: invalid request: " +:+ err)))
            ∨ (pc st2 = PReturn (Some ("error: invalid request: " +:+ err))
               ∧ all_finished st2)))
    ∧ (∃ sched' st2, run s mux sched' st1 = Some st2
         ∧ pc st2 = PReturn (Some ("error: invalid request: " +:+ err))).
Proof.
  intros Hrun Hpc Hdec.
  assert (reachable s mux d st) as Hreach by (by exists sched).
  pose proof (counters_ok_reachable _ _ _ _ Hreach) as Hok.
  assert (step s mux Main st = Some (set_pc (PWaitErr err) (set_decoder d' st))) as Hstep.
  { unfold step, serve_step. by rewrite Hpc, Hdec. }
  pose proof (counters_ok_step _ _ _ _ _ Hok Hstep) as Hok1.
  eexists. split; [exact Hstep|]. split_and!; try done.
  - intros sched' st2 Hrun2.
    pose proof (counters_ok_run _ _ _ _ _ Hok1 Hrun2) as Hok2.
    assert (after_decode_error err (out st) (length (tasks st)) st2)
      as (Hmore & Hlen & Hpc2).
    { refine (proj2 (run_invariant s mux
                (λ x, counters_ok x ∧ after_decode_error err (out st) (length (tasks st)) x)
                _ sched' _ st2 _ Hrun2)).
      - intros l sa sb [Hc Ha] Hl.
        split; [by eapply counters_ok_step|by eapply after_decode_error_step].
      - split; [done|]. split_and!; [exists []; by rewrite app_nil_r|done|by left]. }
    simpl. split_and!; try done.
    destruct Hpc2 as [Hw|Hr].
    + left. split; [done|].
      unfold step, serve_step. rewrite Hw. simpl.
      rewrite <- (all_finished_iff st2 Hok2). split.
      * destruct (wg st2); split; try done; by intros [? ?].
      * intros st3. destruct (wg st2); [|done]. intros. by simplify_eq.
    + right. split; [done|]. apply all_finished_iff; [done|].
      destruct Hok2 as (_ & _ & Hdr). apply Hdr. by rewrite Hr.
  - destruct (drain s mux _ _ Hok1 eq_refl eq_refl) as (sched' & st2 & Hrun2 & Hz & _ & Hpc2 & _).
    pose proof (counters_ok_run _ _ _ _ _ Hok1 Hrun2) as (Hwg & _).
    exists (sched' ++ [Main]). eexists. rewrite run_app, Hrun2. simpl.
    unfold step, serve_step. rewrite Hpc2. simpl. rewrite Hwg, Hz. done.
Qed.

Lemma decode_failure_drains_then_returns_witness :
  ∃ st1, step (newServer []) sample_mux Main
           (at_decode (mkCtx 30) [MMalformed "invalid character 'x'"]) = Some st1
    ∧ out st1 = [] ∧ pc st1 = PWaitErr "invalid character 'x'".
Proof.
  destruct (decode_failure_drains_then_returns (newServer []) sample_mux
              [MMalformed "invalid character 'x'"] [Main; Main]
              (mkState 0 [MMalformed "invalid character 'x'"] [(FromAck, ack_response sample_mux)]
                 [] 0 0 [] (PDecode (mkCtx defaultTimeout)))
              (mkCtx defaultTimeout) "invalid character 'x'"
              [MMalformed "invalid character 'x'"])
    as (st1 & Hstep & _); [by vm_compute|done|done|].
  eexists. split; [reflexivity|]. done.
Defined.

(** ** Close *)

Lemma no_close_snoc (o : list (Src * Response.t)) (src : Src) (r : Response.t) :
  src ≠ FromClose → no_close o → no_close (o ++ [(src, r)]).
Proof.
  intros Hsrc Ho. apply Forall_app. split; [done|]. apply Forall_singleton.
  unfold from_close. simpl. by destruct src.
Qed.

Lemma no_close_task (o : list (Src * Response.t)) (i : nat) (rs : list Response.t) :
  no_close o → no_close (o ++ map (pair (FromTask i)) rs).
Proof.
  intros Ho. apply Forall_app. split; [done|]. apply Forall_forall.
  intros x Hx. apply list_elem_of_fmap in Hx as [r [-> _]]. done.
Qed.

Lemma close_inv_step (s : server) (mux : ServeMux) (l : Label) (st st' : State) :
  counters_ok st → cmds_ok st → close_inv mux st → step s mux l st = Some st' →
  close_inv mux st'.
Proof.
  intros Hok Hcmd Hinv Hstep.
  destruct (drained (pc st)) eqn:Hdr.
  - pose proof (proj1 (all_finished_iff st Hok) (proj2 (proj2 Hok) Hdr)) as Hall.
    destruct (finished_only_main _ _ _ _ _ Hall Hstep) as [[-> ->]|[-> Hmain]]; [done|].
    unfold serve_step in Hmain. unfold close_inv in *.
    destruct (pc st) as [| | | | | |[|e todo]|[err|]|] eqn:Hpc; try done.
    + simplify_eq. simpl.
      destruct Hinv as (ctx & req & pre & written & Hreq & Hout & Hpre & Hw).
      exists ctx, req, pre. rewrite app_nil_r in Hw. by rewrite <- Hw.
    + simplify_eq. simpl. perform_simpl.
      destruct Hinv as (ctx & req & pre & written & Hreq & Hout & Hpre & Hw).
      exists ctx, req, pre, (written ++ writes_of [e]). split_and!; try done.
      * by rewrite Hout, map_app, app_assoc.
      * rewrite <- Hw, <- app_assoc. f_equal. unfold writes_of. simpl. by rewrite app_nil_r.
  - step_inv Hstep; try impossible; try done.
    all: unfold close_inv, asyncHandleRequest, WriteResponse in *; simpl; perform_simpl.
    all: repeat match goal with H : pc _ = _ |- _ => rewrite H in * end; try done.
    all: try (by apply no_close_snoc).
    all: try (by destruct Hcmd as [_ Hc]; rewrite ?Hpc in Hc).
    + destruct Hinv as [Hreq Hpre].
      exists ctx, req, (out st), []. by rewrite app_nil_r.
    + destruct (pc st) as [| | | | | |?|[?|]|]; try done.
      all: try (by apply no_close_snoc).
      destruct Hinv. split; [done|]. by apply no_close_snoc.
    + destruct (pc st) as [| | | | | |?|[?|]|]; try done.
      all: try (by apply no_close_task).
      destruct Hinv. split; [done|]. by apply no_close_task.
Qed.

Lemma close_inv_reachable (s : server) (mux : ServeMux) (d : Decoder) (st : State) :
  reachable s mux d st → close_inv mux st.
Proof.
  intros [sched Hrun].
  refine (proj2 (proj2 (run_invariant s mux
            (λ st, counters_ok st ∧ cmds_ok st ∧ close_inv mux st) _ sched (init d) st _ Hrun))).
  - intros l st1 st2 (Hc & Hm & Hl) Hstep. split_and!.
    + by eapply counters_ok_step.
    + by eapply cmds_ok_step.
    + by eapply close_inv_step.
  - split_and!; [apply counters_ok_init|split; [constructor|done]|constructor].
Qed.

(** Running the close handler to its end. *)
Lemma run_close (s : server) (mux : ServeMux) (todo : list Effect) :
  ∀ st, pc st = PClose todo →
  ∃ st', run s mux (repeat Main (S (length todo))) st = Some st' ∧ pc st' = PReturn None.
Proof.
  induction todo as [|e todo IH]; intros st Hpc.
  - eexists. simpl. unfold step, serve_step. rewrite Hpc. simpl. done.
  - destruct (IH (set_pc (PClose todo) (perform FromClose e st)) eq_refl) as (st' & Hrun & Hpc').
    exists st'. split; [|done].
    change (repeat Main (S (length (e :: todo)))) with (Main :: repeat Main (S (length todo))).
    cbn [run]. unfold step, serve_step. rewrite Hpc. simpl. exact Hrun.
Qed.

Lemma returned_stable (s : server) (mux : ServeMux) (r : option string)
    (o : list (Src * Response.t)) (sched : list Label) (st st' : State) :
  all_finished st ∧ pc st = PReturn r ∧ out st = o →
  run s mux sched st = Some st' →
  all_finished st' ∧ pc st' = PReturn r ∧ out st' = o.
Proof.
  apply (run_invariant s mux (λ st, all_finished st ∧ pc st = PReturn r ∧ out st = o)).
  clear. intros l st st' (Hall & Hpc & Hout) Hstep.
  destruct (finished_only_main _ _ _ _ _ Hall Hstep) as [[-> ->]|[-> Hmain]]; [done|].
  unfold serve_step in Hmain. by rewrite Hpc in Hmain.
Qed.

(** C2. In every state of every session:
    - a dispatcher that has decoded a close can go on exactly when every
      goroutine started so far has finished; going on starts
      [handleRequest] for the close on the dispatcher itself and writes
      nothing yet; and it can always get to the end of [serve];
    - while the close is handled and after [serve] has returned from it,
      all goroutines have finished;
    - the output is what the announcement, the read loop and the
      goroutines have written, followed by what the close handler has
      written, and the latter is empty unless the close is being or has
      been handled;
    - once [serve] has returned from a close the output ends with what
      [handleRequest] wrote for the close, which is one Response with the
      ID of the close when the handler chains keep their contract, and
      nothing is written any more. *)
Theorem close_response_is_last (s : server) (mux : ServeMux) (d : Decoder)
    (sched : list Label) (st : State) :
  run s mux sched (init d) = Some st →
  (∀ ctx req, pc st = PWaitClose ctx req →
     Request.Command req = CmdClose
     ∧ (is_Some (step s mux Main st) ↔ all_finished st)
     ∧ (∀ st', step s mux Main st = Some st' →
          pc st' = PClose (handleRequest mux ctx req) ∧ out st' = out st)
     ∧ ∃ sched' st', run s mux sched' st = Some st' ∧ pc st' = PReturn None)
  ∧ (closing (pc st) = true → all_finished st)
  ∧ (∃ pre written,
       out st = pre ++ map (pair FromClose) written ∧ no_close pre
       ∧ (written ≠ [] → closing (pc st) = true ∧ all_finished st))
  ∧ (pc st = PReturn None →
     ∃ ctx req pre,
       Request.Command req = CmdClose
       ∧ out st = pre ++ map (pair FromClose) (writes_of (handleRequest mux ctx req))
       ∧ no_close pre
       ∧ (answers_once mux →
            ∃ res, out st = pre ++ [(FromClose, res)]
                   ∧ Response.ID res = Request.ID req)
       ∧ ∀ sched' st', run s mux sched' st = Some st' →
           out st' = out st ∧ pc st' = PReturn None).
Proof.
  intros Hrun.
  assert (reachable s mux d st) as Hreach by (by exists sched).
  pose proof (counters_ok_reachable _ _ _ _ Hreach) as Hok.
  pose proof (close_inv_reachable _ _ _ _ Hreach) as Hinv.
  assert (closing (pc st) = true → all_finished st) as Hclosing.
  { intros Hc. apply all_finished_iff; [done|]. destruct Hok as (_ & _ & Hdr). apply Hdr.
    by destruct (pc st) as [| | | | | |?|[?|]|]. }
  split_and!.
  - intros ctx req Hpc. unfold close_inv in Hinv. rewrite Hpc in Hinv.
    destruct Hinv as [Hreq _]. split_and!; try done.
    + rewrite <- (all_finished_iff st Hok). unfold step, serve_step. rewrite Hpc. simpl.
      destruct (wg st); split; try done; by intros [? ?].
    + intros st'. unfold step, serve_step. rewrite Hpc. simpl.
      destruct (wg st); [|done]. intros. by simplify_eq.
    + destruct (drain s mux (count unfinished (tasks st)) st Hok)
        as (sched1 & st1 & Hrun1 & Hz & _ & Hpc1 & _); [by rewrite Hpc|done|].
      pose proof (counters_ok_run _ _ _ _ _ Hok Hrun1) as (Hwg & _).
      destruct (run_close s mux (handleRequest mux ctx req)
                  (set_pc (PClose (handleRequest mux ctx req)) st1) eq_refl)
        as (st2 & Hrun2 & Hpc2).
      exists (sched1 ++ Main :: repeat Main (S (length (handleRequest mux ctx req)))), st2.
      split; [|done]. rewrite run_app, Hrun1. cbn [mbind option_bind run].
      unfold step at 1, serve_step. rewrite Hpc1, Hpc. simpl. rewrite Hwg, Hz. exact Hrun2.
  - done.
  - unfold close_inv in Hinv.
    destruct (pc st) as [| | | | | |todo|[err|]|] eqn:Hpc.
    all: try (exists (out st), []; rewrite app_nil_r; split_and!; [done|done|by intros []]).
    + exists (out st), []. rewrite app_nil_r. destruct Hinv. split_and!; [done|done|by intros []].
    + destruct Hinv as (ctx & req & pre & written & _ & Hout & Hpre & _).
      exists pre, written. split_and!; try done. intros _. split; [done|]. by apply Hclosing.
    + destruct Hinv as (ctx & req & pre & _ & Hout & Hpre).
      eexists pre, _. split_and!; try done. intros _. split; [done|]. by apply Hclosing.
  - intros Hpc. unfold close_inv in Hinv. rewrite Hpc in Hinv.
    destruct Hinv as (ctx & req & pre & Hreq & Hout & Hpre).
    exists ctx, req, pre. split_and!; try done.
    { intros Honce. destruct (handleRequest_once mux ctx req Honce) as (res & Hres & Hid).
      exists res. by rewrite Hout, Hres. }
    intros sched' st' Hrun'.
    destruct (returned_stable s mux None (out st) sched' st st') as (_ & ? & ?); try done.
    split_and!; try done. apply Hclosing. by rewrite Hpc.
Qed.

Lemma close_response_is_last_witness :
  ∃ st, run (newServer []) sample_mux scenario_3_schedule (init scenario_3) = Some st
    ∧ pc st = PReturn None
    ∧ ∃ pre written, out st = pre ++ map (pair FromClose) written ∧ no_close pre.
Proof.
  assert (∃ st, run (newServer []) sample_mux scenario_3_schedule (init scenario_3) = Some st
                ∧ pc st = PReturn None)
    as (st & Hrun & Hpc) by (eexists; split; vm_compute; reflexivity).
  exists st. split; [exact Hrun|]. split; [exact Hpc|].
  destruct (close_response_is_last (newServer []) sample_mux scenario_3 scenario_3_schedule
              st Hrun) as (_ & _ & (pre & written & Hout & Hpre & _) & _).
  by exists pre, written.
Defined.

(** * Further properties of the engine *)

(** ** Bounded parallelism *)

(** X1. In every state of every session the number of launched
    operations that are inside [handleRequest], or have left it without
    having given their token back yet, is the number of tokens in the
    channel, and never exceeds the configured concurrency. *)
Theorem handlers_bounded_by_pool (s : server) (mux : ServeMux) (d : Decoder)
    (sched : list Label) (st : State) :
  run s mux sched (init d) = Some st →
  count holding (tasks st) = sem st ∧ (count holding (tasks st) ≤ sem_cap s)%nat.
Proof.
  intros Hrun. assert (reachable s mux d st) as Hreach by (by exists sched).
  destruct (counters_ok_reachable _ _ _ _ Hreach) as (_ & Hsem & _).
  pose proof (sem_bounded_reachable _ _ _ _ Hreach). split; [done|lia].
Qed.

Lemma handlers_bounded_by_pool_witness :
  ∃ st, run (newServer [WithConcurrency 1]) sample_mux
          [Main; Main; Main; Main; Main; Acquire 1] (init scenario_3) = Some st
    ∧ (count holding (tasks st) ≤ 1)%nat.
Proof.
  assert (∃ st, run (newServer [WithConcurrency 1]) sample_mux
                  [Main; Main; Main; Main; Main; Acquire 1] (init scenario_3) = Some st)
    as [st Hrun] by (eexists; vm_compute; reflexivity).
  exists st. split; [exact Hrun|].
  by destruct (handlers_bounded_by_pool _ _ _ _ _ Hrun).
Defined.

(** ** How long an operation can wait *)

(** X2. In every state of every session, the deadline of every launched
    operation is at most its launch time plus the configured timeout, and
    an operation still in its select when that much time has passed since
    its launch can take the timeout case. *)
Theorem deadline_within_timeout_of_launch (s : server) (mux : ServeMux) (d : Decoder)
    (sched : list Label) (st : State) (i : nat) (t : Task) :
  run s mux sched (init d) = Some st →
  tasks st !! i = Some t →
  deadline (t_ctx t) ≤ t_launched t + timeout s
  ∧ t_launched t ≤ now st
  ∧ (t_phase t = Waiting → crashed (pc st) = false →
     t_launched t + timeout s ≤ now st →
     is_Some (step s mux (Expire i) st)).
Proof.
  intros Hrun Hi. assert (reachable s mux d st) as Hreach by (by exists sched).
  destruct (deadlines_ok_reachable _ _ _ _ Hreach) as [Hts _].
  rewrite Forall_lookup in Hts. destruct (Hts i t Hi) as [Hdl Hla].
  split_and!; try done.
  intros Hph Hcr Hlate. unfold step, expire, expired. rewrite Hcr, Hi, Hph.
  rewrite bool_decide_eq_true_2 by lia. done.
Qed.

Lemma deadline_within_timeout_of_launch_witness :
  ∃ st t, run (newServer []) sample_mux [Main; Main; Tick; Main] (init scenario_1) = Some st
    ∧ tasks st !! 0%nat = Some t
    ∧ deadline (t_ctx t) ≤ t_launched t + timeout (newServer []).
Proof.
  assert (∃ st t, run (newServer []) sample_mux [Main; Main; Tick; Main] (init scenario_1)
                  = Some st ∧ tasks st !! 0%nat = Some t)
    as (st & t & Hrun & Hi) by (eexists; eexists; split; vm_compute; reflexivity).
  exists st, t. split; [exact Hrun|]. split; [exact Hi|].
  by destruct (deadline_within_timeout_of_launch _ _ _ _ _ _ _ Hrun Hi).
Defined.

(** ** What a step leaves in place *)

Lemma decodeRequest_suffix (d d' : Decoder) (r : Decoded (option Request.t)) :
  decodeRequest d = (r, d') → ∃ consumed, d = consumed ++ d'.
Proof.
  destruct d as [|[?|?| |?|?] d0]; simpl; intros; simplify_eq;
    first [by exists []|by eexists [_]].
Qed.

Lemma decodeString_suffix (d d' : Decoder) (r : Decoded string) :
  decodeString d = (r, d') → ∃ consumed, d = consumed ++ d'.
Proof.
  destruct d as [|[?|?| |?|?] d0]; simpl; intros; simplify_eq;
    first [by exists []|by eexists [_]].
Qed.

Lemma decodePutBody_suffix (req req' : Request.t) (d d' : Decoder) (e : option string) :
  decodePutBody req d = (e, req', d') → ∃ consumed, d = consumed ++ d'.
Proof.
  unfold decodePutBody. case_decide.
  - intros. simplify_eq. by exists [].
  - destruct (decodeString d) as [[src|err] d0] eqn:Hd; intros; simplify_eq;
      by eapply decodeString_suffix.
Qed.

Lemma launch_data_insert2 (l : list Task) (i j : nat) (t u : Task) (p q : Phase) :
  l !! i = Some t → l !! j = Some u →
  map launch_data (<[i := set_phase p t]> (<[j := set_phase q u]> l)) = map launch_data l.
Proof.
  intros Hi Hj. destruct (decide (i = j)) as [->|Hne].
  - rewrite list_insert_insert_eq. by apply launch_data_insert.
  - rewrite launch_data_insert by (by rewrite list_lookup_insert_ne).
    by apply launch_data_insert.
Qed.

Ltac continues_tac :=
  unfold continues, asyncHandleRequest; simpl; perform_simpl;
  split_and!; try lia;
  first [assumption
        |exists []; rewrite app_nil_r; done
        |exists []; reflexivity
        |eexists [_]; reflexivity
        |eexists; reflexivity
        |eexists; eassumption
        |eexists; rewrite map_app; reflexivity
        |exists []; rewrite app_nil_r; apply launch_data_insert; done
        |exists []; rewrite app_nil_r; apply launch_data_insert2; done].

Lemma continues_step (s : server) (mux : ServeMux) (l : Label) (st st' : State) :
  step s mux l st = Some st' → continues st st'.
Proof.
  intros Hstep. unfold step, serve_step in Hstep.
  destruct (crashed (pc st)); [done|].
  destruct l as [| |i|i|i].
  - simplify_eq. continues_tac.
  - destruct (pc st) as [| |ctx|ctx req|err|ctx req|[|e todo]|r|]; simplify_eq.
    + continues_tac.
    + continues_tac.
    + destruct (decodeRequest (decoder st)) as [[[req|]|err] d'] eqn:Hd.
      all: pose proof (decodeRequest_suffix _ _ _ Hd) as Hsuf.
      all: repeat case_decide; simplify_eq; continues_tac.
    + destruct (decodePutBody req (decoder st)) as [[[err|] req'] d'] eqn:Hd.
      all: pose proof (decodePutBody_suffix _ _ _ _ _ Hd) as Hsuf.
      all: simplify_eq; continues_tac.
    + destruct (wg st); simplify_eq. continues_tac.
    + destruct (wg st); simplify_eq. continues_tac.
    + continues_tac.
    + continues_tac.
  - unfold acquire in Hstep.
    destruct (tasks st !! i) as [t|] eqn:Hi; [|done].
    destruct (t_phase t); try done.
    destruct (sem st <? sem_cap s)%nat.
    + simplify_eq. continues_tac.
    + destruct (sem st); [|done].
      destruct (list_find _ _) as [[j r]|] eqn:Hfind; [|done]. simplify_eq.
      apply list_find_Some in Hfind as (Hj & _). continues_tac.
  - unfold expire in Hstep.
    destruct (tasks st !! i) as [t|] eqn:Hi; [|done].
    destruct (t_phase t); try done.
    destruct (expired _ _); [|done]. simplify_eq. continues_tac.
  - unfold run_task in Hstep.
    destruct (tasks st !! i) as [t|] eqn:Hi; [|done].
    destruct (t_phase t) as [|[|e todo]| |]; try done.
    + destruct (sem st); [done|]. simplify_eq. continues_tac.
    + simplify_eq. continues_tac.
    + destruct (wg st); simplify_eq; continues_tac.
Qed.

(** ** Where the dispatcher can block *)

(** X5. In every state of a live session the dispatcher has a next
    action unless [serve] has returned or it stands in one of its two
    [wg.Wait()] calls with a goroutine unfinished.  In particular it never
    waits for a token: whatever the channel holds, the next message can be
    decoded. *)
Theorem dispatcher_blocks_only_in_wait (s : server) (mux : ServeMux) (d : Decoder)
    (sched : list Label) (st : State) :
  run s mux sched (init d) = Some st →
  crashed (pc st) = false →
  (step s mux Main st = None
   ↔ (∃ r, pc st = PReturn r)
     ∨ (((∃ err, pc st = PWaitErr err) ∨ (∃ ctx req, pc st = PWaitClose ctx req))
        ∧ ¬ all_finished st)).
Proof.
  intros Hrun Hcr. assert (reachable s mux d st) as Hreach by (by exists sched).
  pose proof (counters_ok_reachable _ _ _ _ Hreach) as Hok.
  pose proof (all_finished_iff st Hok) as Hfin.
  unfold step, serve_step. rewrite Hcr.
  destruct (pc st) as [| |ctx|ctx req|err|ctx req|[|e todo]|r|] eqn:Hpc.
  all: try (split; [done|intros [[? ?]|[[[? ?]|(? & ? & ?)] _]]; done]).
  - destruct (decodeRequest (decoder st)) as [[[req|]|err] d']; repeat case_decide.
    all: split; [done|intros [[? ?]|[[[? ?]|(? & ? & ?)] _]]; done].
  - destruct (decodePutBody req (decoder st)) as [[[err|] req'] d'].
    all: split; [done|intros [[? ?]|[[[? ?]|(? & ? & ?)] _]]; done].
  - destruct (wg st) eqn:Hwg.
    + split; [done|]. intros [[? ?]|[_ Hnot]]; [done|]. destruct Hnot. by apply Hfin.
    + split; [|done]. intros _. right. split; [left; by eexists|].
      intros Hall. apply Hfin in Hall. lia.
  - destruct (wg st) eqn:Hwg.
    + split; [done|]. intros [[? ?]|[_ Hnot]]; [done|]. destruct Hnot. by apply Hfin.
    + split; [|done]. intros _. right. split; [right; by eexists _, _|].
      intros Hall. apply Hfin in Hall. lia.
  - split; [|done]. intros _. left. by eexists.
Qed.

Lemma dispatcher_blocks_only_in_wait_witness :
  ∃ st, run (newServer []) sample_mux [Main; Main; Main; Main; Main; Main; Main]
          (init scenario_3) = Some st
    ∧ step (newServer []) sample_mux Main st = None.
Proof.
  assert (∃ st ctx req, run (newServer []) sample_mux [Main; Main; Main; Main; Main; Main; Main]
                  (init scenario_3) = Some st
                ∧ crashed (pc st) = false ∧ pc st = PWaitClose ctx req
                ∧ tasks st !! 0%nat
                  = Some (mkTask (mkCtx defaultTimeout) (sample_request 1 CmdGet 0) 0 Waiting))
    as (st & ctx & req & Hrun & Hcr & Hpc & Ht)
    by (eexists; eexists; eexists; split_and!; vm_compute; reflexivity).
  exists st. split; [exact Hrun|].
  apply (dispatcher_blocks_only_in_wait _ _ _ _ _ Hrun Hcr).
  right. split; [right; by eexists _, _|].
  intros Hall. by specialize (Hall _ _ Ht).
Defined.

(** ** Every session can end *)

Lemma end_from_wait_err (s : server) (mux : ServeMux) (st : State) (err : string) :
  counters_ok st → pc st = PWaitErr err →
  ∃ sched st', run s mux sched st = Some st' ∧ pc st' = PReturn (Some (invalid_request err)).
Proof.
  intros Hok Hpc.
  destruct (drain s mux (count unfinished (tasks st)) st Hok)
    as (sched1 & st1 & Hrun1 & Hz & _ & Hpc1 & _); [by rewrite Hpc|done|].
  pose proof (counters_ok_run _ _ _ _ _ Hok Hrun1) as (Hwg & _).
  exists (sched1 ++ [Main]). eexists. rewrite run_app, Hrun1. simpl.
  unfold step, serve_step. rewrite Hpc1, Hpc. simpl. rewrite Hwg, Hz. done.
Qed.

Lemma end_from_wait_close (s : server) (mux : ServeMux) (st : State)
    (ctx : Ctx) (req : Request.t) :
  counters_ok st → pc st = PWaitClose ctx req →
  ∃ sched st', run s mux sched st = Some st' ∧ pc st' = PReturn None.
Proof.
  intros Hok Hpc.
  destruct (drain s mux (count unfinished (tasks st)) st Hok)
    as (sched1 & st1 & Hrun1 & Hz & _ & Hpc1 & _); [by rewrite Hpc|done|].
  pose proof (counters_ok_run _ _ _ _ _ Hok Hrun1) as (Hwg & _).
  destruct (run_close s mux (handleRequest mux ctx req)
              (set_pc (PClose (handleRequest mux ctx req)) st1) eq_refl)
    as (st2 & Hrun2 & Hpc2).
  exists (sched1 ++ Main :: repeat Main (S (length (handleRequest mux ctx req)))), st2.
  split; [|done]. rewrite run_app, Hrun1. cbn [mbind option_bind run].
  unfold step at 1, serve_step. rewrite Hpc1, Hpc. simpl. rewrite Hwg, Hz. exact Hrun2.
Qed.

Lemma decodePutBody_length (req req' : Request.t) (d d' : Decoder) (e : option string) :
  decodePutBody req d = (e, req', d') → (length d' ≤ length d)%nat.
Proof.
  intros H. destruct (decodePutBody_suffix _ _ _ _ _ H) as [c ->].
  rewrite length_app. lia.
Qed.

Lemma end_from_loop (s : server) (mux : ServeMux) (n : nat) :
  ∀ st, (loop_measure st ≤ n)%nat → counters_ok st →
    (pc st = PLoop ∨ (∃ ctx, pc st = PDecode ctx) ∨ (∃ ctx req, pc st = PBody ctx req)) →
    ∃ sched st', run s mux sched st = Some st' ∧ ended (pc st') = true.
Proof.
  induction n as [n IH] using lt_wf_ind. intros st Hm Hok Hpc.
  assert (∀ st1 sched1, step s mux Main st = Some st1 →
            (∃ st', run s mux sched1 st1 = Some st' ∧ ended (pc st') = true) →
            ∃ sched st', run s mux sched st = Some st' ∧ ended (pc st') = true) as Hcons.
  { intros st1 sched1 Hstep (st' & Hrun & Hend).
    exists (Main :: sched1), st'. simpl. by rewrite Hstep. }
  assert (∀ st1, step s mux Main st = Some st1 →
            (loop_measure st1 < loop_measure st)%nat →
            (pc st1 = PLoop ∨ (∃ ctx, pc st1 = PDecode ctx) ∨ (∃ ctx req, pc st1 = PBody ctx req)) →
            ∃ sched st', run s mux sched st = Some st' ∧ ended (pc st') = true) as Hnext.
  { intros st1 Hstep Hlt Hpc1.
    destruct (IH (loop_measure st1) ltac:(lia) st1 ltac:(lia)
                (counters_ok_step _ _ _ _ _ Hok Hstep) Hpc1) as (sched1 & st' & Hrun & Hend).
    eapply Hcons; [done|by exists st']. }
  assert (∀ st1 err, step s mux Main st = Some st1 → pc st1 = PWaitErr err →
            ∃ sched st', run s mux sched st = Some st' ∧ ended (pc st') = true) as Herr.
  { intros st1 err Hstep Hpc1.
    destruct (end_from_wait_err s mux st1 err) as (sched1 & st' & Hrun & Hret);
      [by eapply counters_ok_step|done|].
    eapply Hcons; [done|]. exists st'. split; [done|]. by rewrite Hret. }
  assert (∀ st1 ctx req, step s mux Main st = Some st1 → pc st1 = PWaitClose ctx req →
            ∃ sched st', run s mux sched st = Some st' ∧ ended (pc st') = true) as Hclose.
  { intros st1 ctx req Hstep Hpc1.
    destruct (end_from_wait_close s mux st1 ctx req) as (sched1 & st' & Hrun & Hret);
      [by eapply counters_ok_step|done|].
    eapply Hcons; [done|]. exists st'. split; [done|]. by rewrite Hret. }
  clear IH Hm.
  destruct Hpc as [Hloop|[[ctx Hctx]|(ctx & req & Hbody)]].
  - eapply Hnext.
    + unfold step, serve_step. by rewrite Hloop.
    + unfold loop_measure. rewrite Hloop. simpl. lia.
    + right. left. by eexists.
  - destruct (decoder st) as [|[req|src| |e|e] d'] eqn:Hdec.
    + eapply Herr; [unfold step, serve_step; by rewrite Hctx, Hdec|done].
    + destruct (decide (Request.Command req = CmdGet)) as [Hget|Hget];
        [|destruct (decide (Request.Command req = CmdPut)) as [Hput|Hput];
          [|destruct (decide (Request.Command req = CmdClose)) as [Hclo|Hclo]]].
      * eapply Hnext.
        -- unfold step, serve_step. rewrite Hctx, Hdec. simpl. by rewrite decide_True.
        -- unfold loop_measure. rewrite Hctx, Hdec. simpl. lia.
        -- by left.
      * eapply Hnext.
        -- unfold step, serve_step. rewrite Hctx, Hdec. simpl.
           by rewrite decide_False, decide_True.
        -- unfold loop_measure. rewrite Hctx, Hdec. simpl. lia.
        -- right. right. by eexists _, _.
      * eapply Hclose;
          [unfold step, serve_step; rewrite Hctx, Hdec; simpl;
           rewrite decide_False by done; rewrite decide_False by done;
           by rewrite decide_True|reflexivity].
      * eapply Hnext.
        -- unfold step, serve_step. rewrite Hctx, Hdec. simpl.
           rewrite decide_False by done. rewrite decide_False by done.
           by rewrite decide_False.
        -- unfold loop_measure. rewrite Hctx, Hdec. simpl. lia.
        -- by left.
    + eapply Herr; [unfold step, serve_step; by rewrite Hctx, Hdec|done].
    + exists [Main]. eexists. simpl. unfold step, serve_step. rewrite Hctx, Hdec. done.
    + eapply Herr; [unfold step, serve_step; by rewrite Hctx, Hdec|done].
    + eapply Herr; [unfold step, serve_step; by rewrite Hctx, Hdec|done].
  - destruct (decodePutBody req (decoder st)) as [[e req'] d'] eqn:Hbd.
    pose proof (decodePutBody_length _ _ _ _ _ Hbd) as Hlen.
    destruct e as [err|].
    + eapply Hnext.
      * unfold step, serve_step. by rewrite Hbody, Hbd.
      * unfold loop_measure. rewrite Hbody. simpl. lia.
      * by left.
    + eapply Hnext.
      * unfold step, serve_step. by rewrite Hbody, Hbd.
      * unfold loop_measure. rewrite Hbody. simpl. lia.
      * by left.
Qed.

(** X6. From every state of every session there is a way on at the end
    of which [serve] has returned or the process has died: no state is a
    dead end, whatever the goroutines and the dispatcher have done so
    far. *)
Theorem session_can_always_end (s : server) (mux : ServeMux) (d : Decoder)
    (sched : list Label) (st : State) :
  run s mux sched (init d) = Some st →
  ∃ sched' st', run s mux sched' st = Some st' ∧ ended (pc st') = true.
Proof.
  intros Hrun. assert (reachable s mux d st) as Hreach by (by exists sched).
  pose proof (counters_ok_reachable _ _ _ _ Hreach) as Hok.
  destruct (pc st) as [| |ctx|ctx req|err|ctx req|todo|r|] eqn:Hpc.
  - assert (step s mux Main st
            = Some (set_pc PLoop (WriteResponse FromAck (ack_response mux) st))) as Hstep.
    { unfold step, serve_step. by rewrite Hpc. }
    destruct (end_from_loop s mux _ _ (le_n _) (counters_ok_step _ _ _ _ _ Hok Hstep))
      as (sched1 & st' & Hrun1 & Hend); [by left|].
    exists (Main :: sched1), st'. simpl. by rewrite Hstep.
  - apply (end_from_loop s mux _ st (le_n _) Hok). by left.
  - apply (end_from_loop s mux _ st (le_n _) Hok). right. left. by eexists.
  - apply (end_from_loop s mux _ st (le_n _) Hok). right. right. by eexists _, _.
  - destruct (end_from_wait_err s mux st err Hok Hpc) as (sched1 & st' & Hrun1 & Hret).
    exists sched1, st'. split; [done|]. by rewrite Hret.
  - destruct (end_from_wait_close s mux st ctx req Hok Hpc) as (sched1 & st' & Hrun1 & Hret).
    exists sched1, st'. split; [done|]. by rewrite Hret.
  - destruct (run_close s mux todo st Hpc) as (st' & Hrun1 & Hret).
    eexists _, st'. split; [exact Hrun1|]. by rewrite Hret.
  - exists [], st. split; [done|]. by rewrite Hpc.
  - exists [], st. split; [done|]. by rewrite Hpc.
Qed.

Lemma session_can_always_end_witness :
  ∃ st, run (newServer []) sample_mux [Main; Main; Main] (init scenario_3) = Some st
    ∧ ∃ sched' st', run (newServer []) sample_mux sched' st = Some st'
                    ∧ ended (pc st') = true.
Proof.
  assert (∃ st, run (newServer []) sample_mux [Main; Main; Main] (init scenario_3) = Some st)
    as [st Hrun] by (eexists; vm_compute; reflexivity).
  exists st. split; [exact Hrun|].
  exact (session_can_always_end _ _ _ _ _ Hrun).
Defined.

(** ** Where the IDs come from *)

Lemma decodeRequest_Some (d d' : Decoder) (req : Request.t) :
  decodeRequest d = (DecOk (Some req), d') → d = MRequest req :: d'.
Proof. destruct d as [|[?|?| |?|?] d0]; simpl; intros; by simplify_eq. Qed.

Lemma decodePutBody_ID (req req' : Request.t) (d d' : Decoder) (e : option string) :
  decodePutBody req d = (e, req', d') → Request.ID req' = Request.ID req.
Proof.
  unfold decodePutBody. case_decide; [intros; by simplify_eq|].
  destruct (decodeString d) as [[src|err] d0]; intros; by simplify_eq.
Qed.

Lemma ids_ok_step (s : server) (mux : ServeMux) (d : Decoder) (l : Label) (st st' : State) :
  answers_once mux → counters_ok st → ids_ok mux d st → step s mux l st = Some st' →
  ids_ok mux d st'.
Proof.
  intros Honce Hok Hids Hstep.
  assert (∃ c, d = c ++ decoder st') as Hsuf.
  { destruct Hids as ([c Hc] & _).
    destruct (continues_step _ _ _ _ _ Hstep) as (_ & [c' Hc'] & _).
    exists (c ++ c'). by rewrite Hc, Hc', app_assoc. }
  assert (∀ i t p, tasks st !! i = Some t →
            Forall (λ t, id_from d (Request.ID (t_req t))) (<[i := set_phase p t]> (tasks st)))
    as Hupd.
  { intros i t p Hi. destruct Hids as (_ & Hts & _). apply Forall_insert; [done|].
    rewrite Forall_lookup in Hts. exact (Hts i t Hi). }
  assert (∀ req d', decodeRequest (decoder st) = (DecOk (Some req), d') →
            id_from d (Request.ID req)) as Hreq.
  { intros req d' Hd. apply decodeRequest_Some in Hd. destruct Hids as ([c Hc] & _).
    exists req. split; [|done]. rewrite Hc, Hd. apply elem_of_app. right. constructor. }
  step_inv Hstep; try impossible.
  all: destruct Hids as (_ & Hts & Hout & Hpc); unfold ids_ok, asyncHandleRequest, WriteResponse;
    simpl; perform_simpl.
  all: repeat match goal with H : pc _ = _ |- _ => rewrite H in * end.
  all: split; [simpl in Hsuf; rewrite ?perform_decoder in Hsuf; exact Hsuf|]; clear Hsuf.
  all: try (split_and!; try done; eauto; fail).
  all: split_and!; try done; eauto.
  all: try (apply Forall_app; split; [done|]; apply Forall_singleton; simpl; by eauto).
  - destruct (handleRequest_once mux ctx req Honce) as (res & Hres & Hid).
    rewrite Hres. apply Forall_singleton. by rewrite Hid.
  - apply Forall_app. split; [done|]. apply Forall_fmap, Forall_forall.
    intros res Hres. simpl.
    rewrite Forall_forall in Hpc. apply Hpc.
    change (e :: l0) with ([e] ++ l0). rewrite writes_of_app. apply elem_of_app. by left.
  - rewrite Forall_forall in Hpc |- *. intros res Hres. apply Hpc.
    change (e :: l0) with ([e] ++ l0). rewrite writes_of_app. apply elem_of_app. by right.
  - apply Forall_app. split; [done|]. apply Forall_fmap, Forall_forall. by intros res Hres.
Qed.

Lemma elem_written_by (i : nat) (res : Response.t) (o : list (Src * Response.t)) :
  (FromTask i, res) ∈ o → res ∈ written_by i o.
Proof.
  intros Hin. unfold written_by. apply list_elem_of_fmap. exists (FromTask i, res).
  split; [done|]. apply list_elem_of_In, filter_In. split; [by apply list_elem_of_In|].
  unfold from_task. simpl. apply Nat.eqb_refl.
Qed.

(** X7. When the handler chains keep their contract, every Response in
    the output of a session is either the announcement, written by [ack],
    or carries the ID of a Request that was on the inbound stream: the
    engine never answers with an ID it was not asked about. *)
Theorem responses_carry_request_ids (s : server) (mux : ServeMux) (d : Decoder)
    (sched : list Label) (st : State) (src : Src) (res : Response.t) :
  answers_once mux →
  run s mux sched (init d) = Some st →
  (src, res) ∈ out st →
  (src = FromAck ∧ res = ack_response mux)
  ∨ (src ≠ FromAck ∧ ∃ r, MRequest r ∈ d ∧ Request.ID r = Response.ID res).
Proof.
  intros Honce Hrun Hin.
  assert (reachable s mux d st) as Hreach by (by exists sched).
  destruct (log_ok_reachable _ _ _ _ Hreach) as [Hok [Hlog Hfresh]].
  assert (ids_ok mux d st) as (_ & Hts & Hout & _).
  { refine (proj2 (run_invariant s mux (λ x, counters_ok x ∧ ids_ok mux d x)
                     _ sched (init d) st _ Hrun)).
    - intros l st1 st2 [Hc Hi] Hstep.
      split; [by eapply counters_ok_step|by eapply ids_ok_step].
    - split; [apply counters_ok_init|]. split_and!; [by exists []|constructor|constructor|done]. }
  rewrite Forall_forall in Hout. specialize (Hout _ Hin). simpl in Hout.
  destruct src as [| | |i].
  - by left.
  - right. by split.
  - right. by split.
  - right. split; [done|].
    pose proof (elem_written_by _ _ _ Hin) as Hw.
    destruct (tasks st !! i) as [t|] eqn:Hi.
    + destruct (task_written_once mux (out st) i t Honce (Hlog i t Hi)) as (_ & Hid & _).
      rewrite Forall_lookup in Hts. destruct (Hts i t Hi) as (r & Hr & Hrid).
      exists r. split; [done|]. by rewrite (Hid res Hw).
    + apply lookup_ge_None in Hi. rewrite (Hfresh i Hi) in Hw. by apply elem_of_nil in Hw.
Qed.

Lemma responses_carry_request_ids_witness :
  ∃ st, run (newServer []) sample_mux scenario_3_schedule (init scenario_3) = Some st
    ∧ ∀ src res, (src, res) ∈ out st →
        (src = FromAck ∧ res = ack_response sample_mux)
        ∨ (src ≠ FromAck ∧ ∃ r, MRequest r ∈ scenario_3 ∧ Request.ID r = Response.ID res).
Proof.
  assert (∃ st, run (newServer []) sample_mux scenario_3_schedule (init scenario_3) = Some st)
    as [st Hrun] by (eexists; vm_compute; reflexivity).
  exists st. split; [exact Hrun|].
  intros src res. exact (responses_carry_request_ids _ _ _ _ _ src res sample_mux_answers_once Hrun).
Defined.

(** ** The registry *)

Lemma HandleFunc_Some (mux : ServeMux) (cmd : Cmd) (h : Handler) :
  cmd ∈ allowedCommands mux →
  HandleFunc mux cmd h
  = Some (mkMux (allowedCommands mux) (<[cmd := h]> (m mux)) (middleware mux)).
Proof. intros Hin. unfold HandleFunc. by rewrite decide_True. Qed.

Lemma HandleFunc_None (mux : ServeMux) (cmd : Cmd) (h : Handler) :
  HandleFunc mux cmd h = None ↔ cmd ∉ allowedCommands mux.
Proof. unfold HandleFunc. case_decide; split; intros; done. Qed.

Lemma registerAll_spec (rs : list Registration) :
  ∀ mux mux', registerAll mux rs = Some mux' →
    allowedCommands mux' = allowedCommands mux
    ∧ middleware mux' = middleware mux ++ used rs
    ∧ (∀ cmd, m mux' !! cmd = last_handler cmd rs (m mux !! cmd))
    ∧ (dom (m mux) ⊆ allowedCommands mux → dom (m mux') ⊆ allowedCommands mux')
    ∧ (∀ cmd h, RegHandle cmd h ∈ rs → cmd ∈ allowedCommands mux).
Proof.
  induction rs as [|r rs IH]; intros mux mux' Hreg; simpl in Hreg.
  - simplify_eq. split_and!; try done.
    + by rewrite app_nil_r.
    + intros cmd h Hin. by apply elem_of_nil in Hin.
  - destruct (register mux r) as [mux1|] eqn:Hr; [|done].
    destruct (IH _ _ Hreg) as (Hal & Hmw & Hm & Hdom & Hin).
    destruct r as [c h|mws]; simpl in Hr.
    + unfold HandleFunc in Hr. case_decide as Hc; [|done]. simplify_eq. simpl in *.
      split_and!; try done.
      * intros cmd. rewrite Hm. unfold last_handler. simpl. f_equal.
        rewrite lookup_insert. by case_decide.
      * intros Hsub. apply Hdom. rewrite dom_insert_L.
        apply union_subseteq. split; [by apply singleton_subseteq_l|done].
      * intros cmd h' [Heq|Hrs]%elem_of_cons; [by injection Heq as -> _|by eapply Hin].
    + simplify_eq. simpl in *. split_and!; try done.
      * by rewrite Hmw, <- app_assoc.
      * intros cmd h' [Heq|Hrs]%elem_of_cons; [done|by eapply Hin].
Qed.

Lemma registerAll_None (rs : list Registration) :
  ∀ mux, registerAll mux rs = None ↔ ∃ cmd h, RegHandle cmd h ∈ rs ∧ cmd ∉ allowedCommands mux.
Proof.
  induction rs as [|r rs IH]; intros mux; simpl.
  - split; [done|]. intros (cmd & h & Hin & _). by apply elem_of_nil in Hin.
  - destruct r as [c h|mws]; simpl.
    + unfold HandleFunc. case_decide as Hc.
      * rewrite IH. simpl. split.
        -- intros (cmd & h' & Hin & Hn). exists cmd, h'. split; [by right|done].
        -- intros (cmd & h' & [Heq|Hin]%elem_of_cons & Hn);
             [by injection Heq as -> _|by exists cmd, h'].
      * split; [|done]. intros _. exists c, h. split; [by left|done].
    + rewrite IH. simpl. split.
      * intros (cmd & h' & Hin & Hn). exists cmd, h'. split; [by right|done].
      * intros (cmd & h' & [Heq|Hin]%elem_of_cons & Hn); [done|by exists cmd, h'].
Qed.

Lemma last_handler_is_Some (cmd : Cmd) (rs : list Registration) (start : option Handler) :
  is_Some (last_handler cmd rs start) → is_Some start ∨ ∃ h, RegHandle cmd h ∈ rs.
Proof.
  revert start. induction rs as [|r rs IH]; intros start Hs; [by left|].
  unfold last_handler in Hs. simpl in Hs.
  destruct (IH _ Hs) as [Hst|[h Hh]].
  - destruct r as [c h|mws]; [|by left].
    case_decide as Hc; [|by left]. subst c. right. exists h. by left.
  - right. exists h. by right.
Qed.

Lemma last_handler_keeps (cmd : Cmd) (rs : list Registration) (start : option Handler) :
  is_Some start → is_Some (last_handler cmd rs start).
Proof.
  revert start. induction rs as [|r rs IH]; intros start Hs; [exact Hs|].
  unfold last_handler. simpl. apply IH. destruct r as [c h|mws]; [|exact Hs].
  by case_decide.
Qed.

Lemma last_handler_registered (cmd : Cmd) (h : Handler) (rs : list Registration)
    (start : option Handler) :
  RegHandle cmd h ∈ rs → is_Some (last_handler cmd rs start).
Proof.
  revert start. induction rs as [|r rs IH]; intros start Hin.
  - by apply elem_of_nil in Hin.
  - unfold last_handler. simpl. apply elem_of_cons in Hin as [Heq|Hin].
    + subst r. rewrite decide_True by done. by apply last_handler_keeps.
    + by apply IH.
Qed.

Lemma allowed_supported (cmd : Cmd) : cmd ∈ allowedCommands serveMux ↔ supported cmd.
Proof.
  unfold serveMux, supported. simpl.
  rewrite !elem_of_union, !elem_of_singleton. tauto.
Qed.

(** X8. Whatever handlers and middleware a program registers on the
    package's registry, in whatever order: registration panics exactly when
    some handler is registered for a command other than get, put and close;
    otherwise the registry lists only commands among those three, so at
    most three, and only ones a handler was registered for; these are the
    KnownCommands of the announcement. *)
Theorem registry_lists_only_supported (rs : list Registration) :
  (registerAll serveMux rs = None ↔ ∃ cmd h, RegHandle cmd h ∈ rs ∧ ¬ supported cmd)
  ∧ ∀ mux, registerAll serveMux rs = Some mux →
      (∀ cmd, cmd ∈ knownCommands mux → supported cmd ∧ ∃ h, RegHandle cmd h ∈ rs)
      ∧ (∀ cmd h, RegHandle cmd h ∈ rs → cmd ∈ knownCommands mux)
      ∧ (length (knownCommands mux) ≤ 3)%nat
      ∧ Response.KnownCommands (ack_response mux) = knownCommands mux.
Proof.
  split.
  - rewrite registerAll_None. split; intros (cmd & h & Hin & Hn); exists cmd, h; split; try done.
    + by rewrite <- allowed_supported.
    + by rewrite allowed_supported.
  - intros mux Hreg.
    destruct (registerAll_spec rs _ _ Hreg) as (Hal & _ & Hm & Hdom & Hin).
    assert (dom (m mux) ⊆ allowedCommands serveMux) as Hsub.
    { rewrite <- Hal. apply Hdom. simpl. rewrite dom_empty_L. apply empty_subseteq. }
    split_and!.
    + intros cmd Hk. rewrite knownCommands_spec in Hk. split.
      * apply allowed_supported, Hsub, elem_of_dom. done.
      * rewrite Hm in Hk. destruct (last_handler_is_Some _ _ _ Hk) as [[? Hs]|?]; [|done].
        simpl in Hs. by rewrite lookup_empty in Hs.
    + intros cmd h Hh. rewrite knownCommands_spec, Hm. by eapply last_handler_registered.
    + unfold knownCommands. rewrite length_fmap, length_map_to_list, <- size_dom.
      transitivity (size (allowedCommands serveMux)); [by apply subseteq_size|].
      done.
    + done.
Qed.

(** X9. The handler the registry holds for a command is the one of the
    last registration for it, earlier ones are dropped, and registering
    handlers does not touch the middleware, which is all the middleware
    given to [Use], in the order of the calls. *)
Theorem last_registration_wins (rs : list Registration) (mux : ServeMux) :
  registerAll serveMux rs = Some mux →
  (∀ cmd, m mux !! cmd = last_handler cmd rs None)
  ∧ (∀ cmd h rs', rs = rs' ++ [RegHandle cmd h] → m mux !! cmd = Some h)
  ∧ (∀ cmd r rs', rs = rs' ++ [r] → (∀ h', r ≠ RegHandle cmd h') →
       m mux !! cmd = last_handler cmd rs' None)
  ∧ middleware mux = used rs.
Proof.
  intros Hreg. destruct (registerAll_spec rs _ _ Hreg) as (_ & Hmw & Hm & _).
  split_and!.
  - intros cmd. rewrite Hm. simpl. by rewrite lookup_empty.
  - intros cmd h rs' ->. rewrite Hm. unfold last_handler. rewrite fold_left_app. simpl.
    by rewrite decide_True.
  - intros cmd r rs' -> Hne. rewrite Hm. unfold last_handler. rewrite fold_left_app. simpl.
    rewrite lookup_empty. destruct r as [c h'|mws]; [|done].
    case_decide; [|done]. simplify_eq. by destruct (Hne h').
  - by rewrite Hmw.
Qed.

Lemma registry_examples :
  registerAll serveMux [RegHandle CmdGet miss_handler; RegHandle CmdPut ok_handler;
                       RegHandle CmdClose ok_handler] = Some sample_mux
  ∧ registerAll serveMux [RegHandle CmdGet ok_handler; RegHandle CmdGet miss_handler]
    = Some get_only_mux.
Proof. split; reflexivity. Qed.

Lemma last_registration_wins_witness :
  m get_only_mux !! CmdGet = Some miss_handler.
Proof.
  destruct (last_registration_wins
              [RegHandle CmdGet ok_handler; RegHandle CmdGet miss_handler] get_only_mux
              (proj2 registry_examples)) as (_ & Hlast & _).
  by apply (Hlast CmdGet miss_handler [RegHandle CmdGet ok_handler]).
Defined.

(** ** The default writer *)

Lemma defaultWriter_call (Encode : Response.t → option string) (res : Response.t) :
  (length (defaultWriter_WriteResponse Encode res).1 ≤ 1)%nat
  ∧ (∀ x, x ∈ (defaultWriter_WriteResponse Encode res).1 →
       Response.ID x = Response.ID res
       ∧ (x = res ∨ (Encode res ≠ None ∧ Response.Err x ≠ "")))
  ∧ ((defaultWriter_WriteResponse Encode res).1 = [] →
       length (defaultWriter_WriteResponse Encode res).2 = 1%nat)
  ∧ ((defaultWriter_WriteResponse Encode res).1 ≠ [] →
       (defaultWriter_WriteResponse Encode res).2 = []).
Proof.
  unfold defaultWriter_WriteResponse.
  destruct (Encode res) as [err|] eqn:He;
    [destruct (Encode (Response.error _ _)) as [err'|] eqn:He'|]; simpl.
  - split_and!; [lia|by intros x ?%elem_of_nil|done|done].
  - split_and!; [lia| |done|done].
    intros x ->%list_elem_of_singleton. split; [done|]. right. by split.
  - split_and!; [lia| |done|done].
    intros x ->%list_elem_of_singleton. split; [done|by left].
Qed.

(** X10. One call of the default writer puts at most one value on
    stdout; the value carries the ID of the Response it was called with and
    is that Response itself unless the encoder refused it, in which case it
    is an error Response; only when nothing reaches stdout is the failure
    logged, once.  So with an encoder that accepts every error-only
    Response, the IDs on stdout are the IDs of the [WriteResponse] calls,
    one for one and in the same order. *)
Theorem defaultWriter_one_value_per_call (Encode : Response.t → option string) :
  (∀ res,
     (length (defaultWriter_WriteResponse Encode res).1 ≤ 1)%nat
     ∧ (∀ x, x ∈ (defaultWriter_WriteResponse Encode res).1 →
          Response.ID x = Response.ID res
          ∧ (x = res ∨ (Encode res ≠ None ∧ Response.Err x ≠ "")))
     ∧ ((defaultWriter_WriteResponse Encode res).1 = [] →
          length (defaultWriter_WriteResponse Encode res).2 = 1%nat)
     ∧ ((defaultWriter_WriteResponse Encode res).1 ≠ [] →
          (defaultWriter_WriteResponse Encode res).2 = []))
  ∧ (∀ o, (∀ res, Encode res = None) → stdout_of Encode o = map snd o)
  ∧ (∀ o, (∀ id e, Encode (Response.error id e) = None) →
       map Response.ID (stdout_of Encode o) = map (λ e, Response.ID e.2) o).
Proof.
  split; [apply defaultWriter_call|]. split.
  - intros o Hall. unfold stdout_of. induction o as [|[src res] o IH]; [done|].
    simpl. rewrite IH. unfold defaultWriter_WriteResponse. by rewrite Hall.
  - intros o Herr. unfold stdout_of. induction o as [|[src res] o IH]; [done|].
    simpl. rewrite map_app, IH. f_equal.
    unfold defaultWriter_WriteResponse. destruct (Encode res); [|done].
    by rewrite Herr.
Qed.

Example defaultWriter_fallback :
  defaultWriter_WriteResponse no_time_encoder (Response.mk 7 "" [] false [] 3 (Some 0) "/p")
  = ([Response.error 7
        "error: failed to encode response: json: error calling MarshalJSON for type *time.Time"],
     []).
Proof. reflexivity. Qed.

(** ** Framing mistakes of the peer *)

(** X11. What the read loop makes of a peer that gets the framing of a
    put wrong.  If the put declares a body and the next message is a
    Request instead, that Request is consumed as the body: the put gets
    the body error, nothing is launched, and the consumed Request is gone
    from the stream without a Response.  If the put declares no body and a
    JSON string follows all the same, the put is launched with an empty
    body and the string is then taken for the next Request, which fails
    the session. *)
Theorem put_framing_mistakes (s : server) (mux : ServeMux) (st : State)
    (ctx : Ctx) (req : Request.t) (d' : Decoder) :
  pc st = PBody ctx req →
  (∀ next, Request.BodySize req ≠ 0 → decoder st = MRequest next :: d' →
     ∃ st', step s mux Main st = Some st'
       ∧ out st' = out st
           ++ [(FromLoop,
                Response.error (Request.ID req)
                  ("error: failed to decode request body: error: failed to decode body: "
                   +:+ "json: cannot unmarshal object into Go value of type string"))]
       ∧ tasks st' = tasks st ∧ decoder st' = d' ∧ pc st' = PLoop)
  ∧ (∀ body, Request.BodySize req = 0 → decoder st = MString body :: d' →
       ∃ st', run s mux [Main; Main; Main] st = Some st'
         ∧ out st' = out st
         ∧ tasks st' = tasks st ++ [mkTask ctx (Request.withBody req EmptyReader) (now st) Waiting]
         ∧ decoder st' = d'
         ∧ pc st' = PWaitErr "json: cannot unmarshal string into Go value of type cache.Request").
Proof.
  intros Hpc. split.
  - intros next Hsize Hdec. eexists. split.
    + unfold step, serve_step. rewrite Hpc. simpl. unfold decodePutBody.
      rewrite decide_False by done. rewrite Hdec. simpl. reflexivity.
    + done.
  - intros body Hsize Hdec.
    assert (step s mux Main st
            = Some (set_pc PLoop (asyncHandleRequest ctx (Request.withBody req EmptyReader)
                                    (set_decoder (decoder st) st)))) as H1.
    { unfold step, serve_step. rewrite Hpc. simpl. unfold decodePutBody.
      by rewrite decide_True. }
    eexists. split.
    + cbn [run]. rewrite H1. cbn [run].
      unfold step at 1, serve_step. cbn [pc set_pc crashed].
      unfold step at 1, serve_step. cbn [pc set_pc crashed]. simpl. rewrite Hdec. simpl.
      reflexivity.
    + done.
Qed.

Lemma put_framing_mistakes_witness :
  ∃ st', step (newServer []) sample_mux Main
           (at_body (mkCtx 30) (sample_request 2 CmdPut 5)
              [MRequest (sample_request 3 CmdGet 0)]) = Some st'
    ∧ tasks st' = [] ∧ decoder st' = [] ∧ pc st' = PLoop.
Proof.
  destruct (put_framing_mistakes (newServer []) sample_mux
              (at_body (mkCtx 30) (sample_request 2 CmdPut 5)
                 [MRequest (sample_request 3 CmdGet 0)])
              (mkCtx 30) (sample_request 2 CmdPut 5) [] eq_refl) as [Hmissing _].
  destruct (Hmissing (sample_request 3 CmdGet 0)) as (st' & Hstep & _ & Hts & Hdec & Hpc);
    [done|done|].
  by exists st'.
Defined.

(** ** The logging middleware *)

Lemma replay_app (w : ResponseWriter) (l1 l2 : list Effect) :
  replay w (l1 ++ l2) = replay w l1 ++ replay w l2.
Proof. unfold replay. apply flat_map_app. Qed.

Lemma replay_logs (w : ResponseWriter) (lines : list string) :
  replay w (map ELog lines) = map ELog lines.
Proof. induction lines as [|l lines IH]; [done|]. simpl. by rewrite <- IH at 2. Qed.

Lemma replay_writer (script : list Effect) : replay writer script = script.
Proof.
  induction script as [|[res|line] script IH]; [done|..]; simpl; by rewrite IH.
Qed.

Lemma writes_of_logs (lines : list string) : writes_of (map ELog lines) = [].
Proof. by induction lines. Qed.

Lemma LoggingMiddleware_scripted (elapsed : Ctx → Request.t → string)
    (script : Ctx → Request.t → list Effect) (next : Handler) :
  (∀ ctx w r, next ctx w r = replay w (script ctx r)) →
  ∀ ctx w r,
    LoggingMiddleware elapsed next ctx w r = replay w (logged elapsed script ctx r).
Proof.
  intros Hnext ctx w r. unfold LoggingMiddleware, HandlerFunc, logged.
  rewrite Hnext, !replay_app. simpl. do 2 f_equal.
  induction (script ctx r) as [|[res|line] l IH]; [done|..]; simpl.
  - rewrite replay_app, replay_app, replay_logs, <- IH. simpl.
    unfold loggingResponseWriter. by rewrite app_nil_r, <- app_assoc.
  - by rewrite IH.
Qed.

Lemma writes_of_logged (elapsed : Ctx → Request.t → string)
    (script : Ctx → Request.t → list Effect) (ctx : Ctx) (r : Request.t) :
  writes_of (logged elapsed script ctx r) = writes_of (script ctx r).
Proof.
  unfold logged. rewrite !writes_of_app. simpl. rewrite app_nil_r.
  induction (script ctx r) as [|[res|line] l IH]; [done|..]; simpl.
  - rewrite !writes_of_app, writes_of_logs, IH. done.
  - done.
Qed.

(** A stack of logging middlewares keeps a scripted handler scripted and
    its Responses what they were. *)
Lemma Apply_logging (elapseds : list (Ctx → Request.t → string))
    (script : Ctx → Request.t → list Effect) (h : Handler) :
  (∀ ctx w r, h ctx w r = replay w (script ctx r)) →
  ∃ script',
    (∀ ctx w r, Apply h (map LoggingMiddleware elapseds) ctx w r = replay w (script' ctx r))
    ∧ (∀ ctx r, writes_of (script' ctx r) = writes_of (script ctx r)).
Proof.
  intros Hh. induction elapseds as [|e es (script' & Happ & Hw)].
  - exists script. by rewrite Apply_nil.
  - exists (logged e script'). split.
    + intros ctx w r. cbn [map]. rewrite Apply_cons.
      by apply LoggingMiddleware_scripted.
    + intros ctx r. by rewrite writes_of_logged.
Qed.

(** X12.  The logging middleware does not touch the Responses.  Around a
    handler that only calls [WriteResponse] and logs, however many
    logging middlewares are stacked, the composed handler makes on the
    server's writer exactly the calls of the handler, in the same order;
    a single one logs the line of the request first, the line of each
    Response just before that Response is written, and the line with the
    duration last. *)
Theorem logging_does_not_touch_responses
    (elapseds : list (Ctx → Request.t → string)) (elapsed : Ctx → Request.t → string)
    (script : Ctx → Request.t → list Effect) (ctx : Ctx) (r : Request.t) :
  writes_of (Apply (scripted script) (map LoggingMiddleware elapseds) ctx writer r)
  = writes_of (script ctx r)
  ∧ LoggingMiddleware elapsed (scripted script) ctx writer r
    = [ELog (received_line r)]
      ++ flat_map (λ e, match e with
                        | EWrite res =>
                            map ELog (response_line (Request.ID r) (Request.Command r) res)
                            ++ [EWrite res]
                        | ELog line => [ELog line]
                        end) (script ctx r)
      ++ [ELog (completed_line r (elapsed ctx r))].
Proof.
  split.
  - destruct (Apply_logging elapseds script (scripted script)) as (script' & Happ & Hw);
      [done|].
    by rewrite Happ, replay_writer, Hw.
  - rewrite (LoggingMiddleware_scripted elapsed script) by done.
    by rewrite replay_writer.
Qed.

(** X13.  A registry whose middleware is the logging middleware, any
    number of times, and whose handlers only call [WriteResponse] and
    log, calling it once with the request's ID, composes chains that
    answer exactly once: the assumption under which every request of a
    session is answered exactly once holds for it. *)
Theorem logging_keeps_one_answer (mux : ServeMux)
    (elapseds : list (Ctx → Request.t → string)) :
  middleware mux = map LoggingMiddleware elapseds →
  (∀ cmd h, m mux !! cmd = Some h →
     ∃ script, (∀ ctx w r, h ctx w r = replay w (script ctx r))
               ∧ ∀ ctx r, ∃ res, writes_of (script ctx r) = [res]
                                 ∧ Response.ID res = Request.ID r) →
  answers_once mux.
Proof.
  intros Hmw Hh h ctx r Hlook.
  destruct (Hh _ h Hlook) as (script & Hs & Hone).
  destruct (Hone ctx r) as (res & Hres & Hid).
  destruct (Apply_logging elapseds script h Hs) as (script' & Happ & Hw).
  exists res. split; [|done].
  by rewrite Hmw, Happ, replay_writer, Hw.
Qed.

Lemma logging_keeps_one_answer_witness : answers_once logging_mux.
Proof.
  apply (logging_keeps_one_answer logging_mux [λ _ _, "1ms"]); [reflexivity|].
  intros cmd h Hh. unfold logging_mux, sample_mux in Hh. simpl in Hh.
  rewrite !lookup_insert_Some, lookup_empty in Hh.
  destruct Hh as [[_ <-]|[_ [[_ <-]|[_ [[_ <-]|[_ ?]]]]]]; try done.
  all: eexists (λ _ r, [EWrite _]); split;
    [intros ctx w r; simpl; rewrite app_nil_r; reflexivity
    |intros ctx r; eexists; split; reflexivity].
Defined.

(** ** The disk cache: strings, hexadecimal and decimal text *)

Lemma chars_app (a b : string) :
  list_ascii_of_string (a +:+ b) = list_ascii_of_string a ++ list_ascii_of_string b.
Proof. induction a as [|c a IH]; [done|]. simpl. by rewrite IH. Qed.

Lemma chars_length (s : string) : String.length s = length (list_ascii_of_string s).
Proof. induction s as [|c s IH]; [done|]. simpl. by rewrite IH. Qed.

Lemma chars_substring (n : nat) (s : string) :
  list_ascii_of_string (substring 0 n s) = take n (list_ascii_of_string s).
Proof.
  revert s. induction n as [|n IH]; intros [|c s]; simpl; try done.
  by rewrite IH.
Qed.

Lemma chars_inj (a b : string) :
  list_ascii_of_string a = list_ascii_of_string b → a = b.
Proof.
  intros H. rewrite <- (string_of_list_ascii_of_string a), <- (string_of_list_ascii_of_string b).
  by rewrite H.
Qed.

Lemma chars_of_bytes (s : string) :
  map ascii_of_byte (list_byte_of_string s) = list_ascii_of_string s.
Proof.
  unfold list_byte_of_string. rewrite map_map.
  induction (list_ascii_of_string s) as [|c l IH]; [done|].
  simpl. by rewrite ascii_of_byte_of_ascii, IH.
Qed.

Lemma hex_byte_decodes (b : Byte.byte) (rest : list ascii) :
  hex_decode_chars (hex_byte b ++ rest)
  = match hex_decode_chars rest with Some bs => Some (b :: bs) | None => None end.
Proof. destruct b; reflexivity. Qed.

Lemma hex_decode_encode (bs : bytes) : hex_decode (hex_encode bs) = Some bs.
Proof.
  unfold hex_decode, hex_encode. rewrite list_ascii_of_string_of_list_ascii.
  induction bs as [|b bs IH]; [done|].
  cbn [hex_chars flat_map]. fold (hex_chars bs). by rewrite hex_byte_decodes, IH.
Qed.


Lemma pretty_N_char_digit (r : N) :
  (r < 10)%N →
  is_digit (pretty_N_char r) = true
  ∧ Z.of_N (N_of_ascii (pretty_N_char r)) - 48 = Z.of_N r.
Proof.
  intros Hr.
  assert (r = 0 ∨ r = 1 ∨ r = 2 ∨ r = 3 ∨ r = 4 ∨ r = 5 ∨ r = 6 ∨ r = 7 ∨ r = 8 ∨ r = 9)%N
    as Hcases by lia.
  repeat destruct Hcases as [->|Hcases]; try subst r; by vm_compute.
Qed.

(** The digits [pretty_N_go] puts in front of its accumulator. *)
Lemma pretty_N_go_digits (x : N) (s : string) :
  ∃ ds, list_ascii_of_string (pretty_N_go x s) = ds ++ list_ascii_of_string s
        ∧ forallb is_digit ds = true
        ∧ (∀ acc, fold_left (λ acc c, 10 * acc + (Z.of_N (N_of_ascii c) - 48)) ds acc
                  = acc * 10 ^ Z.of_nat (length ds) + Z.of_N x)
        ∧ ((0 < x)%N → ds ≠ []).
Proof.
  revert s. induction (N.lt_wf_0 x) as [x _ IH]. intros s.
  destruct (decide (x = 0%N)) as [->|Hx].
  - exists []. rewrite pretty_N_go_0. split_and!; [done|done| |lia].
    intros acc. simpl. lia.
  - rewrite pretty_N_go_step by lia.
    destruct (IH (x `div` 10)%N) with (s := String (pretty_N_char (x `mod` 10)) s)
      as (ds & Hds & Hdig & Hval & _).
    { apply N.div_lt; lia. }
    destruct (pretty_N_char_digit (x `mod` 10)) as [Hd Hv].
    { apply N.mod_lt. lia. }
    exists (ds ++ [pretty_N_char (x `mod` 10)]). split_and!.
    + rewrite Hds. simpl. by rewrite <- app_assoc.
    + rewrite forallb_app, Hdig. simpl. by rewrite Hd.
    + intros acc. rewrite fold_left_app, Hval. cbn [fold_left]. rewrite Hv.
      rewrite length_app. cbn [length].
      replace (Z.of_nat (length ds + 1)) with (Z.of_nat (length ds) + 1) by lia.
      rewrite Z.pow_add_r by lia.
      pose proof (N.div_mod x 10 ltac:(lia)) as Hdm.
      rewrite N2Z.inj_div, N2Z.inj_mod in *.
      assert (Z.of_N x = 10 * (Z.of_N x `div` 10) + Z.of_N x `mod` 10) as Hx'.
      { apply Z.div_mod. lia. }
      change (Z.of_N 10) with 10. lia.
    + intros _. by destruct ds.
Qed.

(** What [%d] prints: an optional minus sign and the decimal digits of
    the absolute value, at least one. *)
Lemma dec_digits (z : Z) :
  ∃ ds, list_ascii_of_string (dec z) = (if decide (z < 0) then ["-"%char] else []) ++ ds
        ∧ ds ≠ [] ∧ forallb is_digit ds = true ∧ digits_value ds = Z.abs z.
Proof.
  assert (∀ p, ∃ ds, list_ascii_of_string (pretty (Npos p)) = ds
                     ∧ ds ≠ [] ∧ forallb is_digit ds = true
                     ∧ digits_value ds = Z.pos p) as Hpos.
  { intros p. unfold pretty, pretty_N. rewrite decide_False by done.
    destruct (pretty_N_go_digits (Npos p) "") as (ds & Hds & Hdig & Hval & Hne).
    exists ds. simpl in Hds. rewrite app_nil_r in Hds. split_and!; [done| |done|].
    - apply Hne. lia.
    - unfold digits_value. rewrite Hval. simpl. lia. }
  destruct z as [|p|p].
  - exists ["0"%char]. by vm_compute.
  - destruct (Hpos p) as (ds & Hds & ? & ? & ?). exists ds.
    rewrite decide_False by lia. split_and!; done.
  - destruct (Hpos p) as (ds & Hds & ? & ? & ?). exists ds.
    rewrite decide_True by lia. split_and!; try done.
    all: unfold dec, pretty, pretty_Z; rewrite chars_app; by rewrite <- Hds.
Qed.

Lemma span_app (f : ascii → bool) (l rest : list ascii) :
  forallb f l = true → (∀ c rest', rest = c :: rest' → f c = false) →
  span f (l ++ rest) = (l, rest).
Proof.
  intros Hl Hrest. induction l as [|c l IH]; simpl in *.
  - destruct rest as [|c rest']; [done|]. simpl. by rewrite (Hrest c rest').
  - apply andb_prop in Hl as [-> Hl]. by rewrite IH.
Qed.

Lemma SkipSpace_word (c : ascii) (l : list ascii) :
  isSpace c = false → SkipSpace (c :: l) = Some (c :: l).
Proof.
  intros Hc. simpl. rewrite Hc.
  assert (is_nl c = false) as ->; [|done].
  unfold isSpace, is_nl in *. destruct (N.eqb_spec (N_of_ascii c) 10) as [Heq|]; [|done].
  rewrite Heq in Hc. done.
Qed.

Lemma is_digit_spec (c : ascii) :
  is_digit c = true → isSpace c = false ∧ is_sign c = false ∧ is_separator c = false.
Proof.
  unfold is_digit, isSpace, is_sign, is_separator. cbv zeta.
  generalize (N_of_ascii c). intros n Hn.
  apply andb_prop in Hn as [H1 H2]. apply N.leb_le in H1, H2.
  split_and!.
  - apply orb_false_intro; [apply andb_false_intro2|]; [apply N.leb_gt|apply N.eqb_neq]; lia.
  - apply orb_false_intro; apply N.eqb_neq; lia.
  - apply N.eqb_neq; lia.
Qed.

(** The scanner reads back what [%d] printed, up to the end of the input
    or a character that is neither a digit nor an underscore. *)
Lemma scan_int_dec (z : Z) (rest : list ascii) :
  - 2 ^ 63 ≤ z < 2 ^ 63 →
  (∀ c rest', rest = c :: rest' → is_digit c || is_underscore c = false) →
  scan_int (list_ascii_of_string (dec z) ++ rest) = Some (z, rest).
Proof.
  intros Hz Hrest. destruct (dec_digits z) as (ds & -> & Hne & Hdig & Hval).
  assert (forallb (λ c, is_digit c || is_underscore c) ds = true) as Hdig'.
  { apply forallb_forall. intros c Hc.
    rewrite forallb_forall in Hdig. by rewrite (Hdig c Hc). }
  unfold scan_int. case_decide as Hneg.
  - cbn [app]. rewrite SkipSpace_word by done. cbn [mbind option_bind].
    change (is_sign "-") with true. cbn match.
    rewrite (span_app _ ds rest Hdig' Hrest). rewrite decide_False by done.
    unfold ParseInt. rewrite Hdig. change (true && (N_of_ascii "-" =? 45)%N) with true.
    cbn match. rewrite Hval. rewrite decide_True by lia.
    simpl. do 2 f_equal. lia.
  - destruct ds as [|d ds]; [done|]. cbn [app].
    assert (is_digit d = true) as Hd by (simpl in Hdig; by apply andb_prop in Hdig as [? _]).
    destruct (is_digit_spec d Hd) as (Hsp & Hsg & _).
    rewrite SkipSpace_word by done. cbn [mbind option_bind]. rewrite Hsg.
    change (d :: ds ++ rest) with ((d :: ds) ++ rest).
    rewrite (span_app _ (d :: ds) rest Hdig' Hrest). rewrite decide_False by done.
    unfold ParseInt. rewrite Hdig. cbn [andb]. rewrite Hval.
    rewrite decide_True by lia. simpl. do 2 f_equal. lia.
Qed.

Lemma hex_byte_plain (b : Byte.byte) :
  forallb (λ c, negb (isSpace c) && negb (is_separator c)) (hex_byte b) = true.
Proof. destruct b; reflexivity. Qed.

Lemma hex_chars_plain (bs : bytes) :
  forallb (λ c, negb (isSpace c) && negb (is_separator c)) (hex_chars bs) = true.
Proof.
  induction bs as [|b bs IH]; [done|].
  cbn [hex_chars flat_map]. fold (hex_chars bs). by rewrite forallb_app, hex_byte_plain, IH.
Qed.

Lemma hex_chars_cons (b : Byte.byte) (bs : bytes) :
  hex_chars (b :: bs) = hex_byte b ++ hex_chars bs.
Proof. reflexivity. Qed.

Lemma forallb_impl (f g : ascii → bool) (l : list ascii) :
  (∀ c, f c = true → g c = true) → forallb f l = true → forallb g l = true.
Proof. rewrite !forallb_forall. auto. Qed.

(** *** What HandlePut writes, HandleGet reads *)

Lemma Fscanf_Fprintf (outputID : bytes) (size now : Z) :
  outputID ≠ [] →
  - 2 ^ 63 ≤ size < 2 ^ 63 → - 2 ^ 63 ≤ now < 2 ^ 63 →
  Fscanf_action (Fprintf_action outputID size now) = Some (hex_encode outputID, size, now).
Proof.
  intros Hne Hsize Hnow. unfold Fscanf_action, Fprintf_action.
  rewrite chars_of_bytes, !chars_app.
  unfold hex_encode at 1. rewrite list_ascii_of_string_of_list_ascii.
  change (list_ascii_of_string " ") with [" "%char]. cbn [app].
  destruct outputID as [|b bs]; [done|].
  assert (∃ c l, hex_chars (b :: bs) = c :: l) as (c & l & Hcl).
  { rewrite hex_chars_cons. unfold hex_byte. simpl. eauto. }
  pose proof (hex_chars_plain (b :: bs)) as Hplain.
  assert (isSpace c = false) as Hc.
  { rewrite Hcl in Hplain. simpl in Hplain.
    apply andb_prop in Hplain as [Hp _]. apply andb_prop in Hp as [Hp _].
    by apply negb_true_iff. }
  unfold scan_word. rewrite Hcl at 1. cbn [app]. rewrite SkipSpace_word by done.
  cbn [mbind option_bind]. rewrite decide_False by done.
  change (c :: l ++ ?r) with ((c :: l) ++ r). rewrite <- Hcl.
  rewrite span_app; cycle 1.
  { eapply forallb_impl; [|exact Hplain]. intros x Hx. by apply andb_prop in Hx as [? _]. }
  { by intros x rest' [= <- _]. }
  cbn [mbind option_bind].
  destruct (dec_digits size) as (ds1 & Hds1 & Hne1 & Hdig1 & _).
  destruct (dec_digits now) as (ds2 & Hds2 & Hne2 & Hdig2 & _).
  assert (∀ z ds rest, list_ascii_of_string (dec z)
                       = (if decide (z < 0) then ["-"%char] else []) ++ ds →
            ds ≠ [] → forallb is_digit ds = true →
            scan_blank (" "%char :: list_ascii_of_string (dec z) ++ rest)
            = Some (list_ascii_of_string (dec z) ++ rest)) as Hblank.
  { intros z ds rest Hds Hn Hd. unfold scan_blank.
    change (is_nl " ") with false. change (isSpace " ") with true. cbn match.
    rewrite Hds. case_decide.
    - reflexivity.
    - destruct ds as [|d ds']; [done|]. cbn [app span].
      simpl in Hd. apply andb_prop in Hd as [Hd _].
      destruct (is_digit_spec d Hd) as (-> & _). done. }
  rewrite (Hblank size ds1) by done. cbn [mbind option_bind].
  rewrite scan_int_dec; [|done|by intros x rest' [= <- _]].
  cbn [mbind option_bind].
  rewrite <- (app_nil_r (list_ascii_of_string (dec now))).
  rewrite (Hblank now ds2) by done. cbn [mbind option_bind].
  rewrite scan_int_dec; [|done|done].
  cbn [mbind option_bind]. unfold hex_encode. done.
Qed.

(** *** Paths *)

Lemma before_last_separator_none (n : list ascii) :
  forallb (λ c, negb (is_separator c)) n = true → before_last_separator n = None.
Proof.
  induction n as [|c n IH]; [done|]. simpl. intros H.
  apply andb_prop in H as [Hc Hn]. rewrite (IH Hn).
  apply negb_true_iff in Hc. by rewrite Hc.
Qed.

Lemma before_last_separator_app (p n : list ascii) :
  forallb (λ c, negb (is_separator c)) n = true →
  before_last_separator (p ++ "/"%char :: n) = Some p.
Proof.
  intros Hn. induction p as [|c p IH]; simpl.
  - by rewrite (before_last_separator_none n Hn).
  - by rewrite IH.
Qed.

Lemma Join3_chars (c p n : string) :
  p ≠ "" → n ≠ "" →
  list_ascii_of_string (filepath_Join [c; p; n])
  = Join_front c ++ list_ascii_of_string p ++ "/"%char :: list_ascii_of_string n.
Proof.
  intros Hp Hn. unfold filepath_Join, Join_front.
  rewrite !filter_cons, filter_nil.
  rewrite (decide_True (P := p ≠ "")), (decide_True (P := n ≠ "")) by done.
  destruct (decide (c = "")) as [->|Hc].
  - rewrite decide_False by (intros H; by apply H).
    cbn [String.concat]. destruct n as [|x n]; [done|].
    rewrite !chars_app. done.
  - rewrite (decide_True (P := c ≠ "")) by done.
    cbn [String.concat]. destruct p as [|y p]; [done|]. destruct n as [|x n]; [done|].
    rewrite !chars_app. simpl. rewrite <- !app_assoc. done.
Qed.

Lemma Join2_chars (c p : string) :
  p ≠ "" →
  list_ascii_of_string (filepath_Join [c; p]) = Join_front c ++ list_ascii_of_string p.
Proof.
  intros Hp. unfold filepath_Join, Join_front.
  rewrite !filter_cons, filter_nil.
  rewrite (decide_True (P := p ≠ "")) by done.
  destruct (decide (c = "")) as [->|Hc].
  - rewrite decide_False by (intros H; by apply H). done.
  - rewrite (decide_True (P := c ≠ "")) by done.
    cbn [String.concat]. destruct p as [|y p]; [done|].
    rewrite !chars_app. simpl. rewrite <- !app_assoc. done.
Qed.

(** The path of a non-empty ID under a suffix without separator: the
    directory named by the first byte, then all bytes and the suffix. *)
Lemma path_of_id (cacheDir suffix : string) (b : Byte.byte) (bs : bytes) :
  suffix ≠ "" →
  forallb (λ c, negb (is_separator c)) (list_ascii_of_string suffix) = true →
  ∃ path,
    (prefix ← slice2 (hex_encode (b :: bs));
     Some (filepath_Join [cacheDir; prefix; hex_encode (b :: bs) +:+ suffix])) = Some path
    ∧ list_ascii_of_string path
      = Join_front cacheDir ++ hex_byte b
        ++ "/"%char :: hex_chars (b :: bs) ++ list_ascii_of_string suffix
    ∧ filepath_Dir path = filepath_Join [cacheDir; string_of_list_ascii (hex_byte b)].
Proof.
  intros Hsuf Hplain.
  assert (slice2 (hex_encode (b :: bs)) = Some (string_of_list_ascii (hex_byte b))) as Hslice.
  { unfold slice2. rewrite decide_True.
    - f_equal. apply chars_inj.
      rewrite chars_substring. unfold hex_encode.
      by rewrite !list_ascii_of_string_of_list_ascii.
    - rewrite chars_length. unfold hex_encode.
      rewrite list_ascii_of_string_of_list_ascii, hex_chars_cons, length_app.
      unfold hex_byte. simpl. lia. }
  rewrite Hslice. cbn [mbind option_bind]. eexists. split; [reflexivity|].
  assert (list_ascii_of_string
            (filepath_Join [cacheDir; string_of_list_ascii (hex_byte b);
                            hex_encode (b :: bs) +:+ suffix])
          = Join_front cacheDir ++ hex_byte b
            ++ "/"%char :: hex_chars (b :: bs) ++ list_ascii_of_string suffix) as Hchars.
  { rewrite Join3_chars.
    - rewrite chars_app. unfold hex_encode.
      by rewrite !list_ascii_of_string_of_list_ascii.
    - done.
    - unfold hex_encode. rewrite hex_chars_cons. done. }
  split; [done|].
  unfold filepath_Dir. rewrite Hchars, app_assoc.
  rewrite before_last_separator_app.
  - assert (list_ascii_of_string (filepath_Join [cacheDir; string_of_list_ascii (hex_byte b)])
            = Join_front cacheDir ++ hex_byte b) as Hdir.
    { rewrite Join2_chars by done. by rewrite list_ascii_of_string_of_list_ascii. }
    rewrite <- Hdir.
    destruct (list_ascii_of_string
                (filepath_Join [cacheDir; string_of_list_ascii (hex_byte b)]))
      as [|x l] eqn:Hl.
    + rewrite Hdir in Hl. by destruct (Join_front cacheDir).
    + rewrite <- Hl. by rewrite string_of_list_ascii_of_string.
  - rewrite forallb_app, Hplain, andb_true_r.
    eapply forallb_impl; [|apply hex_chars_plain].
    intros x Hx. by apply andb_prop in Hx as [_ ?].
Qed.

Lemma getObjectPath_Some (cacheDir : string) (b : Byte.byte) (bs : bytes) :
  ∃ path, getObjectPath cacheDir (b :: bs) = Some path
    ∧ list_ascii_of_string path
      = Join_front cacheDir ++ hex_byte b
        ++ "/"%char :: hex_chars (b :: bs) ++ list_ascii_of_string objectFileSuffix
    ∧ filepath_Dir path = filepath_Join [cacheDir; string_of_list_ascii (hex_byte b)].
Proof. by apply path_of_id. Qed.

Lemma getActionPath_Some (cacheDir : string) (b : Byte.byte) (bs : bytes) :
  ∃ path, getActionPath cacheDir (b :: bs) = Some path
    ∧ list_ascii_of_string path
      = Join_front cacheDir ++ hex_byte b
        ++ "/"%char :: hex_chars (b :: bs) ++ list_ascii_of_string actionFileSuffix
    ∧ filepath_Dir path = filepath_Join [cacheDir; string_of_list_ascii (hex_byte b)].
Proof. by apply path_of_id. Qed.

Lemma hex_chars_inj (a b : bytes) : hex_chars a = hex_chars b → a = b.
Proof.
  intros H. assert (hex_decode (hex_encode a) = hex_decode (hex_encode b)) as Hd.
  { unfold hex_encode. by rewrite H. }
  rewrite !hex_decode_encode in Hd. by injection Hd.
Qed.

(** Two paths of the handler are the same only when they have the same
    suffix and belong to the same ID. *)
Lemma path_chars_inj (front : list ascii) (b b' : Byte.byte) (bs bs' : bytes)
    (suffix suffix' : list ascii) :
  length suffix = length suffix' →
  front ++ hex_byte b ++ "/"%char :: hex_chars (b :: bs) ++ suffix
  = front ++ hex_byte b' ++ "/"%char :: hex_chars (b' :: bs') ++ suffix' →
  b :: bs = b' :: bs' ∧ suffix = suffix'.
Proof.
  intros Hlen H. apply app_inv_head in H.
  apply (app_inj_1 (hex_byte b) (hex_byte b')) in H as [_ H]; [|done].
  assert (hex_chars (b :: bs) ++ suffix = hex_chars (b' :: bs') ++ suffix') as H'
    by congruence.
  apply app_inj_2 in H' as [H' ?]; [|done].
  split; [|done]. by apply hex_chars_inj.
Qed.

Lemma shard_in_subdirs (cacheDir : string) (b : Byte.byte) :
  filepath_Join [cacheDir; string_of_list_ascii (hex_byte b)] ∈ subdirs cacheDir.
Proof.
  unfold subdirs. apply list_elem_of_bind.
  pose proof (Byte.to_N_bounded b) as Hb.
  exists (N.to_nat (Byte.to_N b / 16)). split.
  - apply list_elem_of_bind. exists (N.to_nat (Byte.to_N b mod 16)). split.
    + rewrite !N2Nat.id. apply list_elem_of_singleton. done.
    + apply elem_of_seq.
      pose proof (N.mod_lt (Byte.to_N b) 16 ltac:(done)) as H.
      revert H. generalize (Byte.to_N b mod 16)%N. intros x Hx. lia.
  - apply elem_of_seq.
    assert (Byte.to_N b / 16 < 16)%N as H by (apply N.Div0.div_lt_upper_bound; lia).
    revert H. generalize (Byte.to_N b / 16)%N. intros x Hx. lia.
Qed.

Lemma getObjectPath_None (cacheDir : string) (id : bytes) :
  getObjectPath cacheDir id = None ↔ id = [].
Proof.
  split; [|by intros ->].
  destruct id as [|b bs]; [done|].
  destruct (getObjectPath_Some cacheDir b bs) as (path & -> & _). done.
Qed.

Lemma getActionPath_None (cacheDir : string) (id : bytes) :
  getActionPath cacheDir id = None ↔ id = [].
Proof.
  split; [|by intros ->].
  destruct id as [|b bs]; [done|].
  destruct (getActionPath_Some cacheDir b bs) as (path & -> & _). done.
Qed.

Lemma getObjectPath_inj (cacheDir : string) (o o' : bytes) :
  getObjectPath cacheDir o = getObjectPath cacheDir o' → o = o'.
Proof.
  destruct o as [|b bs], o' as [|b' bs']; [done|..].
  - intros H. symmetry in H. by apply getObjectPath_None in H.
  - intros H. by apply getObjectPath_None in H.
  - destruct (getObjectPath_Some cacheDir b bs) as (p & -> & Hp & _).
    destruct (getObjectPath_Some cacheDir b' bs') as (p' & -> & Hp' & _).
    intros [= <-]. rewrite Hp in Hp'. by apply path_chars_inj in Hp' as [? _].
Qed.

Lemma getActionPath_inj (cacheDir : string) (a a' : bytes) :
  getActionPath cacheDir a = getActionPath cacheDir a' → a = a'.
Proof.
  destruct a as [|b bs], a' as [|b' bs']; [done|..].
  - intros H. symmetry in H. by apply getActionPath_None in H.
  - intros H. by apply getActionPath_None in H.
  - destruct (getActionPath_Some cacheDir b bs) as (p & -> & Hp & _).
    destruct (getActionPath_Some cacheDir b' bs') as (p' & -> & Hp' & _).
    intros [= <-]. rewrite Hp in Hp'. by apply path_chars_inj in Hp' as [? _].
Qed.

Lemma paths_distinct (cacheDir : string) (a o : bytes) (path : string) :
  getActionPath cacheDir a = Some path → getObjectPath cacheDir o ≠ Some path.
Proof.
  destruct a as [|b bs]; [done|]. destruct o as [|b' bs']; [done|].
  destruct (getActionPath_Some cacheDir b bs) as (p & -> & Hp & _).
  destruct (getObjectPath_Some cacheDir b' bs') as (p' & -> & Hp' & _).
  intros [= <-] [= ->]. rewrite Hp in Hp'. by apply path_chars_inj in Hp' as [_ ?].
Qed.

Lemma path_in_subdirs (cacheDir : string) (id : bytes) (path : string) :
  getObjectPath cacheDir id = Some path ∨ getActionPath cacheDir id = Some path →
  filepath_Dir path ∈ subdirs cacheDir.
Proof.
  destruct id as [|b bs]; [by intros [|]|].
  destruct (getObjectPath_Some cacheDir b bs) as (p & -> & _ & Hp).
  destruct (getActionPath_Some cacheDir b bs) as (p' & -> & _ & Hp').
  intros [[= <-]|[= <-]]; [rewrite Hp|rewrite Hp']; apply shard_in_subdirs.
Qed.

Lemma MkdirAll_all (l : list string) (fs : Disk) :
  files (fold_left (λ fs subdir, os_MkdirAll subdir fs) l fs) = files fs
  ∧ ∀ d, d ∈ dirs (fold_left (λ fs subdir, os_MkdirAll subdir fs) l fs)
         ↔ d ∈ l ∨ d ∈ dirs fs.
Proof.
  revert fs. induction l as [|x l IH]; intros fs; simpl.
  - split; [done|]. intros d. rewrite elem_of_nil. tauto.
  - destruct (IH (os_MkdirAll x fs)) as [Hf Hd]. split; [by rewrite Hf|].
    intros d. rewrite Hd. simpl. rewrite elem_of_cons, elem_of_union, elem_of_singleton.
    tauto.
Qed.

(** X14.  The layout of the cache directory.  An ID has a path unless
    it is empty, in which case taking the first two characters of its
    hexadecimal form panics.  Every path lies in one of the 256
    subdirectories [initializeCache] creates, so after it no path lacks
    its directory.  Different IDs have different paths and no action file
    is an object file: no two entries share a file.  [initializeCache]
    creates and removes no file. *)
Theorem cache_layout (cacheDir : string) :
  (∀ id, getObjectPath cacheDir id = None ↔ id = [])
  ∧ (∀ id, getActionPath cacheDir id = None ↔ id = [])
  ∧ (∀ a a', getActionPath cacheDir a = getActionPath cacheDir a' → a = a')
  ∧ (∀ o o', getObjectPath cacheDir o = getObjectPath cacheDir o' → o = o')
  ∧ (∀ a o path, getActionPath cacheDir a = Some path →
       getObjectPath cacheDir o ≠ Some path)
  ∧ length (subdirs cacheDir) = 256%nat
  ∧ (∀ fs id path,
       getObjectPath cacheDir id = Some path ∨ getActionPath cacheDir id = Some path →
       filepath_Dir path ∈ subdirs cacheDir
       ∧ filepath_Dir path ∈ dirs (initializeCache cacheDir fs))
  ∧ (∀ fs, files (initializeCache cacheDir fs) = files fs).
Proof.
  split_and!.
  - apply getObjectPath_None.
  - apply getActionPath_None.
  - apply getActionPath_inj.
  - apply getObjectPath_inj.
  - apply paths_distinct.
  - reflexivity.
  - intros fs id path Hpath. pose proof (path_in_subdirs cacheDir id path Hpath) as Hin.
    split; [done|]. unfold initializeCache.
    apply (MkdirAll_all (subdirs cacheDir)). by left.
  - intros fs. unfold initializeCache. by rewrite (proj1 (MkdirAll_all _ _)).
Qed.

(** X15.  The two formats fit: what [HandlePut] writes into an action
    file with ["%x %d %d"], [HandleGet] reads back with ["%s %d %d"] and
    [hex.DecodeString], whatever the non-empty OutputID and whatever the
    two int64 values, negative ones included. *)
Theorem action_record_reads_back (outputID : bytes) (size now : Z) :
  outputID ≠ [] →
  - 2 ^ 63 ≤ size < 2 ^ 63 →
  - 2 ^ 63 ≤ now < 2 ^ 63 →
  ∃ hexOutputID,
    Fscanf_action (Fprintf_action outputID size now) = Some (hexOutputID, size, now)
    ∧ hex_decode hexOutputID = Some outputID.
Proof.
  intros Hne Hsize Hnow. exists (hex_encode outputID).
  split; [by apply Fscanf_Fprintf|apply hex_decode_encode].
Qed.

Lemma action_record_reads_back_witness :
  ∃ hexOutputID,
    Fscanf_action (Fprintf_action [Byte.x01; Byte.xef] 4 (-1)) = Some (hexOutputID, 4, -1)
    ∧ hex_decode hexOutputID = Some [Byte.x01; Byte.xef].
Proof. apply (action_record_reads_back [Byte.x01; Byte.xef] 4 (-1)); [done|lia|lia]. Defined.

(** *** The two handlers *)

Lemma HandlePut_frame (cacheDir : string) (Error : LibError → string) (now : Z)
    (fs : Disk) (r : Request.t) (path : string) :
  getObjectPath cacheDir (Request.OutputID r) ≠ Some path →
  getActionPath cacheDir (Request.ActionID r) ≠ Some path →
  files (HandlePut cacheDir Error now fs r).1 !! path = files fs !! path.
Proof.
  intros Ho Ha. unfold HandlePut, os_Create, File_Write, os_Remove.
  destruct (getObjectPath cacheDir (Request.OutputID r)) as [op|]; [|done].
  assert (op ≠ path) by congruence.
  rewrite decide_True by (simpl; set_solver).
  destruct (readAll (Request.Body r)) as [[content ok]|]; simpl;
    [|by rewrite lookup_insert_ne].
  destruct ok; simpl.
  - destruct (getActionPath cacheDir (Request.ActionID r)) as [ap|]; simpl;
      [|by rewrite !lookup_insert_ne].
    assert (ap ≠ path) by congruence.
    case_decide; simpl.
    + by rewrite !lookup_insert_ne.
    + by rewrite lookup_delete_ne, !lookup_insert_ne.
  - by rewrite lookup_delete_ne, !lookup_insert_ne.
Qed.

Lemma HandlePut_stores (cacheDir : string) (Error : LibError → string) (now : Z)
    (fs : Disk) (r : Request.t) (content : bytes) (op ap : string) :
  getObjectPath cacheDir (Request.OutputID r) = Some op →
  getActionPath cacheDir (Request.ActionID r) = Some ap →
  readAll (Request.Body r) = Some (content, true) →
  (∀ d, d ∈ subdirs cacheDir → d ∈ dirs fs) →
  HandlePut cacheDir Error now fs r
  = (mkDisk ({[filepath_Dir op]} ∪ dirs fs)
       (<[ap := Fprintf_action (Request.OutputID r) (Z.of_nat (length content)) now]>
          (<[op := content]> (files fs))),
     Responds (Response.mk (Request.ID r) "" [] false [] 0 None op)).
Proof.
  intros Hop Hap Hbody Hdirs. unfold HandlePut, os_Create, File_Write.
  rewrite Hop. rewrite decide_True by (simpl; set_solver).
  rewrite Hbody. cbn match. rewrite Hap. cbn [dirs files os_MkdirAll].
  rewrite decide_True.
  - cbn [dirs files]. rewrite !lookup_insert_eq. cbn [default app].
    by rewrite !insert_insert_eq.
  - apply elem_of_union. right. apply Hdirs.
    apply (path_in_subdirs cacheDir (Request.ActionID r)). by right.
Qed.

Lemma HandleGet_hit (cacheDir : string) (Error : LibError → string)
    (fs : Disk) (r : Request.t) (outputID content : bytes) (size now : Z) (op ap : string) :
  getActionPath cacheDir (Request.ActionID r) = Some ap →
  files fs !! ap = Some (Fprintf_action outputID size now) →
  - 2 ^ 63 ≤ size < 2 ^ 63 → - 2 ^ 63 ≤ now < 2 ^ 63 →
  getObjectPath cacheDir outputID = Some op →
  files fs !! op = Some content →
  HandleGet cacheDir Error fs r
  = Responds (if decide (Z.of_nat (length content) = size)
              then Response.mk (Request.ID r) "" [] false outputID size (Some now) op
              else miss_response (Request.ID r)).
Proof.
  intros Hap Hrec Hsize Hnow Hop Hobj. unfold HandleGet.
  assert (outputID ≠ []) as Hne.
  { intros ->. by rewrite (proj2 (getObjectPath_None cacheDir [])) in Hop. }
  rewrite Hap, Hrec. rewrite Fscanf_Fprintf by done.
  rewrite hex_decode_encode, Hop. unfold bytes in *. rewrite Hobj.
  by case_decide.
Qed.

(** X16.  What is put can be got.  On a cache directory that has its
    256 subdirectories, a put with a non-empty ActionID and OutputID and a
    body that can be read to its end is answered with the path of the
    object file and no error; that file then holds the decoded body, and a
    get for the same ActionID that runs next is a hit with the OutputID
    of the put, the number of bytes of the decoded body (which the
    BodySize of the put plays no part in), the time of the put and the
    same path. *)
Theorem put_then_get_hits (cacheDir : string) (Error : LibError → string) (now : Z)
    (fs : Disk) (r : Request.t) (content : bytes) :
  Request.OutputID r ≠ [] →
  Request.ActionID r ≠ [] →
  readAll (Request.Body r) = Some (content, true) →
  - 2 ^ 63 ≤ now < 2 ^ 63 →
  Z.of_nat (length content) < 2 ^ 63 →
  (∀ d, d ∈ subdirs cacheDir → d ∈ dirs fs) →
  ∃ objectPath fs',
    getObjectPath cacheDir (Request.OutputID r) = Some objectPath
    ∧ HandlePut cacheDir Error now fs r
      = (fs', Responds (Response.mk (Request.ID r) "" [] false [] 0 None objectPath))
    ∧ files fs' !! objectPath = Some content
    ∧ ∀ r', Request.ActionID r' = Request.ActionID r →
        HandleGet cacheDir Error fs' r'
        = Responds (Response.mk (Request.ID r') "" [] false (Request.OutputID r)
                      (Z.of_nat (length content)) (Some now) objectPath).
Proof.
  intros Ho Ha Hbody Hnow Hlen Hdirs.
  destruct (getObjectPath cacheDir (Request.OutputID r)) as [op|] eqn:Hop;
    [|by apply getObjectPath_None in Hop].
  destruct (getActionPath cacheDir (Request.ActionID r)) as [ap|] eqn:Hap;
    [|by apply getActionPath_None in Hap].
  assert (ap ≠ op) as Hne.
  { intros ->. by apply (paths_distinct cacheDir _ (Request.OutputID r) _ Hap). }
  eexists op, _. split; [done|]. split.
  { by apply (HandlePut_stores cacheDir Error now fs r content op ap). }
  split.
  { cbn [files]. by rewrite lookup_insert_ne, lookup_insert_eq. }
  intros r' Hr'.
  rewrite (HandleGet_hit cacheDir Error _ r' (Request.OutputID r) content
             (Z.of_nat (length content)) now op ap).
  - by rewrite decide_True.
  - by rewrite Hr'.
  - cbn [files]. by rewrite lookup_insert_eq.
  - lia.
  - done.
  - done.
  - cbn [files]. by rewrite lookup_insert_ne, lookup_insert_eq.
Qed.

Lemma fresh_disk_subdirs (d : string) :
  d ∈ subdirs "/tmp/cacheprog" → d ∈ dirs fresh_disk.
Proof. intros Hd. unfold fresh_disk, initializeCache. apply MkdirAll_all. by left. Qed.

Lemma put_then_get_hits_witness :
  ∃ objectPath fs',
    getObjectPath "/tmp/cacheprog" (Request.OutputID sample_put) = Some objectPath
    ∧ HandlePut "/tmp/cacheprog" no_text 1700000000 fresh_disk sample_put
      = (fs', Responds (Response.mk 7 "" [] false [] 0 None objectPath))
    ∧ files fs' !! objectPath = Some [Byte.x00; Byte.x01; Byte.x02; Byte.x03]
    ∧ ∀ r', Request.ActionID r' = Request.ActionID sample_put →
        HandleGet "/tmp/cacheprog" no_text fs' r'
        = Responds (Response.mk (Request.ID r') "" [] false [Byte.x01; Byte.xef]
                      4 (Some 1700000000) objectPath).
Proof.
  apply (put_then_get_hits "/tmp/cacheprog" no_text 1700000000 fresh_disk sample_put
           [Byte.x00; Byte.x01; Byte.x02; Byte.x03]).
  - done.
  - done.
  - vm_compute. reflexivity.
  - lia.
  - simpl. lia.
  - exact fresh_disk_subdirs.
Defined.

(** X17.  A put touches only its own two files.  Whatever the put and
    however it ends, every other file holds afterwards what it held
    before and no directory is gone; so a get for another ActionID whose
    action file does not name the OutputID of the put is answered after
    the put as it would have been before. *)
Theorem put_leaves_other_entries (cacheDir : string) (Error : LibError → string)
    (now : Z) (fs : Disk) (r : Request.t) :
  (∀ path,
     getObjectPath cacheDir (Request.OutputID r) ≠ Some path →
     getActionPath cacheDir (Request.ActionID r) ≠ Some path →
     files (HandlePut cacheDir Error now fs r).1 !! path = files fs !! path)
  ∧ (∀ d, d ∈ dirs fs → d ∈ dirs (HandlePut cacheDir Error now fs r).1)
  ∧ (∀ r',
       Request.ActionID r' ≠ Request.ActionID r →
       recorded_output cacheDir fs (Request.ActionID r') ≠ Some (Request.OutputID r) →
       HandleGet cacheDir Error (HandlePut cacheDir Error now fs r).1 r'
       = HandleGet cacheDir Error fs r').
Proof.
  split_and!.
  - apply HandlePut_frame.
  - intros d Hd. unfold HandlePut, os_Create, File_Write, os_Remove.
    repeat (case_match || case_decide); simpl; set_solver.
  - intros r' Ha Ho. unfold HandleGet. unfold recorded_output in Ho.
    destruct (getActionPath cacheDir (Request.ActionID r')) as [ap'|] eqn:Hap'; [|done].
    cbn [mbind option_bind] in Ho.
    rewrite (HandlePut_frame cacheDir Error now fs r ap').
    + destruct (files fs !! ap') as [content|]; [|done].
      cbn [mbind option_bind] in Ho.
      destruct (Fscanf_action content) as [[[hex size] ts]|]; [|done].
      cbn [mbind option_bind] in Ho.
      destruct (hex_decode hex) as [o|]; [|done].
      destruct (getObjectPath cacheDir o) as [op'|] eqn:Hop'; [|done].
      assert (files (HandlePut cacheDir Error now fs r).1 !! op' = files fs !! op') as Hf;
        [apply HandlePut_frame|unfold bytes in *; by rewrite Hf].
      * intros Heq. rewrite <- Hop' in Heq. apply getObjectPath_inj in Heq. congruence.
      * intros Heq. by apply (paths_distinct cacheDir _ o _ Heq).
    + by apply (paths_distinct cacheDir _ _ _ Hap').
    + intros Heq. rewrite <- Hap' in Heq. apply getActionPath_inj in Heq. congruence.
Qed.

(** X18.  A put whose body cannot be read to its end (it is not valid
    base64) is answered with the error of the copy, and takes the object
    file with it: after it there is no object file for its OutputID, also
    when an earlier put had stored one, and a get for any action whose
    file names that OutputID is a miss. *)
Theorem bad_body_drops_the_object (cacheDir : string) (Error : LibError → string)
    (now : Z) (fs : Disk) (r : Request.t) (content : bytes) :
  Request.OutputID r ≠ [] →
  readAll (Request.Body r) = Some (content, false) →
  ∃ objectPath,
    getObjectPath cacheDir (Request.OutputID r) = Some objectPath
    ∧ (HandlePut cacheDir Error now fs r).2
      = Responds (Response.error (Request.ID r)
                    ("failed to write object file: " +:+ Error (ReadError (Request.Body r))))
    ∧ files (HandlePut cacheDir Error now fs r).1 !! objectPath = None
    ∧ ∀ r', recorded_output cacheDir fs (Request.ActionID r') = Some (Request.OutputID r) →
        HandleGet cacheDir Error (HandlePut cacheDir Error now fs r).1 r'
        = Responds (miss_response (Request.ID r')).
Proof.
  intros Ho Hbody.
  destruct (getObjectPath cacheDir (Request.OutputID r)) as [op|] eqn:Hop;
    [|by apply getObjectPath_None in Hop].
  exists op. split; [done|].
  assert (HandlePut cacheDir Error now fs r
          = (os_Remove op
               (File_Write op content
                  (mkDisk ({[filepath_Dir op]} ∪ dirs fs) (<[op := []]> (files fs)))),
             Responds (Response.error (Request.ID r)
                         ("failed to write object file: "
                          +:+ Error (ReadError (Request.Body r)))))) as ->.
  { unfold HandlePut, os_Create. rewrite Hop.
    rewrite decide_True by (simpl; set_solver). by rewrite Hbody. }
  split; [done|]. split.
  { simpl. apply lookup_delete_eq. }
  intros r' Hrec. unfold recorded_output in Hrec. unfold HandleGet.
  destruct (getActionPath cacheDir (Request.ActionID r')) as [ap'|] eqn:Hap'; [|done].
  cbn [mbind option_bind] in Hrec.
  assert (op ≠ ap') as Hne.
  { intros ->. by apply (paths_distinct cacheDir _ (Request.OutputID r) _ Hap'). }
  cbn [fst files os_Remove File_Write].
  rewrite lookup_delete_ne, !lookup_insert_ne by done.
  destruct (files fs !! ap') as [c|]; [|done].
  cbn [mbind option_bind] in Hrec.
  destruct (Fscanf_action c) as [[[hex size] ts]|]; [|done].
  cbn [mbind option_bind] in Hrec. rewrite Hrec, Hop.
  by rewrite lookup_delete_eq.
Qed.

Lemma bad_body_drops_the_object_witness :
  ∃ objectPath,
    getObjectPath "/tmp/cacheprog" (Request.OutputID bad_put) = Some objectPath
    ∧ (HandlePut "/tmp/cacheprog" no_text 1700000001 stored_disk bad_put).2
      = Responds (Response.error 9 "failed to write object file: ")
    ∧ files (HandlePut "/tmp/cacheprog" no_text 1700000001 stored_disk bad_put).1
        !! objectPath = None
    ∧ ∀ r', recorded_output "/tmp/cacheprog" stored_disk (Request.ActionID r')
            = Some (Request.OutputID bad_put) →
        HandleGet "/tmp/cacheprog" no_text
          (HandlePut "/tmp/cacheprog" no_text 1700000001 stored_disk bad_put).1 r'
        = Responds (miss_response (Request.ID r')).
Proof.
  apply (bad_body_drops_the_object "/tmp/cacheprog" no_text 1700000001 stored_disk
           bad_put []).
  - done.
  - vm_compute. reflexivity.
Defined.

(** The entry the first put stored is among those the second destroys. *)
Example bad_put_destroys_stored_entry :
  HandleGet "/tmp/cacheprog" no_text stored_disk sample_get
  = Responds (Response.mk 8 "" [] false [Byte.x01; Byte.xef] 4 (Some 1700000000)
                "/tmp/cacheprog/01/01ef-d")
  ∧ HandleGet "/tmp/cacheprog" no_text
      (HandlePut "/tmp/cacheprog" no_text 1700000001 stored_disk bad_put).1 sample_get
    = Responds (miss_response 8).
Proof. split; vm_compute; reflexivity. Qed.

Lemma SkipSpace_Some (l l' : list ascii) :
  SkipSpace l = Some l' → l' = [] ∨ ∃ c rest, l' = c :: rest ∧ isSpace c = false.
Proof.
  induction l as [|c l IH]; simpl.
  - intros [= <-]. by left.
  - destruct (is_nl c); [done|]. destruct (isSpace c) eqn:Hc; [done|].
    intros [= <-]. right. eauto.
Qed.

(** The word [Fscanf] hands to [hex.DecodeString] is never empty, so
    neither is what is decoded from it. *)
Lemma scanned_output_not_empty (content outputID : bytes) (hex : string) (size ts : Z) :
  Fscanf_action content = Some (hex, size, ts) →
  hex_decode hex = Some outputID →
  outputID ≠ [].
Proof.
  unfold Fscanf_action, scan_word. intros Hscan Hhex.
  destruct (SkipSpace (map ascii_of_byte content)) as [l|] eqn:Hskip; [|done].
  cbn [mbind option_bind] in Hscan.
  destruct (decide (l = [])) as [|Hl]; [done|].
  apply SkipSpace_Some in Hskip as [->|(c & rest & -> & Hc)]; [done|].
  cbn [span] in Hscan. rewrite Hc in Hscan. cbn [negb] in Hscan.
  destruct (span (λ c, negb (isSpace c)) rest) as [w rest'].
  cbn [mbind option_bind] in Hscan.
  destruct (scan_blank rest') as [l1|]; [|done]. cbn [mbind option_bind] in Hscan.
  destruct (scan_int l1) as [[? l2]|]; [|done]. cbn [mbind option_bind] in Hscan.
  destruct (scan_blank l2) as [l3|]; [|done]. cbn [mbind option_bind] in Hscan.
  destruct (scan_int l3) as [[? l4]|]; [|done]. cbn [mbind option_bind] in Hscan.
  injection Hscan as Hh _ _. subst hex.
  unfold hex_decode in Hhex.
  cbn [string_of_list_ascii list_ascii_of_string] in Hhex.
  rewrite list_ascii_of_string_of_list_ascii in Hhex.
  destruct w as [|b w]; [done|]. cbn [hex_decode_chars] in Hhex.
  repeat case_match; simplify_eq. done.
Qed.

(** X19.  What [HandleGet] answers.  It panics exactly when the
    ActionID is empty; otherwise it calls [WriteResponse] once, with the
    ID of the request, and a Response that is neither an error nor a miss
    names an object file that exists under the path of its OutputID and
    has the size the Response states. *)
Theorem get_hits_are_backed (cacheDir : string) (Error : LibError → string)
    (fs : Disk) (r : Request.t) :
  (HandleGet cacheDir Error fs r = Panics ↔ Request.ActionID r = [])
  ∧ ∀ res, HandleGet cacheDir Error fs r = Responds res →
      Response.ID res = Request.ID r
      ∧ (Response.Err res = "" → Response.Miss res = false →
         ∃ object,
           getObjectPath cacheDir (Response.OutputID res) = Some (Response.DiskPath res)
           ∧ files fs !! Response.DiskPath res = Some object
           ∧ Response.Size res = Z.of_nat (length object)).
Proof.
  unfold HandleGet.
  destruct (getActionPath cacheDir (Request.ActionID r)) as [ap|] eqn:Hap.
  2:{ apply getActionPath_None in Hap. by split. }
  assert (Request.ActionID r ≠ []) as Hne.
  { intros Heq. rewrite Heq in Hap. by rewrite (proj2 (getActionPath_None cacheDir [])) in Hap. }
  destruct (files fs !! ap) as [content|].
  2:{ split; [by split|]. by intros res [= <-]. }
  destruct (Fscanf_action content) as [[[hex size] ts]|] eqn:Hscan.
  2:{ split; [by split|]. by intros res [= <-]. }
  destruct (hex_decode hex) as [o|] eqn:Hhex.
  2:{ split; [by split|]. by intros res [= <-]. }
  pose proof (scanned_output_not_empty _ _ _ _ _ Hscan Hhex) as Ho.
  destruct (getObjectPath cacheDir o) as [op|] eqn:Hop;
    [|by apply getObjectPath_None in Hop].
  match goal with
  | |- context [match ?x !! op with _ => _ end] =>
      destruct (x !! op) as [object|] eqn:Hobj
  end.
  2:{ split; [by split|]. by intros res [= <-]. }
  case_decide as Hsize.
  - split; [by split|]. intros res [= <-]. split; [done|]. intros _ _.
    exists object. simpl. by rewrite Hop, Hobj, Hsize.
  - split; [by split|]. by intros res [= <-].
Qed.

(** X20.  When [HandlePut] panics.  It panics when the OutputID is
    empty, before it has touched anything; when the body is a nil reader;
    and when the ActionID is empty, but then only after it has written the
    object file, which stays behind with no action file to name it.
    In no other case does it panic. *)
Theorem put_panics (cacheDir : string) (Error : LibError → string)
    (now : Z) (fs : Disk) (r : Request.t) :
  ((HandlePut cacheDir Error now fs r).2 = Panics
   ↔ Request.OutputID r = []
     ∨ (Request.OutputID r ≠ []
        ∧ (readAll (Request.Body r) = None
           ∨ ∃ content, readAll (Request.Body r) = Some (content, true)
                        ∧ Request.ActionID r = [])))
  ∧ (Request.OutputID r = [] → (HandlePut cacheDir Error now fs r).1 = fs)
  ∧ (∀ content objectPath,
       getObjectPath cacheDir (Request.OutputID r) = Some objectPath →
       readAll (Request.Body r) = Some (content, true) →
       Request.ActionID r = [] →
       files (HandlePut cacheDir Error now fs r).1 !! objectPath = Some content)
  ∧ (∀ res, (HandlePut cacheDir Error now fs r).2 = Responds res →
       Response.ID res = Request.ID r).
Proof.
  unfold HandlePut, os_Create.
  destruct (getObjectPath cacheDir (Request.OutputID r)) as [op|] eqn:Hop.
  2:{ apply getObjectPath_None in Hop. split_and!; try done. split; [by left|done]. }
  assert (Request.OutputID r ≠ []) as Hne.
  { intros Heq. rewrite Heq in Hop. by rewrite (proj2 (getObjectPath_None cacheDir [])) in Hop. }
  rewrite decide_True by (simpl; set_solver).
  destruct (readAll (Request.Body r)) as [[content ok]|] eqn:Hbody.
  2:{ split_and!; try done. split; [intros _; right; by eauto|done]. }
  destruct ok.
  - destruct (getActionPath cacheDir (Request.ActionID r)) as [ap|] eqn:Hap.
    + assert (Request.ActionID r ≠ []) as Hane.
      { intros Heq. rewrite Heq in Hap.
        by rewrite (proj2 (getActionPath_None cacheDir [])) in Hap. }
      cbn [dirs files File_Write os_MkdirAll]. case_decide; simpl.
      * split_and!; try done; [|by intros res [= <-]].
        split; [done|]. intros [?|[_ [?|(c & _ & ?)]]]; done.
      * split_and!; try done; [|by intros res [= <-]].
        split; [done|]. intros [?|[_ [?|(c & _ & ?)]]]; done.
    + apply getActionPath_None in Hap. split_and!; try done.
      * split; [|done]. intros _. right. split; [done|]. right. by exists content.
      * intros c p [= <-] [= <-] _. simpl. by rewrite !lookup_insert_eq.
  - simpl. split_and!; try done; [|by intros res [= <-]].
    split; [done|]. intros [?|[_ [?|(c & ? & _)]]]; done.
Qed.

(** ** The options of [Serve] *)

(** X21.  [Serve] applies its options in the order they are given to a
    server with the default timeout and the default concurrency of 8: the
    concurrency of the session is that of the last [WithConcurrency]
    among them and the timeout that of the last [WithResponseTimeout],
    the defaults when there is none; options of one kind do not affect
    the other. *)
Theorem serve_options_last_wins (calls : list OptionCall) :
  sem_cap (newServer (map option_of calls)) = List.last (concurrencies calls) 8%nat
  ∧ timeout (newServer (map option_of calls)) = List.last (timeouts calls) defaultTimeout.
Proof.
  induction calls as [|c calls [IHc IHt]] using rev_ind; [done|].
  rewrite map_app. cbn [map]. rewrite newServer_snoc.
  unfold concurrencies, timeouts in *. rewrite !omap_app.
  destruct c as [n|d]; cbn [omap option_of]; simpl.
  - rewrite last_last, app_nil_r. done.
  - rewrite last_last, app_nil_r. done.
Qed.
